(** * ModelCheckpointTopN: a keras callback keeping the n best checkpoints

    A shallow embedding of [model_checkpoint_top_n.py] and of the library
    routines it calls ([heapq], [os.path], [str.format]), followed by the
    properties of the retention policy.

    Modelling conventions.
    - Python [int] is [Z]; list positions are [nat].
    - A monitored value is a Python [float]: a finite value, an infinity
      or [nan].  The program only multiplies it by [1.0] or [-1.0] and
      compares it; both are exact, so a finite value is modelled by the
      rational it denotes ([Q]).  [nan] compares false with everything,
      itself included.
    - Python [str] is [string]; [<] on [str] is the lexicographic order on
      character codes.
    - A tracker entry is the Python tuple [(score, epoch, filepath)].
    - The calls on the outside world ([warnings.warn], [print],
      [os.remove], [model.save], [model.save_weights]) are recorded, in
      program order, in a list of events.  What these calls do is not
      modelled: each of them returns.  In particular an [os.remove] that
      names a file that does not exist is recorded like any other, where
      the file system would raise; [accepted] below says of a trace that
      it has no such call.  The exceptions that the inputs determine (a
      template that [str.format] rejects, [__show_tracked] on an empty
      tracker) are modelled. *)

From Stdlib Require Import ZArith QArith Lia.
From Stdlib Require Import Ascii String.
From Stdlib Require DecimalString DecimalPos DecimalZ.
From stdpp Require Import base option list gmap strings.

Local Open Scope Z_scope.

(** ** Python floats *)

Inductive float : Type :=
  | finite (q : Q)
  | inf (negative : bool)   (* float('inf') and float('-inf') *)
  | nan.

(** [x < y] on floats: false when either side is [nan]. *)
Definition float_ltb (x y : float) : bool :=
  match x, y with
  | finite a, finite b => match (a ?= b)%Q with Lt => true | _ => false end
  | finite _, inf negative => negb negative
  | inf negative, finite _ => negative
  | inf negative, inf negative' => negative && negb negative'
  | _, _ => false
  end.

(** [x == y] on floats: false when either side is [nan]. *)
Definition float_eqb (x y : float) : bool :=
  match x, y with
  | finite a, finite b => Qeq_bool a b
  | inf negative, inf negative' => Bool.eqb negative negative'
  | _, _ => false
  end.

(** [x * c] for a finite [c]; the product of two finite floats is exact
    for the coefficients [1.0] and [-1.0] that [__init__] sets. *)
Definition float_mul (x : float) (c : Q) : float :=
  match x with
  | finite a => finite (a * c)
  | inf negative =>
      match (c ?= 0)%Q with
      | Gt => inf negative
      | Lt => inf (negb negative)
      | Eq => nan
      end
  | nan => nan
  end.

(** ** Tracker entries and Python's tuple order *)

Definition item : Type := float * Z * string.

Definition item_score (x : item) : float := x.1.1.
Definition item_epoch (x : item) : Z := x.1.2.
Definition item_path (x : item) : string := x.2.

#[global] Instance item_inhabited : Inhabited item :=
  populate (finite 0, 0, EmptyString).

(** [a < b] on tuples: the first position where the components are not
    [==] decides.  The floats of two tuples are never the same object
    (each is the result of a multiplication of its own), so the identity
    shortcut of the comparison never applies to them. *)
Definition tuple_ltb (a b : item) : bool :=
  let '(s1, e1, p1) := a in
  let '(s2, e2, p2) := b in
  if negb (float_eqb s1 s2) then float_ltb s1 s2
  else if negb (e1 =? e2) then e1 <? e2
  else if negb (String.eqb p1 p2) then String.ltb p1 p2
  else false.

(** [a == b] on tuples. *)
Definition tuple_eqb (a b : item) : bool :=
  let '(s1, e1, p1) := a in
  let '(s2, e2, p2) := b in
  float_eqb s1 s2 && (e1 =? e2) && String.eqb p1 p2.

(** ** heapq

    [heappush] and [heappushpop] with their helpers [_siftdown] and
    [_siftup], as in CPython's [Lib/heapq.py].  A [while] loop is a
    [Fixpoint] on a bound of its number of iterations; the loop variable
    [pos] strictly decreases in [_siftdown] and strictly increases below
    [endpos] in [_siftup], so the bounds used below are never exhausted
    (lemmas [siftup_loop_spec] and [siftdown_loop_heap]).  [heap !!! i]
    is [heap[i]]; the value read at an index out of range is never used. *)

Module heapq.

Fixpoint _siftdown_loop (n : nat) (heap : list item) (startpos pos : nat)
    (newitem : item) : list item :=
  match n with
  | O => <[pos := newitem]> heap
  | S n' =>
      if (startpos <? pos)%nat then
        let parentpos := ((pos - 1) / 2)%nat in
        let parent := heap !!! parentpos in
        if tuple_ltb newitem parent
        then _siftdown_loop n' (<[pos := parent]> heap) startpos parentpos newitem
        else <[pos := newitem]> heap
      else <[pos := newitem]> heap
  end.

Definition _siftdown (heap : list item) (startpos pos : nat) : list item :=
  let newitem := heap !!! pos in
  _siftdown_loop pos heap startpos pos newitem.

Fixpoint _siftup_loop (n : nat) (heap : list item) (pos childpos endpos : nat)
    : list item * nat :=
  match n with
  | O => (heap, pos)
  | S n' =>
      if (childpos <? endpos)%nat then
        let rightpos := (childpos + 1)%nat in
        let childpos :=
          if (rightpos <? endpos)%nat
             && negb (tuple_ltb (heap !!! childpos) (heap !!! rightpos))
          then rightpos else childpos in
        _siftup_loop n' (<[pos := heap !!! childpos]> heap)
                     childpos (2 * childpos + 1)%nat endpos
      else (heap, pos)
  end.

Definition _siftup (heap : list item) (pos : nat) : list item :=
  let endpos := length heap in
  let startpos := pos in
  let newitem := heap !!! pos in
  let '(heap, pos) := _siftup_loop endpos heap pos (2 * pos + 1)%nat endpos in
  _siftdown (<[pos := newitem]> heap) startpos pos.

Definition heappush (heap : list item) (x : item) : list item :=
  let heap := heap ++ [x] in
  _siftdown heap 0 (length heap - 1).

(** Returns the new heap and the returned item. *)
Definition heappushpop (heap : list item) (x : item) : list item * item :=
  match heap with
  | top :: _ =>
      if tuple_ltb top x
      then (_siftup (<[0%nat := x]> heap) 0, top)
      else (heap, x)
  | [] => (heap, x)
  end.

End heapq.

(** ** Python strings *)

(** [sub in s] *)
Fixpoint str_contains (sub s : string) : bool :=
  String.prefix sub s
  || match s with
     | EmptyString => false
     | String _ s' => str_contains sub s'
     end.

(** [s.startswith(p)] *)
Definition startswith (s p : string) : bool := String.prefix p s.

(** [str(z)], which is also [format(z, 'd')]. *)
Definition str_of_int (z : Z) : string :=
  DecimalString.NilZero.string_of_int (Z.to_int z).

(** ** os.path (posixpath)

    [split], [splitext] and [join] of CPython's [posixpath] and
    [genericpath], on the characters of the path.  [p[:i]] is [take i p]
    and [p[i:]] is [drop i p]. *)

Module os_path.

Definition sep : ascii := "/"%char.
Definition extsep : ascii := "."%char.

(** [p.rfind(c)]: the highest index of [c] in [p], [-1] when absent. *)
Fixpoint rfind (p : list ascii) (c : ascii) : Z :=
  match p with
  | [] => -1
  | x :: p' =>
      let r := rfind p' c in
      if 0 <=? r then r + 1 else if Ascii.eqb x c then 0 else -1
  end.

(** [p.rstrip(c)] *)
Fixpoint rstrip (p : list ascii) (c : ascii) : list ascii :=
  match p with
  | [] => []
  | x :: p' =>
      match rstrip p' c with
      | [] => if Ascii.eqb x c then [] else [x]
      | r => x :: r
      end
  end.

Definition split_chars (p : list ascii) : list ascii * list ascii :=
  let i := Z.to_nat (rfind p sep + 1) in
  let head := take i p in
  let tail := drop i p in
  let head :=
    if negb (bool_decide (head = []))
       && negb (bool_decide (head = replicate (length head) sep))
    then rstrip head sep else head in
  (head, tail).

(** The loop of [_splitext] that skips leading dots: [Some] is the
    [return] inside the loop, [None] is the loop running to its end. *)
Fixpoint _splitext_loop (n : nat) (p : list ascii) (filenameIndex dotIndex : nat)
    : option (list ascii * list ascii) :=
  match n with
  | O => None
  | S n' =>
      if (filenameIndex <? dotIndex)%nat then
        if negb (bool_decide (p !! filenameIndex = Some extsep))
        then Some (take dotIndex p, drop dotIndex p)
        else _splitext_loop n' p (filenameIndex + 1) dotIndex
      else None
  end.

Definition splitext_chars (p : list ascii) : list ascii * list ascii :=
  let sepIndex := rfind p sep in
  let dotIndex := rfind p extsep in
  if sepIndex <? dotIndex then
    let filenameIndex := Z.to_nat (sepIndex + 1) in
    match _splitext_loop (Z.to_nat dotIndex) p filenameIndex (Z.to_nat dotIndex) with
    | Some r => r
    | None => (p, [])
    end
  else (p, []).

Definition join_chars (a b : list ascii) : list ascii :=
  if bool_decide (head b = Some sep) then b
  else if bool_decide (a = []) || bool_decide (last a = Some sep) then a ++ b
  else a ++ sep :: b.

Definition split (p : string) : string * string :=
  let '(head, tail) := split_chars (list_ascii_of_string p) in
  (string_of_list_ascii head, string_of_list_ascii tail).

Definition splitext (p : string) : string * string :=
  let '(root, ext) := splitext_chars (list_ascii_of_string p) in
  (string_of_list_ascii root, string_of_list_ascii ext).

Definition join (a b : string) : string :=
  string_of_list_ascii (join_chars (list_ascii_of_string a) (list_ascii_of_string b)).

End os_path.

(** ** str.format

    [template.format(epoch=epoch, **logs)].  The scanner follows CPython's
    [MarkupIterator]: text outside braces is copied, a doubled brace is one
    literal brace, a single closing brace or an unclosed field is a
    [ValueError], and a replacement field runs to its closing brace, nested
    braces counted.  The field [{epoch:d}] is the decimal numeral of
    [epoch]; a field whose argument name is not a keyword argument is a
    [KeyError] (or [IndexError] for a positional field); how Python renders
    any other field (format specifications, conversions, floats) is left
    to the parameter [format_field].  [None] is a raised exception. *)

Section Format.

(** [format_field field epoch logs]: the rendering of the replacement
    field with text [field] against the keyword arguments, [None] when
    rendering raises. *)
Variable format_field : string → Z → gmap string float → option string.

Definition is_name_end (c : ascii) : bool :=
  bool_decide (c = "."%char) || bool_decide (c = "["%char)
  || bool_decide (c = "!"%char) || bool_decide (c = ":"%char).

(** The argument name of a field: the text before the first of [. [ ! :]. *)
Fixpoint arg_name (field : list ascii) : list ascii :=
  match field with
  | [] => []
  | c :: field' => if is_name_end c then [] else c :: arg_name field'
  end.

Definition render_field (field : list ascii) (epoch : Z) (logs : gmap string float)
    : option (list ascii) :=
  let text := string_of_list_ascii field in
  let name := string_of_list_ascii (arg_name field) in
  if bool_decide (text = "epoch:d"%string)
  then Some (list_ascii_of_string (str_of_int epoch))
  else if bool_decide (name = "epoch"%string) || bool_decide (is_Some (logs !! name))
  then list_ascii_of_string <$> format_field text epoch logs
  else None.

(** [field] is [None] outside a replacement field and [Some (depth, acc)]
    inside one, [acc] holding the field's text so far, reversed. *)
Fixpoint format_chars (t : list ascii) (field : option (nat * list ascii))
    (epoch : Z) (logs : gmap string float) : option (list ascii) :=
  match t, field with
  | [], None => Some []
  | [], Some _ => None
  | c :: t', Some (depth, acc) =>
      if bool_decide (c = "}"%char) then
        match depth with
        | O =>
            r ← render_field (rev acc) epoch logs;
            rest ← format_chars t' None epoch logs;
            Some (r ++ rest)
        | S depth' => format_chars t' (Some (depth', c :: acc)) epoch logs
        end
      else if bool_decide (c = "{"%char)
      then format_chars t' (Some (S depth, c :: acc)) epoch logs
      else format_chars t' (Some (depth, c :: acc)) epoch logs
  | c :: t', None =>
      if bool_decide (c = "{"%char) then
        match t' with
        | [] => None
        | c' :: t'' =>
            if bool_decide (c' = "{"%char)
            then (c ::.) <$> format_chars t'' None epoch logs
            else format_chars t' (Some (O, [])) epoch logs
        end
      else if bool_decide (c = "}"%char) then
        match t' with
        | [] => None
        | c' :: t'' =>
            if bool_decide (c' = "}"%char)
            then (c ::.) <$> format_chars t'' None epoch logs
            else None
        end
      else (c ::.) <$> format_chars t' None epoch logs
  end.

(** [template.format(epoch=epoch, **logs)]; a key [epoch] in [logs] is
    a [TypeError] (two values for one keyword argument). *)
Definition str_format (template : string) (epoch : Z) (logs : gmap string float)
    : option string :=
  if bool_decide (is_Some (logs !! "epoch"%string)) then None
  else string_of_list_ascii
         <$> format_chars (list_ascii_of_string template) None epoch logs.

End Format.

(** ** The callback object and the outside world *)

Record ModelCheckpointTopN : Type := {
  monitor : string;
  verbose : Z;
  filepath : string;
  n_models : Z;
  save_weights_only : bool;
  period : Z;
  epochs_since_last_save : Z;
  tracker : list item;
  coef : Q;
}.

Definition set_epochs_since_last_save (v : Z) (self : ModelCheckpointTopN) :=
  {| monitor := monitor self; verbose := verbose self; filepath := filepath self;
     n_models := n_models self; save_weights_only := save_weights_only self;
     period := period self; epochs_since_last_save := v;
     tracker := tracker self; coef := coef self |}.

Definition set_tracker (h : list item) (self : ModelCheckpointTopN) :=
  {| monitor := monitor self; verbose := verbose self; filepath := filepath self;
     n_models := n_models self; save_weights_only := save_weights_only self;
     period := period self; epochs_since_last_save := epochs_since_last_save self;
     tracker := h; coef := coef self |}.

(** The three texts [on_epoch_end] prints, by their arguments (the
    rendering of floats is not modelled).  [tracked] stands for the text
    of [__show_tracked]. *)
Inductive message : Type :=
  | msg_discarded (epoch discarded_epoch : Z) (monitor : string)
      (discarded_value current : float) (filepath deleted : string)
      (tracked : list float)
  | msg_not_improved (epoch : Z) (monitor : string) (current : float)
      (tracked : list float)
  | msg_saving (epoch : Z) (monitor : string) (current : float) (filepath : string)
      (tracked : list float).

Inductive event : Type :=
  | warn (text : string)                 (* warnings.warn(text, RuntimeWarning) *)
  | print (m : message)
  | os_remove (path : string)
  | model_save (path : string)           (* model.save(path, overwrite=True) *)
  | model_save_weights (path : string).  (* model.save_weights(path, overwrite=True) *)

Inductive exception : Type :=
  | FormatError   (* what str.format raised: KeyError, ValueError, IndexError, TypeError *)
  | IndexError.

(** A method body: it reads and updates [self], emits events and either
    returns or raises. *)
Definition M (A : Type) : Type :=
  ModelCheckpointTopN → ModelCheckpointTopN * list event * (exception + A).

#[global] Instance M_ret : MRet M := λ A x self, (self, [], inr x).
#[global] Instance M_bind : MBind M := λ A B f m self,
  match m self with
  | (self', evs, inl e) => (self', evs, inl e)
  | (self', evs, inr x) =>
      let '(self'', evs', r) := f x self' in (self'', evs ++ evs', r)
  end.

Definition get : M ModelCheckpointTopN := λ self, (self, [], inr self).
Definition modify (f : ModelCheckpointTopN → ModelCheckpointTopN) : M unit :=
  λ self, (f self, [], inr tt).
Definition emit (e : event) : M unit := λ self, (self, [e], inr tt).
Definition raise {A} (e : exception) : M A := λ self, (self, [], inl e).
Definition when (b : bool) (m : M unit) : M unit := if b then m else mret tt.

Section Callback.

Variable format_field : string → Z → gmap string float → option string.

(** [__init__]; the events are the warnings of the constructor. *)
Definition __init__ (filepath monitor : string) (verbose n_models : Z)
    (save_weights_only : bool) (mode : string) (period : Z)
    : ModelCheckpointTopN * list event :=
  let '(head, tail) := os_path.split filepath in
  let '(model_name, ext) := os_path.splitext tail in
  let filepath := os_path.join head (model_name +:+ "_{epoch:d}" +:+ ext) in
  let known := bool_decide (mode ∈ ["auto"; "min"; "max"]%string) in
  let evs :=
    if known then []
    else [warn ("ModelCheckpoint mode " +:+ mode
                +:+ " is unknown, fallback to auto mode.")] in
  let mode := if known then mode else "auto"%string in
  let coef :=
    if bool_decide (mode = "min"%string) then (-1)%Q
    else if bool_decide (mode = "max"%string) then 1%Q
    else if str_contains "acc" monitor || startswith monitor "fmeasure"
         then 1%Q else (-1)%Q in
  ({| monitor := monitor; verbose := verbose; filepath := filepath;
      n_models := n_models; save_weights_only := save_weights_only;
      period := period; epochs_since_last_save := 0; tracker := [];
      coef := coef |}, evs).

(** [__show_tracked]: [list(zip( *tracker))[0]] is the tuple of scores,
    and an [IndexError] on an empty tracker.  The text it returns lists
    these scores sorted, each times [coef] and rendered with five
    decimals; the order [sorted] leaves a list with [nan] in and the
    rendering are not modelled, and the tuple of scores stands for the
    text. *)
Definition __show_tracked : M (list float) :=
  self ← get;
  match tracker self with
  | [] => raise IndexError
  | _ => mret (item_score <$> tracker self)
  end.

Definition model_persist (filepath : string) : M unit :=
  self ← get;
  if save_weights_only self
  then emit (model_save_weights filepath)
  else emit (model_save filepath).

Definition on_epoch_end (epoch : Z) (logs : option (gmap string float)) : M unit :=
  let logs := default ∅ logs in
  modify (λ self, set_epochs_since_last_save (epochs_since_last_save self + 1) self);;
  self ← get;
  if period self <=? epochs_since_last_save self then
    modify (set_epochs_since_last_save 0);;
    match str_format format_field (filepath self) (epoch + 1) logs with
    | None => raise FormatError
    | Some filepath =>
        match logs !! monitor self with
        | None =>
            emit (warn ("Can save best model only with " +:+ monitor self
                        +:+ " available, skipping."))
        | Some current =>
            let candidate : item :=
              (float_mul current (coef self), epoch + 1, filepath) in
            if n_models self <=? Z.of_nat (length (tracker self)) then
              let '(heap, discard) := heapq.heappushpop (tracker self) candidate in
              modify (set_tracker heap);;
              if negb (tuple_eqb discard candidate) then
                when (0 <? verbose self)
                  (tracked ← __show_tracked;
                   emit (print (msg_discarded (epoch + 1) (item_epoch discard)
                                  (monitor self)
                                  (float_mul (item_score discard) (coef self))
                                  current filepath (item_path discard) tracked)));;
                emit (os_remove (item_path discard));;
                model_persist filepath
              else
                when (0 <? verbose self)
                  (tracked ← __show_tracked;
                   emit (print (msg_not_improved (epoch + 1) (monitor self)
                                  current tracked)))
            else
              modify (set_tracker (heapq.heappush (tracker self) candidate));;
              when (0 <? verbose self)
                (tracked ← __show_tracked;
                 emit (print (msg_saving (epoch + 1) (monitor self) current
                                filepath tracked)));;
              model_persist filepath
        end
    end
  else mret tt.

(** A call of [on_epoch_end]: its [epoch] and its [logs]. *)
Definition call : Type := Z * option (gmap string float).

(** The training loop's calls in order: the object after the last call
    and the events of each call.  An exception does not undo what the
    call did to the object before raising, and the object can be called
    again, so the exceptions are dropped here. *)
Fixpoint run (self : ModelCheckpointTopN) (calls : list call)
    : ModelCheckpointTopN * list (list event) :=
  match calls with
  | [] => (self, [])
  | (epoch, logs) :: calls' =>
      let '(self', evs, _) := on_epoch_end epoch logs self in
      let '(self'', evss) := run self' calls' in
      (self'', evs :: evss)
  end.

(** The path line 79 computes in a call, when the call gets there. *)
Definition resolved_path (self : ModelCheckpointTopN) (epoch : Z)
    (logs : option (gmap string float)) : option string :=
  if period self <=? epochs_since_last_save self + 1
  then str_format format_field (filepath self) (epoch + 1) (default ∅ logs)
  else None.

(** The paths the calls resolve, in order. *)
Fixpoint resolved_paths (self : ModelCheckpointTopN) (calls : list call)
    : list string :=
  match calls with
  | [] => []
  | (epoch, logs) :: calls' =>
      option_list (resolved_path self epoch logs)
      ++ resolved_paths (on_epoch_end epoch logs self).1.1 calls'
  end.

End Callback.

Arguments heapq.heappush : simpl never.
Arguments heapq.heappushpop : simpl never.
Arguments str_format : simpl never.
Arguments tuple_eqb : simpl never.
Arguments tuple_ltb : simpl never.

(** ** What a trace does to the files *)

(** [persist]: [model.save_weights] or [model.save], by [save_weights_only]. *)
Definition persist_event (self : ModelCheckpointTopN) (path : string) : event :=
  if save_weights_only self then model_save_weights path else model_save path.

Definition persisted_path (e : event) : option string :=
  match e with
  | model_save p | model_save_weights p => Some p
  | _ => None
  end.

Definition deleted_path (e : event) : option string :=
  match e with
  | os_remove p => Some p
  | _ => None
  end.

Definition is_file_op (e : event) : bool :=
  match e with
  | os_remove _ | model_save _ | model_save_weights _ => true
  | _ => false
  end.

(** The paths persisted, the paths deleted, and the calls on the file
    system, in the order of the trace. *)
Definition persists (evs : list event) : list string := omap persisted_path evs.
Definition deletes (evs : list event) : list string := omap deleted_path evs.
Definition file_ops (evs : list event) : list event := List.filter is_file_op evs.

(** The files persisted and not deleted since, after the events [evs]
    on the files [files]. *)
Definition live_step (files : gset string) (e : event) : gset string :=
  match e with
  | model_save p | model_save_weights p => {[p]} ∪ files
  | os_remove p => files ∖ {[p]}
  | _ => files
  end.
Definition live_from (files : gset string) (evs : list event) : gset string :=
  foldl live_step files evs.
Definition live (evs : list event) : gset string := live_from ∅ evs.

(** * The vocabulary of the properties *)

(** ** Order and heaps *)

(** [x < y] and [x == y] on floats, as propositions. *)
Definition float_lt (x y : float) : Prop := float_ltb x y = true.
Definition float_eq (x y : float) : Prop := float_eqb x y = true.

(** The score of the tuple is not [nan]. *)
Definition not_nan (a : item) : Prop := item_score a ≠ nan.

(** [not (b < a)] on tuples.  For tuples whose scores are not [nan] this
    is [a <= b].  No tuple is [<] a tuple whose score is [nan] and such
    a tuple is [<] none, so it stands in this relation to every tuple,
    on either side. *)
Definition tuple_le (a b : item) : Prop := tuple_ltb b a = false.

(** [m] is a minimum of [l] in the tuple order: no item of [l] is [<]
    it. *)
Definition is_minimum (m : item) (l : list item) : Prop :=
  m ∈ l ∧ ∀ y, y ∈ l → tuple_le m y.

(** The heap invariant, as the code of [heapq] keeps it: no item is [<]
    its parent, [not (heap[k] < heap[(k-1)//2])] for all [k > 0].  On
    tuples whose scores are not [nan] this is
    [heap[(k-1)//2] <= heap[k]]. *)
Definition is_heap (h : list item) : Prop :=
  ∀ i, (0 < i < length h)%nat → tuple_le (h !!! ((i - 1) / 2)%nat) (h !!! i).

(** The array is a heap but for the hole at [pos], which [x] is to fill:
    every other item is above its parent, and the children of the hole
    are above [x] and above the parent of the hole. *)
Definition heap_hole (h : list item) (pos : nat) (x : item) : Prop :=
  (pos < length h)%nat
  ∧ (∀ i, (0 < i < length h)%nat → i ≠ pos → ((i - 1) / 2)%nat ≠ pos →
       tuple_le (h !!! ((i - 1) / 2)%nat) (h !!! i))
  ∧ (∀ c, (0 < c < length h)%nat → ((c - 1) / 2)%nat = pos →
       tuple_le x (h !!! c)
       ∧ ((0 < pos)%nat → tuple_le (h !!! ((pos - 1) / 2)%nat) (h !!! c))).

(** The state of the first loop of [_siftup]: the hole at [pos] moves
    down; every item whose parent is not the hole is above its parent,
    and the children of the hole are above the parent of the hole. *)
Definition hole_down (h : list item) (pos : nat) : Prop :=
  (pos < length h)%nat
  ∧ (∀ i, (0 < i < length h)%nat → ((i - 1) / 2)%nat ≠ pos →
       tuple_le (h !!! ((i - 1) / 2)%nat) (h !!! i))
  ∧ (∀ c, (0 < c < length h)%nat → ((c - 1) / 2)%nat = pos → (0 < pos)%nat →
       tuple_le (h !!! ((pos - 1) / 2)%nat) (h !!! c)).

(** ** Calls *)

(** The configuration is never written after construction. *)
Definition same_config (self self' : ModelCheckpointTopN) : Prop :=
  monitor self' = monitor self ∧ verbose self' = verbose self
  ∧ filepath self' = filepath self ∧ n_models self' = n_models self
  ∧ save_weights_only self' = save_weights_only self
  ∧ period self' = period self ∧ coef self' = coef self.

(** The paths the tracker holds. *)
Definition paths (self : ModelCheckpointTopN) : list string :=
  item_path <$> tracker self.

(** The raw values of the tracked checkpoints, in the order of the
    tracker: [score * coef]. *)
Definition raw_scores (self : ModelCheckpointTopN) : list float :=
  (λ x, float_mul (item_score x) (coef self)) <$> tracker self.

(** What [__show_tracked] returns on a tracker that is not empty. *)
Definition show_tracked_value (self : ModelCheckpointTopN) : list float :=
  item_score <$> tracker self.

(** The events of a [print] under [if self.verbose > 0]. *)
Definition printed (self : ModelCheckpointTopN) (m : message) : list event :=
  if 0 <? verbose self then [print m] else [].

(** The monitored value is [nan] in none of the calls. *)
Definition never_nan (mon : string) (calls : list call) : Prop :=
  Forall (λ c : call, default ∅ c.2 !! mon ≠ Some nan) calls.

(** The candidate of a call with these logs, if there is one, has a
    score that is not [nan]. *)
Definition scored_call (self : ModelCheckpointTopN)
    (logs : option (gmap string float)) : Prop :=
  ∀ current, default ∅ logs !! monitor self = Some current →
             float_mul current (coef self) ≠ nan.

(** Every [os.remove] of the trace names a file that is there: one of
    [files] or one persisted earlier in the trace, and not removed
    since. *)
Fixpoint accepted (files : gset string) (evs : list event) : bool :=
  match evs with
  | [] => true
  | e :: evs' =>
      match e with
      | os_remove p => bool_decide (p ∈ files)
      | _ => true
      end && accepted (live_step files e) evs'
  end.

(** Logs that hold [val_loss] only. *)
Definition val_loss (v : float) : option (gmap string float) :=
  Some {[ "val_loss"%string := v ]}.

Section StepRelation.

Variable format_field : string → Z → gmap string float → option string.

(** The candidate tuple of a call. *)
Definition candidate (self : ModelCheckpointTopN) (epoch : Z) (current : float)
    (path : string) : item :=
  (float_mul current (coef self), epoch + 1, path).

(** The cases of a call on the object [self]: the object afterwards,
    the events and the outcome. *)
Inductive step (self : ModelCheckpointTopN) (epoch : Z) (logs : gmap string float)
    : ModelCheckpointTopN → list event → exception + unit → Prop :=
  | step_wait :
      epochs_since_last_save self + 1 < period self →
      step self epoch logs
        (set_epochs_since_last_save (epochs_since_last_save self + 1) self)
        [] (inr tt)
  | step_format_raises :
      period self ≤ epochs_since_last_save self + 1 →
      str_format format_field (filepath self) (epoch + 1) logs = None →
      step self epoch logs (set_epochs_since_last_save 0 self) [] (inl FormatError)
  | step_no_metric path :
      period self ≤ epochs_since_last_save self + 1 →
      str_format format_field (filepath self) (epoch + 1) logs = Some path →
      logs !! monitor self = None →
      step self epoch logs (set_epochs_since_last_save 0 self)
        [warn ("Can save best model only with " +:+ monitor self
               +:+ " available, skipping.")]
        (inr tt)
  | step_store path current evs :
      period self ≤ epochs_since_last_save self + 1 →
      str_format format_field (filepath self) (epoch + 1) logs = Some path →
      logs !! monitor self = Some current →
      Z.of_nat (length (tracker self)) < n_models self →
      file_ops evs = [persist_event self path] →
      step self epoch logs
        (set_tracker (heapq.heappush (tracker self)
                        (candidate self epoch current path))
           (set_epochs_since_last_save 0 self))
        evs (inr tt)
  | step_replace path current top rest heap evs :
      period self ≤ epochs_since_last_save self + 1 →
      str_format format_field (filepath self) (epoch + 1) logs = Some path →
      logs !! monitor self = Some current →
      n_models self ≤ Z.of_nat (length (tracker self)) →
      tracker self = top :: rest →
      tuple_ltb top (candidate self epoch current path) = true →
      heapq.heappushpop (tracker self) (candidate self epoch current path)
        = (heap, top) →
      file_ops evs = [os_remove (item_path top); persist_event self path] →
      step self epoch logs
        (set_tracker heap (set_epochs_since_last_save 0 self)) evs (inr tt)
  | step_discard path current evs r :
      period self ≤ epochs_since_last_save self + 1 →
      str_format format_field (filepath self) (epoch + 1) logs = Some path →
      logs !! monitor self = Some current →
      n_models self ≤ Z.of_nat (length (tracker self)) →
      (∀ top, head (tracker self) = Some top →
         tuple_ltb top (candidate self epoch current path) = false) →
      not_nan (candidate self epoch current path) →
      file_ops evs = [] →
      step self epoch logs (set_epochs_since_last_save 0 self) evs r
  | step_nan path current evs r :
      (* the candidate comes back from [heappushpop] and is not [==] to
         the tuple line 87 builds anew *)
      period self ≤ epochs_since_last_save self + 1 →
      str_format format_field (filepath self) (epoch + 1) logs = Some path →
      logs !! monitor self = Some current →
      n_models self ≤ Z.of_nat (length (tracker self)) →
      item_score (candidate self epoch current path) = nan →
      (file_ops evs = [os_remove path; persist_event self path] ∧ r = inr tt)
      ∨ (tracker self = [] ∧ 0 < verbose self ∧ evs = [] ∧ r = inl IndexError) →
      step self epoch logs (set_epochs_since_last_save 0 self) evs r.

End StepRelation.

(** What a call does when [heappushpop] has handed the candidate back.
    If the candidate is [==] to the tuple line 87 builds anew, which it
    is unless its score is [nan], the call prints that the metric did not
    improve.  If not, the call takes the candidate for a tuple that left
    the tracker: it prints that the candidate is discarded, passes its
    path to [os.remove] and persists it. *)
Definition handed_back (self : ModelCheckpointTopN) (epoch : Z) (current : float)
    (path : string) : ModelCheckpointTopN * list event * (exception + unit) :=
  let self0 := set_epochs_since_last_save 0 self in
  let cand := candidate self epoch current path in
  match tracker self with
  | [] =>
      if 0 <? verbose self then (self0, [], inl IndexError)
      else if tuple_eqb cand cand then (self0, [], inr tt)
      else (self0, [os_remove path; persist_event self path], inr tt)
  | _ :: _ =>
      if tuple_eqb cand cand then
        (self0,
         printed self
           (msg_not_improved (epoch + 1) (monitor self) current
              (show_tracked_value self0)),
         inr tt)
      else
        (self0,
         printed self
           (msg_discarded (epoch + 1) (epoch + 1) (monitor self)
              (float_mul (item_score cand) (coef self)) current path path
              (show_tracked_value self0))
         ++ [os_remove path; persist_event self path],
         inr tt)
  end.

(** ** The candidates of a sequence of calls *)

Section Offered.

Variable format_field : string → Z → gmap string float → option string.

(** The candidate tuple line 86 or line 105 builds in a call, when the
    call gets there. *)
Definition offered_call (self : ModelCheckpointTopN) (epoch : Z)
    (logs : option (gmap string float)) : option item :=
  if period self <=? epochs_since_last_save self + 1 then
    path ← str_format format_field (filepath self) (epoch + 1) (default ∅ logs);
    current ← default ∅ logs !! monitor self;
    Some (candidate self epoch current path)
  else None.

(** The candidates of the calls, in order. *)
Fixpoint offered (self : ModelCheckpointTopN) (calls : list call) : list item :=
  match calls with
  | [] => []
  | (epoch, logs) :: calls' =>
      option_list (offered_call self epoch logs)
      ++ offered (on_epoch_end format_field epoch logs self).1.1 calls'
  end.

End Offered.

(** ** Path templates *)

(** No brace in the text. *)
Definition brace_free_chars (l : list ascii) : Prop :=
  Forall (λ c, c ≠ "{"%char ∧ c ≠ "}"%char) l.
Definition brace_free (s : string) : Prop :=
  brace_free_chars (list_ascii_of_string s).

(** [literal_text t r]: the template text [t] holds no replacement field,
    only plain characters and doubled braces, and reads [r]. *)
Inductive literal_text : list ascii → list ascii → Prop :=
  | literal_nil : literal_text [] []
  | literal_char c t r :
      c ≠ "{"%char → c ≠ "}"%char → literal_text t r →
      literal_text (c :: t) (c :: r)
  | literal_open t r :
      literal_text t r → literal_text ("{"%char :: "{"%char :: t) ("{"%char :: r)
  | literal_close t r :
      literal_text t r → literal_text ("}"%char :: "}"%char :: t) ("}"%char :: r).

(** The template's only replacement field is [{epoch:d}], between the
    texts that read [pre] and [post]. *)
Definition only_epoch_field (template : string) (pre post : list ascii) : Prop :=
  ∃ t1 t2,
    list_ascii_of_string template
    = t1 ++ list_ascii_of_string "{epoch:d}" ++ t2
    ∧ literal_text t1 pre ∧ literal_text t2 post.

(** ** Sample inputs *)

(** A rendering of replacement fields that covers [{epoch:02d}] only
    (Python pads the numeral with one zero when it is a single digit),
    for templates that name no other field whose key is present. *)
Definition format_field_sample (field : string) (epoch : Z) (logs : gmap string float)
    : option string :=
  if bool_decide (field = "epoch:02d"%string)
  then Some (if (0 <=? epoch) && (epoch <? 10)
             then "0" +:+ str_of_int epoch else str_of_int epoch)
  else None.

(** The object of scenario A and its first calls. *)
Definition sample_self : ModelCheckpointTopN :=
  (__init__ "model.h5" "val_loss" 0 2 false "min" 1).1.
Definition sample_calls : list call :=
  [(0, val_loss (finite 0.5)); (1, val_loss (finite 0.3)); (2, val_loss (finite 0.4)); (3, val_loss (finite 0.6))].


(** The tuples the tracker holds after the first two sample calls. *)
Definition sample_top : item := (finite (0.5 * -1), 1, "model_1.h5"%string).
Definition sample_rest : list item := [(finite (0.3 * -1), 2, "model_2.h5"%string)].

(** * Properties *)

(** ** The library models on examples *)

Example split_dir_model : os_path.split "dir/model.h5" = ("dir", "model.h5")%string.
Proof. reflexivity. Qed.
Example split_root : os_path.split "/model.h5" = ("/", "model.h5")%string.
Proof. reflexivity. Qed.
Example splitext_model : os_path.splitext "model.h5" = ("model", ".h5")%string.
Proof. reflexivity. Qed.
Example splitext_hidden : os_path.splitext ".bashrc" = (".bashrc", "")%string.
Proof. reflexivity. Qed.
Example splitext_two : os_path.splitext "a.tar.gz" = ("a.tar", ".gz")%string.
Proof. reflexivity. Qed.
Example join_plain : os_path.join "dir" "m" = "dir/m"%string.
Proof. reflexivity. Qed.
Example join_empty : os_path.join "" "m" = "m"%string.
Proof. reflexivity. Qed.
Example join_slash : os_path.join "dir/" "m" = "dir/m"%string.
Proof. reflexivity. Qed.

Example format_epoch :
  str_format (λ _ _ _, None) "dir/model_{epoch:d}.h5" 12 ∅ = Some "dir/model_12.h5"%string.
Proof. reflexivity. Qed.
Example format_missing_key :
  str_format (λ _ _ _, None) "m{val_loss}_{epoch:d}.h5" 12 ∅ = None.
Proof. reflexivity. Qed.
Example format_escaped :
  str_format (λ _ _ _, None) "m{{x}}_{epoch:d}.h5" 3 ∅ = Some "m{x}_3.h5"%string.
Proof. reflexivity. Qed.
Example format_single_brace :
  str_format (λ _ _ _, None) "m}_{epoch:d}.h5" 3 ∅ = None.
Proof. reflexivity. Qed.

Example tuple_tie_epoch :
  tuple_ltb (finite 0.5, 1, "b"%string) (finite 0.5, 2, "a"%string) = true.
Proof. reflexivity. Qed.
Example tuple_tie_path :
  tuple_ltb (finite 0.5, 1, "a"%string) (finite 0.5, 1, "b"%string) = true.
Proof. reflexivity. Qed.
Example tuple_same_value :
  tuple_eqb (finite (1 # 2), 1, "a"%string) (finite (2 # 4), 1, "a"%string) = true.
Proof. reflexivity. Qed.

Example heappush_three :
  heapq.heappush [(finite 0.3, 1, "a"%string); (finite 0.5, 2, "b"%string)]
    (finite 0.1, 3, "c"%string)
  = [(finite 0.1, 3, "c"%string); (finite 0.5, 2, "b"%string); (finite 0.3, 1, "a"%string)].
Proof. reflexivity. Qed.
Example heappushpop_three :
  heapq.heappushpop
    [(finite 0.1, 3, "c"%string); (finite 0.5, 2, "b"%string); (finite 0.3, 1, "a"%string)]
    (finite 0.4, 4, "d"%string)
  = ([(finite 0.3, 1, "a"%string); (finite 0.5, 2, "b"%string); (finite 0.4, 4, "d"%string)],
     (finite 0.1, 3, "c"%string)).
Proof. reflexivity. Qed.
Example heappushpop_below_root :
  heapq.heappushpop [(finite 0.3, 1, "a"%string); (finite 0.5, 2, "b"%string)]
    (finite 0.1, 3, "c"%string)
  = ([(finite 0.3, 1, "a"%string); (finite 0.5, 2, "b"%string)], (finite 0.1, 3, "c"%string)).
Proof. reflexivity. Qed.


(** ** [nan] and the infinities, on examples *)

Example tuple_nan :
  tuple_eqb (nan, 3, "a"%string) (nan, 3, "a"%string) = false
  ∧ tuple_ltb (nan, 3, "a"%string) (finite 1, 3, "a"%string) = false
  ∧ tuple_ltb (finite 1, 3, "a"%string) (nan, 3, "a"%string) = false.
Proof. by vm_compute. Qed.

(** A [nan] in the heap hides the tuples below it: with room for four
    and the values 5, [nan], 7 and 3 (mode [max]) the tracker is
    [[5, nan, 7, 3]]; the value 4 is then compared with the first entry
    only and is discarded, although it is above the retained 3. *)
Example nan_hides_minimum :
  let logs (v : float) : option (gmap string float) :=
    Some {[ "val_acc"%string := v ]} in
  let fresh := (__init__ "model.h5" "val_acc" 0 4 false "max" 1).1 in
  let self := (run (λ _ _ _, None) fresh
                 [(0, logs (finite 5)); (1, logs nan); (2, logs (finite 7));
                  (3, logs (finite 3))]).1 in
  let res := on_epoch_end (λ _ _ _, None) 4 (logs (finite 4)) self in
  item_score <$> tracker self = [finite 5; nan; finite 7; finite 3]
  ∧ tuple_ltb (finite 3, 4, "model_4.h5"%string)
      (candidate self 4 (finite 4) "model_5.h5") = true
  ∧ res.1.2 = [] ∧ tracker res.1.1 = tracker self.
Proof. by vm_compute. Qed.

(** Infinite values are ordered like any other: mode [min], room for
    one, and the losses [inf], 0.3, [-inf] and [inf]. *)
Example infinite_losses :
  let fresh := (__init__ "model.h5" "val_loss" 0 1 false "min" 1).1 in
  (run (λ _ _ _, None) fresh
     [(0, val_loss (inf false)); (1, val_loss (finite 0.3));
      (2, val_loss (inf true)); (3, val_loss (inf false))]).2
  = [[model_save "model_1.h5"];
     [os_remove "model_1.h5"; model_save "model_2.h5"];
     [os_remove "model_2.h5"; model_save "model_3.h5"];
     []].
Proof. by vm_compute. Qed.

(** ** The order of floats *)

Lemma finite_ltb a b : float_ltb (finite a) (finite b) = true ↔ (a < b)%Q.
Proof.
  unfold float_ltb. rewrite Qlt_alt. destruct (a ?= b)%Q; split; congruence.
Qed.

Lemma finite_eqb a b : float_eqb (finite a) (finite b) = true ↔ (a == b)%Q.
Proof. apply Qeq_bool_iff. Qed.

Lemma float_nan_dec (x : float) : {x = nan} + {x ≠ nan}.
Proof. destruct x; [by right|by right|by left]. Qed.

Lemma float_ltb_not_nan x y : float_ltb x y = true → x ≠ nan ∧ y ≠ nan.
Proof. by destruct x, y. Qed.

Lemma float_eqb_not_nan x y : float_eqb x y = true → x ≠ nan ∧ y ≠ nan.
Proof. by destruct x, y. Qed.

Lemma float_eqb_refl x : x ≠ nan → float_eqb x x = true.
Proof.
  destruct x as [a|b|]; [intros _|intros _|done].
  - by apply finite_eqb.
  - by destruct b.
Qed.

Lemma float_eqb_sym x y : float_eqb x y = float_eqb y x.
Proof.
  destruct x as [a|b|], y as [a'|b'|]; try done.
  - apply eq_true_iff_eq. rewrite !finite_eqb. split; by intros ->.
  - by destruct b, b'.
Qed.

Lemma float_eqb_trans x y z :
  float_eqb x y = true → float_eqb y z = true → float_eqb x z = true.
Proof.
  destruct x as [a|b|], y as [a'|b'|], z as [a''|b''|]; try done.
  - rewrite !finite_eqb. by intros -> ->.
  - by destruct b, b', b''.
Qed.

Lemma float_ltb_irrefl x : float_ltb x x = false.
Proof.
  destruct x as [a|b|]; [|by destruct b|done].
  apply not_true_is_false. intros H%finite_ltb. by apply Qlt_irrefl in H.
Qed.

Lemma float_ltb_trans x y z :
  float_ltb x y = true → float_ltb y z = true → float_ltb x z = true.
Proof.
  destruct x as [a|b|], y as [a'|b'|], z as [a''|b''|]; try done;
    try (rewrite !finite_ltb; apply Qlt_trans);
    repeat match goal with b : bool |- _ => destruct b end; done.
Qed.

Lemma float_eqb_ltb_l x y z :
  float_eqb x y = true → float_ltb x z = float_ltb y z.
Proof.
  destruct x as [a|b|], y as [a'|b'|], z as [a''|b''|]; try done.
  - rewrite finite_eqb. intros H. apply eq_true_iff_eq.
    rewrite !finite_ltb. by rewrite H.
  - by destruct b, b'.
  - by destruct b, b', b''.
Qed.

Lemma float_eqb_ltb_r x y z :
  float_eqb x y = true → float_ltb z x = float_ltb z y.
Proof.
  destruct x as [a|b|], y as [a'|b'|], z as [a''|b''|]; try done.
  - rewrite finite_eqb. intros H. apply eq_true_iff_eq.
    rewrite !finite_ltb. by rewrite H.
  - by destruct b, b'.
  - by destruct b, b', b''.
Qed.

Lemma float_eqb_eqb_l x y z :
  float_eqb x y = true → float_eqb x z = float_eqb y z.
Proof.
  intros H. apply eq_true_iff_eq. split; intros Hz.
  - eapply float_eqb_trans; [|exact Hz]. by rewrite float_eqb_sym.
  - eapply float_eqb_trans; [exact H|exact Hz].
Qed.

Lemma float_eqb_not_ltb x y : float_eqb x y = true → float_ltb x y = false.
Proof.
  intros H. rewrite (float_eqb_ltb_l x y y H). apply float_ltb_irrefl.
Qed.

Lemma float_ltb_asym x y : float_ltb x y = true → float_ltb y x = false.
Proof.
  intros H. apply not_true_is_false. intros H'.
  pose proof (float_ltb_trans _ _ _ H H') as Hxx.
  by rewrite float_ltb_irrefl in Hxx.
Qed.

(** Floats other than [nan] are totally ordered. *)
Lemma float_trichotomy x y :
  x ≠ nan → y ≠ nan →
  float_ltb x y = true ∨ float_eqb x y = true ∨ float_ltb y x = true.
Proof.
  destruct x as [a|b|], y as [a'|b'|]; try done; intros _ _.
  - rewrite !finite_ltb, finite_eqb.
    destruct (Q_dec a a') as [[H|H]|H]; [by left|right; by right|right; by left].
  - destruct b'; [right; by right|by left].
  - destruct b; [by left|right; by right].
  - destruct b, b'; [right; by left|by left|right; by right|right; by left].
Qed.

(** Multiplying by a coefficient that is not zero keeps a float that is
    not [nan] so. *)
Lemma float_mul_not_nan x c : ¬ (c == 0)%Q → x ≠ nan → float_mul x c ≠ nan.
Proof.
  intros Hc. destruct x as [a|b|]; [done| |done]. intros _. simpl.
  destruct (c ?= 0)%Q eqn:Hcmp; [|done|done].
  by apply Qeq_alt in Hcmp.
Qed.

(** ** The tuple order

    [<] on tuples is a strict order; on tuples whose score is not [nan]
    it is total up to [==]. *)

Lemma str_ltb_leb s1 s2 : String.ltb s1 s2 = negb (String.leb s2 s1).
Proof.
  unfold String.ltb, String.leb. rewrite (String.compare_antisym s1 s2).
  destruct (s2 ?= s1)%string; reflexivity.
Qed.

Lemma str_leb_refl s : String.leb s s = true.
Proof. apply Is_true_true. change (String.le s s). reflexivity. Qed.

Lemma str_leb_trans s1 s2 s3 :
  String.leb s1 s2 = true → String.leb s2 s3 = true → String.leb s1 s3 = true.
Proof.
  intros H1%Is_true_true H2%Is_true_true. apply Is_true_true.
  change (String.le s1 s3). etrans; eassumption.
Qed.

Lemma str_leb_antisym s1 s2 :
  String.leb s1 s2 = true → String.leb s2 s1 = true → s1 = s2.
Proof. apply String.leb_antisym. Qed.

Lemma str_ltb_irrefl s : String.ltb s s = false.
Proof. by rewrite str_ltb_leb, str_leb_refl. Qed.

Lemma str_ltb_trans s1 s2 s3 :
  String.ltb s1 s2 = true → String.ltb s2 s3 = true → String.ltb s1 s3 = true.
Proof.
  rewrite !str_ltb_leb, !negb_true_iff. intros H1 H2.
  apply not_true_is_false. intros H3.
  destruct (String.leb_total s2 s3) as [H|H]; [|congruence].
  pose proof (str_leb_trans _ _ _ H H3). congruence.
Qed.

Lemma str_trichotomy s1 s2 :
  String.ltb s1 s2 = true ∨ s1 = s2 ∨ String.ltb s2 s1 = true.
Proof.
  rewrite !str_ltb_leb, !negb_true_iff.
  destruct (String.leb s2 s1) eqn:H21; [|by left].
  destruct (String.leb s1 s2) eqn:H12; [|right; by right].
  right. left. by apply str_leb_antisym.
Qed.

(** [a < b] on tuples is the lexicographic order: by score, then by
    epoch, then by path. *)
Lemma tuple_ltb_spec (a b : item) :
  tuple_ltb a b = true ↔
  float_lt (item_score a) (item_score b)
  ∨ (float_eq (item_score a) (item_score b)
     ∧ (item_epoch a < item_epoch b
        ∨ (item_epoch a = item_epoch b
           ∧ String.ltb (item_path a) (item_path b) = true))).
Proof.
  destruct a as [[s1 e1] p1], b as [[s2 e2] p2].
  unfold tuple_ltb, float_lt, float_eq, item_score, item_epoch, item_path; simpl.
  destruct (float_eqb s1 s2) eqn:Hs; simpl.
  - pose proof (float_eqb_not_ltb _ _ Hs) as Hn.
    destruct (Z.eqb_spec e1 e2) as [->|He]; simpl.
    + destruct (String.eqb_spec p1 p2) as [->|Hp]; simpl.
      * split; [done|]. intros [H|[_ [H|[_ H]]]]; [congruence|lia|].
        by rewrite str_ltb_irrefl in H.
      * split; [intros H; right; split; [done|]; by right|].
        intros [H|[_ [H|[_ H]]]]; [congruence|lia|done].
    + rewrite Z.ltb_lt. split; [intros H; right; split; [done|]; by left|].
      intros [H|[_ [H|[H _]]]]; [congruence|done|done].
  - split; [by left|]. by intros [H|[H _]].
Qed.

(** A tuple that compares [<] with another has a score, and so has the
    other. *)
Lemma tuple_ltb_not_nan a b : tuple_ltb a b = true → not_nan a ∧ not_nan b.
Proof.
  intros [H|[H _]]%tuple_ltb_spec.
  - by apply float_ltb_not_nan in H.
  - by apply float_eqb_not_nan in H.
Qed.

Lemma tuple_ltb_irrefl a : tuple_ltb a a = false.
Proof.
  apply not_true_is_false. intros [H|[_ [H|[_ H]]]]%tuple_ltb_spec.
  - unfold float_lt in H. by rewrite float_ltb_irrefl in H.
  - lia.
  - by rewrite str_ltb_irrefl in H.
Qed.

Lemma tuple_ltb_trans a b c :
  tuple_ltb a b = true → tuple_ltb b c = true → tuple_ltb a c = true.
Proof.
  rewrite !tuple_ltb_spec. unfold float_lt, float_eq.
  intros [H1|[H1 H1']] [H2|[H2 H2']].
  - left. by eapply float_ltb_trans.
  - left. by rewrite <- (float_eqb_ltb_r _ _ _ H2).
  - left. by rewrite (float_eqb_ltb_l _ _ _ H1).
  - right. split; [by eapply float_eqb_trans|].
    destruct H1' as [?|[? ?]], H2' as [?|[? ?]]; [left; lia..|].
    right. split; [lia|]. by eapply str_ltb_trans.
Qed.

Lemma tuple_ltb_asym a b : tuple_ltb a b = true → tuple_ltb b a = false.
Proof.
  intros H. apply not_true_is_false. intros H'.
  pose proof (tuple_ltb_trans _ _ _ H H') as Haa.
  by rewrite tuple_ltb_irrefl in Haa.
Qed.

(** Tuples whose scores are not [nan] are totally ordered. *)
Lemma tuple_trichotomy a b :
  not_nan a → not_nan b →
  tuple_ltb a b = true ∨ tuple_eqb a b = true ∨ tuple_ltb b a = true.
Proof.
  intros Ha Hb. rewrite !tuple_ltb_spec.
  destruct a as [[s1 e1] p1], b as [[s2 e2] p2].
  unfold not_nan, tuple_eqb, float_lt, float_eq, item_score, item_epoch,
    item_path in *; simpl in *.
  destruct (float_trichotomy s1 s2 Ha Hb) as [H|[H|H]];
    [left; by left| |right; right; by left].
  assert (float_eqb s2 s1 = true) as H' by (by rewrite float_eqb_sym).
  rewrite H. destruct (Z.lt_trichotomy e1 e2) as [He|[->|He]].
  - left. right. split; [done|]. by left.
  - rewrite Z.eqb_refl. destruct (str_trichotomy p1 p2) as [Hp|[->|Hp]].
    + left. right. split; [done|]. by right.
    + right. left. by rewrite String.eqb_refl.
    + right. right. right. split; [done|]. by right.
  - right. right. right. split; [done|]. by left.
Qed.

Lemma tuple_eqb_eq a b :
  tuple_eqb a b = true ↔
  float_eq (item_score a) (item_score b) ∧ item_epoch a = item_epoch b
  ∧ item_path a = item_path b.
Proof.
  destruct a as [[s1 e1] p1], b as [[s2 e2] p2].
  unfold tuple_eqb, float_eq, item_score, item_epoch, item_path; simpl.
  rewrite !andb_true_iff, Z.eqb_eq, String.eqb_eq. tauto.
Qed.

(** A tuple is [==] to itself unless its score is [nan]. *)
Lemma tuple_eqb_refl a : not_nan a → tuple_eqb a a = true.
Proof.
  intros Ha. apply tuple_eqb_eq. split; [by apply float_eqb_refl|done].
Qed.

Lemma tuple_eqb_nan a b : item_score a = nan → tuple_eqb a b = false.
Proof.
  intros Ha. apply not_true_is_false. intros [H _]%tuple_eqb_eq.
  apply float_eqb_not_nan in H as [H _]. done.
Qed.

(** Tuples that are [==] are not [<]. *)
Lemma tuple_ltb_eqb a b : tuple_ltb a b = true → tuple_eqb a b = false.
Proof.
  destruct a as [[s1 e1] p1], b as [[s2 e2] p2]. unfold tuple_ltb, tuple_eqb.
  destruct (float_eqb s1 s2); simpl; [|done].
  destruct (e1 =? e2); simpl; [|done].
  destruct (String.eqb p1 p2); simpl; done.
Qed.

(** [<] does not tell tuples that are [==] apart. *)
Lemma tuple_eqb_ltb_l a b c :
  tuple_eqb a b = true → tuple_ltb a c = tuple_ltb b c.
Proof.
  intros (Hs & He & Hp)%tuple_eqb_eq.
  destruct a as [[s1 e1] p1], b as [[s2 e2] p2], c as [[s3 e3] p3].
  unfold float_eq, item_score, item_epoch, item_path in *; simpl in *. subst.
  unfold tuple_ltb.
  by rewrite (float_eqb_eqb_l _ _ _ Hs), (float_eqb_ltb_l _ _ _ Hs).
Qed.

Lemma tuple_le_refl a : tuple_le a a.
Proof. apply tuple_ltb_irrefl. Qed.

Lemma tuple_ltb_le a b : tuple_ltb a b = true → tuple_le a b.
Proof. apply tuple_ltb_asym. Qed.

Lemma tuple_le_total a b : tuple_le a b ∨ tuple_le b a.
Proof.
  destruct (tuple_ltb b a) eqn:H; [right; by apply tuple_ltb_le|by left].
Qed.

(** [<=] is transitive through a tuple whose score is not [nan]. *)
Lemma tuple_le_trans a b c :
  not_nan b → tuple_le a b → tuple_le b c → tuple_le a c.
Proof.
  unfold tuple_le. intros Hb Hab Hbc. apply not_true_is_false. intros Hca.
  destruct (tuple_ltb_not_nan _ _ Hca) as [_ Ha].
  destruct (tuple_trichotomy a b Ha Hb) as [H|[H|H]]; [| |congruence].
  - pose proof (tuple_ltb_trans _ _ _ Hca H). congruence.
  - pose proof (tuple_ltb_asym _ _ Hca) as Hac.
    assert (tuple_ltb c b = true); [|congruence].
    destruct (tuple_ltb_not_nan _ _ Hca) as [Hc _].
    destruct (tuple_trichotomy c b Hc Hb) as [H'|[H'|H']]; [done| |].
    + apply tuple_eqb_eq in H as (Hs & He & Hp).
      apply tuple_eqb_eq in H' as (Hs' & He' & Hp').
      assert (tuple_eqb c a = true) as Heq.
      { apply tuple_eqb_eq. unfold float_eq in *.
        split; [|split; congruence].
        eapply float_eqb_trans; [exact Hs'|]. by rewrite float_eqb_sym. }
      apply tuple_ltb_eqb in Hca. congruence.
    + rewrite <- (tuple_eqb_ltb_l _ _ _ H) in H'. congruence.
Qed.

(** An item below one that is above another is above it too. *)
Lemma tuple_ltb_le_le x b s :
  tuple_ltb x b = true → tuple_le b s → tuple_le x s.
Proof.
  unfold tuple_le. intros Hxb Hbs. apply not_true_is_false. intros Hsx.
  pose proof (tuple_ltb_trans _ _ _ Hsx Hxb). congruence.
Qed.

Lemma tuple_ltb_le_trans a b c :
  not_nan a → tuple_le a b → tuple_ltb b c = true → tuple_ltb a c = true.
Proof.
  unfold tuple_le. intros Ha Hab Hbc.
  destruct (tuple_ltb_not_nan _ _ Hbc) as [Hb _].
  destruct (tuple_trichotomy a b Ha Hb) as [H|[H|H]]; [| |congruence].
  - by eapply tuple_ltb_trans.
  - by rewrite (tuple_eqb_ltb_l _ _ _ H).
Qed.

(** Two tuples below each other are the same checkpoint. *)
Lemma tuple_le_antisym a b :
  not_nan a → not_nan b → tuple_le a b → tuple_le b a →
  float_eq (item_score a) (item_score b) ∧ item_epoch a = item_epoch b
  ∧ item_path a = item_path b.
Proof.
  unfold tuple_le. intros Ha Hb Hab Hba.
  destruct (tuple_trichotomy a b Ha Hb) as [H|[H|H]]; [congruence| |congruence].
  by apply tuple_eqb_eq.
Qed.

(** ** [in] and [startswith] on strings *)

Lemma startswith_spec s p : startswith s p = true ↔ ∃ b, s = p +:+ b.
Proof.
  unfold startswith. revert s. induction p as [|a p IH]; intros s.
  - split; [intros _; by exists s|intros _; by destruct s].
  - destruct s as [|c s]; simpl.
    + split; [done|]. by intros [b [=]].
    + destruct (ascii_dec a c) as [->|Hne].
      * rewrite IH. split; intros [b Hb]; exists b; [by rewrite Hb|].
        by injection Hb.
      * split; [done|]. intros [b Hb]. by injection Hb.
Qed.

Lemma str_contains_spec sub s :
  str_contains sub s = true ↔ ∃ a b, s = a +:+ sub +:+ b.
Proof.
  induction s as [|c s IH]; cbn [str_contains].
  - change (String.prefix sub EmptyString) with (startswith EmptyString sub).
    rewrite orb_false_r. split.
    + intros [b Hb]%startswith_spec. by exists EmptyString, b.
    + intros (a & b & Hs). apply startswith_spec.
      destruct a; [by exists b|done].
  - change (String.prefix sub (String c s)) with (startswith (String c s) sub).
    rewrite orb_true_iff, IH. split.
    + intros [[b Hb]%startswith_spec|(a & b & ->)].
      * by exists EmptyString, b.
      * by exists (String c a), b.
    + intros (a & b & Hs). destruct a as [|c' a].
      * left. apply startswith_spec. by exists b.
      * right. exists a, b. by injection Hs.
Qed.

(** ** heapq keeps the heap invariant and the contents *)

Section HeapFacts.
Local Open Scope nat_scope.
Implicit Types (h : list item) (x y : item) (i j pos : nat).

Lemma parent_lt i : 0 < i → (i - 1) / 2 < i.
Proof. intros. apply Nat.Div0.div_lt_upper_bound. lia. Qed.

Lemma parent_spec i p : 0 < i → (i - 1) / 2 = p ↔ i = 2 * p + 1 ∨ i = 2 * p + 2.
Proof.
  intros Hi. pose proof (Nat.div_mod_eq (i - 1) 2) as Hd.
  pose proof (Nat.mod_upper_bound (i - 1) 2). lia.
Qed.

Lemma insert_cons_perm {A} (l : list A) j (x y : A) :
  j < length l → x :: <[j:=y]> l ≡ₚ y :: <[j:=x]> l.
Proof.
  revert j. induction l as [|a l IH]; intros [|j] Hj; simpl in *; try lia.
  - apply perm_swap.
  - rewrite (perm_swap a x), (perm_swap a y). f_equiv. apply IH. lia.
Qed.

Lemma insert_swap_perm {A} (l : list A) i j (x y : A) :
  i ≠ j → i < length l → j < length l →
  <[i:=x]> (<[j:=y]> l) ≡ₚ <[j:=x]> (<[i:=y]> l).
Proof.
  revert i j. induction l as [|a l IH]; intros [|i] [|j] Hij Hi Hj;
    simpl in *; try lia.
  - by apply insert_cons_perm; lia.
  - symmetry. by apply insert_cons_perm; lia.
  - f_equiv. apply IH; lia.
Qed.

(** Moving [l[j]] into the hole [i] and filling [j] with [x] holds the
    same items as filling the hole [i] with [x]. *)
Lemma insert_move_perm h i j x :
  i ≠ j → i < length h → j < length h →
  <[j:=x]> (<[i:=h !!! j]> h) ≡ₚ <[i:=x]> h.
Proof.
  intros Hij Hi Hj.
  rewrite <- (list_insert_id h j (h !!! j)) at 3
    by (by apply list_lookup_lookup_total_lt).
  by apply insert_swap_perm.
Qed.

(** *** [_siftdown] *)

Lemma siftdown_loop_length n h start pos x :
  length (heapq._siftdown_loop n h start pos x) = length h.
Proof.
  revert h pos. induction n as [|n IH]; intros h pos; cbn [heapq._siftdown_loop].
  - by rewrite length_insert.
  - destruct (start <? pos); [|by rewrite length_insert].
    destruct (tuple_ltb _ _); [|by rewrite length_insert].
    by rewrite IH, length_insert.
Qed.

Lemma siftdown_loop_perm n h start pos x :
  pos < length h → heapq._siftdown_loop n h start pos x ≡ₚ <[pos:=x]> h.
Proof.
  revert h pos. induction n as [|n IH]; intros h pos Hpos;
    cbn [heapq._siftdown_loop]; [done|].
  destruct (Nat.ltb_spec start pos) as [H0|H0]; [|done].
  destruct (tuple_ltb _ _); [|done].
  pose proof (parent_lt pos ltac:(lia)).
  rewrite IH by (rewrite length_insert; lia).
  apply insert_move_perm; lia.
Qed.

Lemma heap_hole_fill h pos x :
  heap_hole h pos x →
  (0 < pos → tuple_le (h !!! ((pos - 1) / 2)) x) →
  is_heap (<[pos:=x]> h).
Proof.
  intros (Hpos & Hrest & Hch) Hpar i. rewrite length_insert. intros Hi.
  pose proof (parent_lt i ltac:(lia)).
  destruct (decide (i = pos)) as [->|Hne].
  - rewrite list_lookup_total_insert_eq by done.
    rewrite list_lookup_total_insert_ne by lia. apply Hpar; lia.
  - rewrite (list_lookup_total_insert_ne _ pos i) by done.
    destruct (decide ((i - 1) / 2 = pos)) as [Hp|Hp].
    + rewrite Hp, list_lookup_total_insert_eq by done. by apply Hch.
    + rewrite list_lookup_total_insert_ne by done. by apply Hrest.
Qed.

Lemma siftdown_loop_heap n h pos x :
  pos ≤ n → heap_hole h pos x → is_heap (heapq._siftdown_loop n h 0 pos x).
Proof.
  revert h pos. induction n as [|n IH]; intros h pos Hn Hh; cbn [heapq._siftdown_loop].
  { apply heap_hole_fill; [done|lia]. }
  destruct (Nat.ltb_spec 0 pos) as [H0|H0]; [|apply heap_hole_fill; [done|lia]].
  pose proof (parent_lt pos H0) as Hpp.
  destruct (tuple_ltb x _) eqn:Hlt; [|by apply heap_hole_fill].
  destruct (tuple_ltb_not_nan _ _ Hlt) as [_ Hparent].
  pose proof (tuple_ltb_le _ _ Hlt) as Hle.
  destruct Hh as (Hpos & Hrest & Hch).
  apply IH; [lia|]. set (pp := (pos - 1) / 2) in *.
  split; [rewrite length_insert; lia|]. split.
  - intros i. rewrite length_insert. intros Hi Hipp Hp.
    assert (i ≠ pos) as Hipos by (intros ->; by apply Hp).
    rewrite (list_lookup_total_insert_ne _ pos i) by done.
    destruct (decide ((i - 1) / 2 = pos)) as [Hip|Hip].
    + rewrite Hip, list_lookup_total_insert_eq by done.
      apply Hch; [lia|done|done].
    + rewrite list_lookup_total_insert_ne by done. by apply Hrest.
  - intros c. rewrite length_insert. intros Hc Hcp.
    pose proof (parent_lt pp) as Hppp.
    assert (0 < pp → tuple_le (h !!! ((pp - 1) / 2)) (h !!! pp)) as Hup.
    { intros. apply Hrest; lia. }
    destruct (decide (c = pos)) as [->|Hcpos].
    + rewrite list_lookup_total_insert_eq by done. split; [done|].
      intros. rewrite list_lookup_total_insert_ne by lia. by apply Hup.
    + rewrite (list_lookup_total_insert_ne _ pos c) by done.
      assert (tuple_le (h !!! pp) (h !!! c)) as Hpc.
      { rewrite <- Hcp. apply Hrest; [lia|done|lia]. }
      split; [by eapply tuple_ltb_le_le|].
      intros. rewrite list_lookup_total_insert_ne by lia.
      eapply tuple_le_trans; [exact Hparent|by apply Hup|done].
Qed.

Lemma siftdown_heap h pos :
  heap_hole h pos (h !!! pos) → is_heap (heapq._siftdown h 0 pos).
Proof. intros. by apply siftdown_loop_heap. Qed.

Lemma siftdown_perm h start pos :
  pos < length h → heapq._siftdown h start pos ≡ₚ h.
Proof.
  intros. unfold heapq._siftdown. rewrite siftdown_loop_perm by done.
  by rewrite list_insert_id by (by apply list_lookup_lookup_total_lt).
Qed.

(** *** [_siftup] *)

(** The child the loop picks is in range, is a child of [pos] and is
    below the other child. *)
Lemma smaller_child h pos :
  2 * pos + 1 < length h →
  let rightpos := 2 * pos + 1 + 1 in
  let c := if (rightpos <? length h)
              && negb (tuple_ltb (h !!! (2 * pos + 1)) (h !!! rightpos))
           then rightpos else 2 * pos + 1 in
  pos < c < length h ∧ (c - 1) / 2 = pos
  ∧ ∀ d, 0 < d < length h → (d - 1) / 2 = pos → tuple_le (h !!! c) (h !!! d).
Proof.
  intros Hl rightpos c.
  assert (∀ d, 0 < d → (d - 1) / 2 = pos → d = 2 * pos + 1 ∨ d = rightpos) as Hd.
  { intros d ? ?%parent_spec; [|done]. unfold rightpos. lia. }
  subst c. destruct (Nat.ltb_spec rightpos (length h)) as [Hr|Hr]; simpl.
  - destruct (tuple_ltb _ _) eqn:Hlt; simpl.
    + split; [lia|]. split; [apply parent_spec; lia|].
      intros d [? ?] [->| ->]%Hd; [apply tuple_le_refl|by apply tuple_ltb_le|done].
    + split; [unfold rightpos; lia|]. split; [apply parent_spec; unfold rightpos; lia|].
      intros d [? ?] [->| ->]%Hd; [done|apply tuple_le_refl|done].
  - split; [lia|]. split; [apply parent_spec; lia|].
    intros d [? ?] [->| ->]%Hd; [apply tuple_le_refl|lia|done].
Qed.

Lemma siftup_loop_spec n h pos h' pos' :
  hole_down h pos →
  length h ≤ n + pos →
  heapq._siftup_loop n h pos (2 * pos + 1) (length h) = (h', pos') →
  hole_down h' pos' ∧ length h' = length h ∧ length h ≤ 2 * pos' + 1
  ∧ ∀ x, <[pos':=x]> h' ≡ₚ <[pos:=x]> h.
Proof.
  revert h pos. induction n as [|n IH]; intros h pos Hh Hn;
    cbn [heapq._siftup_loop].
  { destruct Hh as [? _]. lia. }
  destruct (Nat.ltb_spec (2 * pos + 1) (length h)) as [Hc|Hc].
  2:{ intros [= <- <-]. done. }
  destruct (smaller_child h pos Hc) as ([Hposc Hcl] & Hcp & Hcmin).
  set (c := if (2 * pos + 1 + 1 <? length h) && _ then 2 * pos + 1 + 1 else 2 * pos + 1) in *.
  destruct Hh as (Hpos & Hrest & Hgrand).
  pose proof (parent_lt c) as Hpc.
  set (h1 := <[pos:=h !!! c]> h).
  assert (length h1 = length h) as Hl1 by apply length_insert.
  rewrite <- Hl1. intros Hloop.
  apply IH in Hloop as (Hh' & Hlen' & Hleaf & Hperm); [| |lia].
  - split; [done|]. split; [lia|]. split; [lia|].
    intros x. rewrite Hperm. apply insert_move_perm; lia.
  - split; [lia|]. split.
    + intros i. rewrite Hl1. intros Hi Hic. unfold h1.
      pose proof (parent_lt i ltac:(lia)).
      destruct (decide (i = pos)) as [->|Hipos].
      * rewrite list_lookup_total_insert_eq by done.
        rewrite list_lookup_total_insert_ne by lia.
        apply Hgrand; [lia|done|lia].
      * rewrite (list_lookup_total_insert_ne _ pos i) by done.
        destruct (decide ((i - 1) / 2 = pos)) as [Hip|Hip].
        -- rewrite Hip, list_lookup_total_insert_eq by done. by apply Hcmin.
        -- rewrite list_lookup_total_insert_ne by done. by apply Hrest.
    + intros d. rewrite Hl1. intros Hd Hdc _. unfold h1.
      pose proof (parent_lt d ltac:(lia)).
      rewrite Hcp, list_lookup_total_insert_eq by done.
      rewrite list_lookup_total_insert_ne by lia.
      rewrite <- Hdc. apply Hrest; [done|lia].
Qed.

Lemma siftup_loop_length n h pos c e :
  length (heapq._siftup_loop n h pos c e).1 = length h.
Proof.
  revert h pos c. induction n as [|n IH]; intros h pos c;
    cbn [heapq._siftup_loop]; [done|].
  destruct (c <? e); [|done]. by rewrite IH, length_insert.
Qed.

Lemma siftup_length h pos : length (heapq._siftup h pos) = length h.
Proof.
  unfold heapq._siftup.
  pose proof (siftup_loop_length (length h) h pos (2 * pos + 1) (length h)) as Hl.
  destruct (heapq._siftup_loop _ _ _ _ _) as [h' pos'].
  unfold heapq._siftdown. by rewrite siftdown_loop_length, length_insert.
Qed.

Lemma siftup_loop_perm n h pos x :
  pos < length h →
  let r := heapq._siftup_loop n h pos (2 * pos + 1) (length h) in
  r.2 < length h ∧ <[r.2:=x]> r.1 ≡ₚ <[pos:=x]> h.
Proof.
  revert h pos. induction n as [|n IH]; intros h pos Hpos;
    cbn [heapq._siftup_loop]; [done|].
  destruct (Nat.ltb_spec (2 * pos + 1) (length h)) as [Hc|Hc]; [|done].
  destruct (smaller_child h pos Hc) as ([Hposc Hcl] & _ & _).
  set (c := if (2 * pos + 1 + 1 <? length h) && _ then 2 * pos + 1 + 1 else 2 * pos + 1) in *.
  set (h1 := <[pos:=h !!! c]> h).
  assert (length h1 = length h) as Hl1 by apply length_insert.
  rewrite <- Hl1. destruct (IH h1 c ltac:(lia)) as [Hlt Hperm].
  split; [done|]. rewrite Hperm. apply insert_move_perm; lia.
Qed.

Lemma siftup_perm h pos : pos < length h → heapq._siftup h pos ≡ₚ h.
Proof.
  intros Hpos. unfold heapq._siftup.
  pose proof (siftup_loop_perm (length h) h pos (h !!! pos) Hpos) as Hloop.
  pose proof (siftup_loop_length (length h) h pos (2 * pos + 1) (length h)) as Hl.
  destruct (heapq._siftup_loop _ _ _ _ _) as [h' pos']. simpl in Hloop, Hl.
  destruct Hloop as [Hpos' Hperm].
  rewrite siftdown_perm by (rewrite length_insert; lia).
  rewrite Hperm.
  by rewrite list_insert_id by (by apply list_lookup_lookup_total_lt).
Qed.

(** [_siftup] at the root repairs a heap whose root was overwritten. *)
Lemma siftup_root h :
  0 < length h →
  (∀ i, 0 < i < length h → (i - 1) / 2 ≠ 0 →
     tuple_le (h !!! ((i - 1) / 2)) (h !!! i)) →
  is_heap (heapq._siftup h 0) ∧ heapq._siftup h 0 ≡ₚ h.
Proof.
  intros Hl Hrest. unfold heapq._siftup.
  destruct (heapq._siftup_loop _ _ _ _ _) as [h' pos'] eqn:Hloop.
  apply (siftup_loop_spec _ h 0 h' pos') in Hloop
    as ((Hpos' & Hrest' & Hgrand') & Hlen' & Hleaf & Hperm); [| |lia].
  2:{ split; [done|]. split; [done|]. intros; lia. }
  split.
  - apply siftdown_heap.
    rewrite list_lookup_total_insert_eq by done.
    split; [by rewrite length_insert|]. split.
    + intros i. rewrite length_insert. intros Hi Hipos Hp.
      rewrite !list_lookup_total_insert_ne by done. by apply Hrest'.
    + intros c. rewrite length_insert. intros Hc Hcp.
      apply parent_spec in Hcp; lia.
  - rewrite siftdown_perm by (by rewrite length_insert).
    rewrite Hperm.
    by rewrite list_insert_id by (by apply list_lookup_lookup_total_lt).
Qed.

(** *** [heappush] and [heappushpop] *)

Lemma heappush_length h x : length (heapq.heappush h x) = S (length h).
Proof.
  unfold heapq.heappush, heapq._siftdown.
  rewrite siftdown_loop_length, length_app. simpl. lia.
Qed.

Lemma heappush_perm h x : heapq.heappush h x ≡ₚ x :: h.
Proof.
  unfold heapq.heappush. rewrite siftdown_perm.
  - by rewrite Permutation_app_comm.
  - rewrite length_app. simpl. lia.
Qed.

Lemma heappush_heap h x : is_heap h → is_heap (heapq.heappush h x).
Proof.
  intros Hh. unfold heapq.heappush.
  assert (length (h ++ [x]) - 1 = length h) as ->
    by (rewrite length_app; simpl; lia).
  apply siftdown_heap. unfold heap_hole. rewrite length_app. cbn [length].
  split; [lia|]. split.
  - intros i Hi Hne _. pose proof (parent_lt i ltac:(lia)).
    rewrite !lookup_total_app_l by lia. apply Hh. lia.
  - intros c Hc Hcp. apply parent_spec in Hcp; lia.
Qed.

Lemma heappushpop_replace top rest x :
  tuple_ltb top x = true → is_heap (top :: rest) →
  ∃ h', heapq.heappushpop (top :: rest) x = (h', top)
        ∧ is_heap h' ∧ h' ≡ₚ x :: rest.
Proof.
  intros Hlt Hh. unfold heapq.heappushpop. rewrite Hlt.
  eexists. split; [done|].
  apply (siftup_root (x :: rest)); simpl; [lia|].
  intros i Hi Hp. pose proof (parent_lt i ltac:(lia)).
  specialize (Hh i ltac:(simpl; lia)).
  destruct i as [|i]; [lia|].
  rewrite !lookup_total_cons_ne_0 in * by done. done.
Qed.

Lemma heappushpop_perm top rest x :
  tuple_ltb top x = true →
  (heapq.heappushpop (top :: rest) x).1 ≡ₚ x :: rest
  ∧ (heapq.heappushpop (top :: rest) x).2 = top.
Proof.
  intros Hlt. unfold heapq.heappushpop. rewrite Hlt. split; [|done].
  apply (siftup_perm (x :: rest)). simpl. lia.
Qed.

(** The root of a heap without [nan] is a minimum. *)
Lemma heap_root_min h i y :
  Forall not_nan h → is_heap h → h !! i = Some y → tuple_le (h !!! 0) y.
Proof.
  intros Hnan Hh. revert y. induction (lt_wf i) as [i _ IH]. intros y Hy.
  pose proof (lookup_lt_Some _ _ _ Hy) as Hi.
  apply list_lookup_total_correct in Hy as <-.
  destruct (decide (i = 0)) as [->|Hi0]; [apply tuple_le_refl|].
  pose proof (parent_lt i ltac:(lia)).
  eapply (tuple_le_trans _ (h !!! ((i - 1) / 2))); [|  |apply Hh; lia].
  - apply Forall_lookup_total_1; [done|lia].
  - apply (IH ((i - 1) / 2)); [done|]. apply list_lookup_lookup_total_lt. lia.
Qed.

Lemma heap_root_minimum top rest :
  Forall not_nan (top :: rest) → is_heap (top :: rest) →
  is_minimum top (top :: rest).
Proof.
  intros Hnan Hh. split; [by left|].
  intros y [i Hi]%list_elem_of_lookup.
  by apply (heap_root_min _ i y Hnan Hh).
Qed.

(** A minimum and the root of a heap are the same checkpoint. *)
Lemma minimum_root top rest m :
  Forall not_nan (top :: rest) → is_heap (top :: rest) →
  is_minimum m (top :: rest) →
  tuple_le m top ∧ tuple_le top m.
Proof.
  intros Hnan Hh [Hm Hmin].
  destruct (heap_root_minimum _ _ Hnan Hh) as [_ Htop].
  split; [apply Hmin; by left|by apply Htop].
Qed.

(** *** The root after [heappushpop] *)

Lemma siftdown_loop_root n h pos x :
  pos < length h →
  heapq._siftdown_loop n h 0 pos x !!! 0 = x
  ∨ (0 < pos ∧ heapq._siftdown_loop n h 0 pos x !!! 0 = h !!! 0).
Proof.
  assert (∀ h pos, pos < length h →
            <[pos:=x]> h !!! 0 = x ∨ (0 < pos ∧ <[pos:=x]> h !!! 0 = h !!! 0))
    as Hfill.
  { intros h' pos' Hpos'. destruct (decide (pos' = 0)) as [->|Hne].
    - left. by rewrite list_lookup_total_insert_eq.
    - right. split; [lia|]. by rewrite list_lookup_total_insert_ne. }
  revert h pos. induction n as [|n IH]; intros h pos Hpos;
    cbn [heapq._siftdown_loop]; [by apply Hfill|].
  destruct (Nat.ltb_spec 0 pos) as [H0|H0]; [|by apply Hfill].
  destruct (tuple_ltb x _); [|by apply Hfill].
  pose proof (parent_lt pos H0).
  destruct (IH (<[pos:=h !!! ((pos - 1) / 2)]> h) ((pos - 1) / 2))
    as [Hx|[_ Hh]]; [rewrite length_insert; lia|by left|].
  right. split; [done|]. rewrite Hh. apply list_lookup_total_insert_ne. lia.
Qed.

(** The first loop of [_siftup] writes at [pos] and below it. *)
Lemma siftup_loop_above n h pos c e i :
  i < pos → pos < c → (heapq._siftup_loop n h pos c e).1 !!! i = h !!! i.
Proof.
  revert h pos c. induction n as [|n IH]; intros h pos c Hi Hc;
    cbn [heapq._siftup_loop]; [done|].
  destruct (c <? e); [|done].
  set (c' := if (c + 1 <? e) && _ then c + 1 else c).
  assert (c ≤ c') as Hc' by (subst c'; destruct (_ && _); lia).
  rewrite IH by lia. apply list_lookup_total_insert_ne. lia.
Qed.

(** The root [_siftup] leaves is the item it was given at the root or
    one of the children of the root. *)
Lemma siftup_root_item h :
  0 < length h →
  heapq._siftup h 0 !!! 0 = h !!! 0
  ∨ ∃ c, 0 < c < length h ∧ (c - 1) / 2 = 0 ∧ heapq._siftup h 0 !!! 0 = h !!! c.
Proof.
  intros Hl. unfold heapq._siftup.
  pose proof (siftup_loop_perm (length h) h 0 (h !!! 0) Hl) as [Hpos' _].
  pose proof (siftup_loop_length (length h) h 0 (2 * 0 + 1) (length h)) as Hlen.
  assert (∃ r, heapq._siftup_loop (length h) h 0 (2 * 0 + 1) (length h) = r
               ∧ (0 < r.2 → ∃ c, 0 < c < length h ∧ (c - 1) / 2 = 0
                                  ∧ r.1 !!! 0 = h !!! c)) as (r & Hr & Hroot).
  { eexists. split; [done|].
    destruct (length h) as [|n] eqn:Hn; [lia|]. cbn [heapq._siftup_loop].
    destruct (Nat.ltb_spec (2 * 0 + 1) (S n)) as [Hc|Hc]; [|simpl; lia].
    intros _. rewrite <- Hn in *.
    destruct (smaller_child h 0 Hc) as ([Hposc Hcl] & Hcp & _).
    set (c := if (2 * 0 + 1 + 1 <? length h) && _ then 2 * 0 + 1 + 1
              else 2 * 0 + 1) in *.
    exists c. split; [done|]. split; [done|].
    rewrite siftup_loop_above by lia.
    by rewrite list_lookup_total_insert_eq. }
  rewrite Hr in Hpos', Hlen |- *. destruct r as [h' pos']. simpl in *.
  unfold heapq._siftdown. rewrite list_lookup_total_insert_eq by lia.
  destruct (siftdown_loop_root pos' (<[pos':=h !!! 0]> h') pos' (h !!! 0))
    as [Hx|[H0 Hh]]; [rewrite length_insert; lia|by left|].
  right. destruct (Hroot H0) as (c & Hc & Hcp & Hrc).
  exists c. split; [done|]. split; [done|].
  rewrite Hh, list_lookup_total_insert_ne by lia. done.
Qed.

(** [heappushpop] never lowers the root. *)
Lemma heappushpop_root top rest x :
  tuple_ltb top x = true → is_heap (top :: rest) →
  tuple_le top ((heapq.heappushpop (top :: rest) x).1 !!! 0).
Proof.
  intros Hlt Hh. unfold heapq.heappushpop. rewrite Hlt. cbn [fst].
  change (<[0:=x]> (top :: rest)) with (x :: rest).
  destruct (siftup_root_item (x :: rest)) as [->|(c & Hc & Hcp & ->)];
    [simpl; lia|by apply tuple_ltb_le|].
  simpl in Hc. specialize (Hh c ltac:(simpl; lia)). rewrite Hcp in Hh.
  destruct c as [|c]; [lia|]. exact Hh.
Qed.

End HeapFacts.

(** ** One call of [on_epoch_end], case by case *)

Section Steps.

Variable format_field : string → Z → gmap string float → option string.

Lemma bind_modify {B} f (k : unit → M B) self :
  (modify f ≫= k) self = k tt (f self).
Proof.
  unfold mbind, M_bind, modify. by destruct (k tt (f self)) as [[? ?] ?].
Qed.

Lemma bind_get {B} (k : ModelCheckpointTopN → M B) self :
  (get ≫= k) self = k self self.
Proof.
  unfold mbind, M_bind, get. by destruct (k self self) as [[? ?] ?].
Qed.

Lemma bind_emit {B} e (k : unit → M B) self :
  (emit e ≫= k) self = let '(self', evs, r) := k tt self in (self', e :: evs, r).
Proof. done. Qed.

Lemma bind_run {A B} (m : M A) (k : A → M B) self self' evs x :
  m self = (self', evs, inr x) →
  (m ≫= k) self = let '(self'', evs', r) := k x self' in (self'', evs ++ evs', r).
Proof. intros Hm. unfold mbind, M_bind. by rewrite Hm. Qed.

Lemma model_persist_run path self :
  model_persist path self = (self, [persist_event self path], inr tt).
Proof.
  unfold model_persist, persist_event. rewrite (bind_get (B:=unit)).
  by destruct (save_weights_only self).
Qed.

(** The optional [print]: the object is untouched, no call on the file
    system is made, and it raises only on an empty tracker. *)
Lemma when_print_run b (f : list float → message) self :
  ∃ evs r,
    when b (__show_tracked ≫= λ tracked, emit (print (f tracked))) self
      = (self, evs, r)
    ∧ file_ops evs = []
    ∧ (tracker self ≠ [] → r = inr tt)
    ∧ (r = inr tt
       ∨ (tracker self = [] ∧ b = true ∧ evs = [] ∧ r = inl IndexError)).
Proof.
  destruct b; simpl.
  2:{ do 2 eexists. split; [done|]. split; [done|]. split; [done|by left]. }
  unfold mbind at 1. unfold M_bind at 1.
  unfold __show_tracked. rewrite bind_get.
  destruct (tracker self) eqn:Ht.
  - do 2 eexists. split; [done|]. split; [done|]. split; [done|by right].
  - do 2 eexists. split; [done|]. split; [done|]. split; [done|by left].
Qed.

Lemma set_tracker_same self h : tracker self = h → set_tracker h self = self.
Proof. intros <-. by destruct self. Qed.

Lemma file_ops_app evs evs' : file_ops (evs ++ evs') = file_ops evs ++ file_ops evs'.
Proof. apply List.filter_app. Qed.

Lemma file_ops_persist_event self path :
  file_ops [persist_event self path] = [persist_event self path].
Proof. unfold persist_event. by destruct (save_weights_only self). Qed.

Local Ltac run_print evs r Hw Hops Hr Hcases :=
  match goal with
  | |- context [(when ?b (__show_tracked ≫= λ tracked, emit (print (@?f tracked)))
                 ≫= _) ?s] =>
      destruct (when_print_run b f s) as (evs & r & Hw & Hops & Hr & Hcases)
  | |- context [when ?b (__show_tracked ≫= λ tracked, emit (print (@?f tracked))) ?s] =>
      destruct (when_print_run b f s) as (evs & r & Hw & Hops & Hr & Hcases)
  end.

(** The call when [heappushpop] hands the candidate back. *)
Lemma handed_back_step epoch logs self path current :
  let self0 := set_epochs_since_last_save 0 self in
  let cand := candidate self epoch current path in
  period self ≤ epochs_since_last_save self + 1 →
  str_format format_field (filepath self) (epoch + 1) logs = Some path →
  logs !! monitor self = Some current →
  n_models self ≤ Z.of_nat (length (tracker self)) →
  (∀ top, head (tracker self) = Some top → tuple_ltb top cand = false) →
  ∃ evs r,
    ((if negb (tuple_eqb cand cand)
      then
        when (0 <? verbose self)
          (tracked ← __show_tracked;
           emit (print (msg_discarded (epoch + 1) (item_epoch cand)
                          (monitor self) (float_mul (item_score cand) (coef self))
                          current path (item_path cand) tracked)));;
        emit (os_remove (item_path cand));;
        model_persist path
      else
        when (0 <? verbose self)
          (tracked ← __show_tracked;
           emit (print (msg_not_improved (epoch + 1) (monitor self)
                          current tracked)))) self0 = (self0, evs, r))
    ∧ step format_field self epoch logs self0 evs r.
Proof.
  intros self0 cand Hp Hf Hm Hn Htop.
  destruct (float_nan_dec (item_score cand)) as [Hnan|Hnn].
  - rewrite (tuple_eqb_nan _ _ Hnan). cbn [negb].
    run_print evs r Hw Hops Hr Hcases.
    destruct Hcases as [->|(Ht & Hv & -> & ->)].
    + rewrite (bind_run _ _ _ _ _ _ Hw), bind_emit, model_persist_run.
      do 2 eexists. split; [done|].
      eapply step_nan; eauto. left. split; [|done].
      rewrite file_ops_app, Hops.
      cbn [app file_ops List.filter is_file_op item_path snd cand candidate].
      change (persist_event self0 path) with (persist_event self path).
      by rewrite <- (file_ops_persist_event self path) at 2.
    + unfold mbind at 1. unfold M_bind at 1. rewrite Hw.
      do 2 eexists. split; [done|].
      eapply step_nan; eauto. right.
      split; [done|]. split; [by apply Z.ltb_lt|done].
  - rewrite tuple_eqb_refl by done. cbn [negb].
    run_print evs r Hw Hops Hr Hcases. rewrite Hw.
    do 2 eexists. split; [done|].
    eapply step_discard; eauto.
Qed.

Lemma on_epoch_end_step epoch logs self :
  ∃ self' evs r,
    on_epoch_end format_field epoch logs self = (self', evs, r)
    ∧ step format_field self epoch (default ∅ logs) self' evs r.
Proof.
  unfold on_epoch_end. rewrite bind_modify, bind_get.
  cbn [epochs_since_last_save set_epochs_since_last_save period].
  destruct (Z.leb_spec (period self) (epochs_since_last_save self + 1)) as [Hp|Hp].
  2:{ do 3 eexists. split; [done|]. by constructor. }
  rewrite bind_modify.
  change (set_epochs_since_last_save 0 (set_epochs_since_last_save _ self))
    with (set_epochs_since_last_save 0 self).
  cbn [filepath monitor n_models tracker coef verbose set_epochs_since_last_save].
  destruct (str_format _ _ _ _) as [path|] eqn:Hf.
  2:{ do 3 eexists. split; [done|]. by constructor. }
  destruct (default ∅ logs !! monitor self) as [current|] eqn:Hm.
  2:{ do 3 eexists. split; [done|]. by econstructor. }
  fold (candidate self epoch current path).
  set (self0 := set_epochs_since_last_save 0 self).
  set (cand := candidate self epoch current path).
  destruct (Z.leb_spec (n_models self) (Z.of_nat (length (tracker self))))
    as [Hn|Hn].
  - destruct (heapq.heappushpop (tracker self) cand) as [heap discard] eqn:Hpp.
    rewrite bind_modify.
    destruct (tracker self) as [|top rest] eqn:Ht.
    { (* an empty tracker: the candidate comes back *)
      unfold heapq.heappushpop in Hpp. injection Hpp as <- <-.
      rewrite (set_tracker_same self0 []) by done.
      destruct (handed_back_step epoch (default ∅ logs) self path current)
        as (evs & r & Hrun & Hstep); [done..|by rewrite Ht|by rewrite Ht|].
      fold self0 cand in Hrun. rewrite Hrun. by do 3 eexists. }
    pose proof Hpp as Hpp'. unfold heapq.heappushpop in Hpp'.
    destruct (tuple_ltb top cand) eqn:Hlt; injection Hpp' as <- <-.
    + rewrite (tuple_ltb_eqb _ _ Hlt). cbn [negb].
      set (heap := heapq._siftup _ _) in *.
      run_print evs r Hw Hops Hr Hcases.
      assert (r = inr tt) as ->.
      { apply Hr. cbn [tracker set_tracker].
        intros Hnil%(f_equal length). unfold heap in Hnil.
        by rewrite siftup_length in Hnil. }
      rewrite (bind_run _ _ _ _ _ _ Hw), bind_emit, model_persist_run.
      change (persist_event (set_tracker heap self0) path)
        with (persist_event self path).
      rewrite <- Ht in Hn, Hpp.
      do 3 eexists. split; [done|].
      eapply step_replace; eauto.
      rewrite file_ops_app, Hops.
      cbn [app file_ops List.filter is_file_op].
      by rewrite <- (file_ops_persist_event self path) at 2.
    + rewrite (set_tracker_same self0 (top :: rest)) by done.
      destruct (handed_back_step epoch (default ∅ logs) self path current)
        as (evs & r & Hrun & Hstep);
        [done..|by rewrite Ht|rewrite Ht; by intros ? [= <-]|].
      fold self0 cand in Hrun. rewrite Hrun. by do 3 eexists.
  - rewrite bind_modify.
    run_print evs r Hw Hops Hr Hcases.
    assert (r = inr tt) as ->.
    { apply Hr. cbn [tracker set_tracker].
      intros Hnil%(f_equal length). by rewrite heappush_length in Hnil. }
    rewrite (bind_run _ _ _ _ _ _ Hw), model_persist_run.
    do 3 eexists. split; [done|].
    eapply step_store; eauto.
    rewrite file_ops_app, Hops. apply (file_ops_persist_event self).
Qed.

End Steps.

(** ** Sequences of calls *)

Section Runs.

Variable format_field : string → Z → gmap string float → option string.

Lemma on_epoch_end_inv epoch logs self :
  step format_field self epoch (default ∅ logs)
    (on_epoch_end format_field epoch logs self).1.1
    (on_epoch_end format_field epoch logs self).1.2
    (on_epoch_end format_field epoch logs self).2.
Proof.
  by destruct (on_epoch_end_step format_field epoch logs self)
    as (self' & evs & r & -> & Hstep).
Qed.

Lemma run_cons self epoch logs calls :
  run format_field self ((epoch, logs) :: calls)
  = ((run format_field (on_epoch_end format_field epoch logs self).1.1 calls).1,
     (on_epoch_end format_field epoch logs self).1.2
     :: (run format_field (on_epoch_end format_field epoch logs self).1.1 calls).2).
Proof.
  cbn [run]. destruct (on_epoch_end _ _ _ _) as [[self' evs] r].
  by destruct (run _ _ _).
Qed.

(** A property of the object that every call keeps holds after every
    sequence of calls. *)
Lemma run_invariant (P : ModelCheckpointTopN → Prop) :
  (∀ self epoch logs, P self → P (on_epoch_end format_field epoch logs self).1.1) →
  ∀ calls self, P self → P (run format_field self calls).1.
Proof.
  intros Hstep calls. induction calls as [|[epoch logs] calls IH]; intros self HP;
    [done|].
  rewrite run_cons. simpl. by apply IH, Hstep.
Qed.

Lemma step_same_config self epoch logs self' evs r :
  step format_field self epoch logs self' evs r → same_config self self'.
Proof. by intros []. Qed.

Lemma run_same_config self calls :
  same_config self (run format_field self calls).1.
Proof.
  apply (run_invariant (same_config self)); [|done].
  intros s epoch logs Hs.
  pose proof (step_same_config _ _ _ _ _ _ (on_epoch_end_inv epoch logs s)) as Hc.
  unfold same_config in *. intuition congruence.
Qed.

Lemma step_is_heap self epoch logs self' evs r :
  step format_field self epoch logs self' evs r →
  is_heap (tracker self) → is_heap (tracker self').
Proof.
  intros [] Hh; cbn [tracker set_tracker set_epochs_since_last_save]; try done.
  - by apply heappush_heap.
  - match goal with
    | Ht : tracker self = _ :: _, Hlt : tuple_ltb _ _ = true,
      Hpp : heapq.heappushpop _ _ = _ |- _ =>
        rewrite Ht in Hh, Hpp;
        destruct (heappushpop_replace _ _ _ Hlt Hh) as (h' & Hpp' & Hh' & _);
        rewrite Hpp in Hpp'; by injection Hpp' as <-
    end.
Qed.

(** What [__init__] stores. *)
Lemma init_fields path mon verb n weights mode per :
  let self := (__init__ path mon verb n weights mode per).1 in
  monitor self = mon ∧ verbose self = verb ∧ n_models self = n
  ∧ save_weights_only self = weights ∧ period self = per
  ∧ epochs_since_last_save self = 0 ∧ tracker self = [].
Proof.
  unfold __init__. destruct (os_path.split path) as [head tail].
  by destruct (os_path.splitext tail) as [model_name ext].
Qed.

Lemma is_heap_nil : is_heap [].
Proof. intros i. simpl. lia. Qed.

(** The tracker of an object made by [__init__] and then called is a heap. *)
Lemma run_is_heap self calls :
  is_heap (tracker self) → is_heap (tracker (run format_field self calls).1).
Proof.
  revert self. apply (run_invariant (λ s, is_heap (tracker s))).
  intros s epoch logs Hs. eapply step_is_heap; [apply on_epoch_end_inv|done].
Qed.

End Runs.

(** ** Path templates *)

Section Templates.

Variable format_field : string → Z → gmap string float → option string.

Lemma chars_app s1 s2 :
  list_ascii_of_string (s1 +:+ s2)
  = list_ascii_of_string s1 ++ list_ascii_of_string s2.
Proof.
  induction s1 as [|a s1 IH]; [done|].
  change (String a s1 +:+ s2) with (String a (s1 +:+ s2)).
  simpl. by rewrite IH.
Qed.

Lemma str_of_chars_app l1 l2 :
  string_of_list_ascii (l1 ++ l2)
  = string_of_list_ascii l1 +:+ string_of_list_ascii l2.
Proof.
  induction l1 as [|a l1 IH]; [done|].
  simpl. rewrite IH. done.
Qed.

Lemma str_of_int_inj a b : str_of_int a = str_of_int b → a = b.
Proof.
  unfold str_of_int. intros H%(f_equal DecimalString.NilZero.int_of_string).
  assert (∀ z, Z.to_int z ≠ Decimal.Pos Decimal.Nil
               ∧ Z.to_int z ≠ Decimal.Neg Decimal.Nil) as Hnz.
  { intros [|q|q]; simpl; split; try done;
      intros [= Hq]; by apply DecimalPos.Unsigned.to_uint_nonnil in Hq. }
  rewrite !DecimalString.NilZero.isi in H by apply Hnz.
  injection H as H. by apply DecimalZ.to_int_inj.
Qed.

Lemma brace_free_literal l : brace_free_chars l → literal_text l l.
Proof.
  induction 1 as [|c l [? ?] _ IH]; [constructor|by constructor].
Qed.

(** Text without fields is copied, doubled braces read as one. *)
Lemma format_chars_literal t r rest epoch logs :
  literal_text t r →
  format_chars format_field (t ++ rest) None epoch logs
  = (r ++.) <$> format_chars format_field rest None epoch logs.
Proof.
  induction 1 as [|c t r Ho Hc _ IH|t r _ IH|t r _ IH]; simpl.
  - destruct (format_chars format_field rest None epoch logs); reflexivity.
  - rewrite (bool_decide_eq_false_2 (c = "{"%char)),
      (bool_decide_eq_false_2 (c = "}"%char)) by done.
    rewrite IH.
    destruct (format_chars format_field rest None epoch logs); reflexivity.
  - rewrite IH. destruct (format_chars format_field rest None epoch logs); reflexivity.
  - rewrite IH. destruct (format_chars format_field rest None epoch logs); reflexivity.
Qed.

(** The field [{epoch:d}] reads as the decimal numeral of [epoch]. *)
Lemma format_chars_epoch rest epoch logs :
  format_chars format_field (list_ascii_of_string "{epoch:d}" ++ rest) None epoch logs
  = (list_ascii_of_string (str_of_int epoch) ++.)
      <$> format_chars format_field rest None epoch logs.
Proof.
  simpl. destruct (format_chars format_field rest None epoch logs); reflexivity.
Qed.

Lemma str_format_only_epoch template pre post epoch logs :
  only_epoch_field template pre post →
  logs !! "epoch"%string = None →
  str_format format_field template epoch logs
  = Some (string_of_list_ascii pre +:+ str_of_int epoch
          +:+ string_of_list_ascii post).
Proof.
  intros (t1 & t2 & Ht & H1 & H2) Hlogs. unfold str_format.
  rewrite bool_decide_eq_false_2 by (rewrite Hlogs; by intros [? ?]).
  rewrite Ht, (format_chars_literal t1 pre) by done.
  rewrite format_chars_epoch.
  rewrite <- (app_nil_r t2), (format_chars_literal t2 post) by done.
  simpl. rewrite app_nil_r, !str_of_chars_app.
  by rewrite string_of_list_ascii_of_string.
Qed.

(** With [{epoch:d}] as the only field, distinct epochs resolve to
    distinct paths. *)
Lemma str_format_only_epoch_inj template pre post e1 e2 logs1 logs2 p1 p2 :
  only_epoch_field template pre post →
  str_format format_field template e1 logs1 = Some p1 →
  str_format format_field template e2 logs2 = Some p2 →
  e1 ≠ e2 → p1 ≠ p2.
Proof.
  intros Ht H1 H2 Hne Heq.
  assert (∀ e logs p, str_format format_field template e logs = Some p →
            logs !! "epoch"%string = None) as Hlogs.
  { intros e logs p. unfold str_format.
    destruct (logs !! "epoch"%string) eqn:Hl; [|done].
    by rewrite bool_decide_eq_true_2 by (by eexists). }
  rewrite (str_format_only_epoch _ _ _ _ _ Ht (Hlogs _ _ _ H1)) in H1.
  rewrite (str_format_only_epoch _ _ _ _ _ Ht (Hlogs _ _ _ H2)) in H2.
  injection H1 as <-. injection H2 as <-.
  apply (f_equal list_ascii_of_string) in Heq.
  rewrite !chars_app, !list_ascii_of_string_of_list_ascii in Heq.
  apply app_inv_head, app_inv_tail in Heq.
  apply (f_equal string_of_list_ascii) in Heq.
  rewrite !string_of_list_ascii_of_string in Heq.
  by apply str_of_int_inj in Heq.
Qed.

(** *** What [os.path] does to the characters of a path *)

Lemma rstrip_Forall (P : ascii → Prop) l c :
  Forall P l → Forall P (os_path.rstrip l c).
Proof.
  induction 1 as [|x l Hx _ IH]; simpl; [done|].
  destruct (os_path.rstrip l c); [|by constructor].
  destruct (Ascii.eqb x c); [done|by constructor].
Qed.

Lemma split_chars_Forall (P : ascii → Prop) p :
  Forall P p →
  Forall P (os_path.split_chars p).1 ∧ Forall P (os_path.split_chars p).2.
Proof.
  intros Hp. unfold os_path.split_chars. simpl. split; [|by apply Forall_drop].
  destruct (_ && _); [apply rstrip_Forall|]; by apply Forall_take.
Qed.

Lemma splitext_loop_spec n p i d r :
  os_path._splitext_loop n p i d = Some r → r = (take d p, drop d p).
Proof.
  revert i. induction n as [|n IH]; intros i; simpl; [done|].
  destruct (i <? d)%nat; [|done].
  destruct (negb _); [by intros [= <-]|apply IH].
Qed.

(** [splitext] cuts its argument in two. *)
Lemma splitext_chars_app p :
  (os_path.splitext_chars p).1 ++ (os_path.splitext_chars p).2 = p.
Proof.
  unfold os_path.splitext_chars.
  destruct (_ <? _); [|apply app_nil_r].
  destruct (os_path._splitext_loop _ _ _ _) as [r|] eqn:Hr; [|apply app_nil_r].
  apply splitext_loop_spec in Hr as ->. apply take_drop.
Qed.

Lemma splitext_chars_Forall (P : ascii → Prop) p :
  Forall P p →
  Forall P (os_path.splitext_chars p).1 ∧ Forall P (os_path.splitext_chars p).2.
Proof.
  intros Hp. rewrite <- (splitext_chars_app p) in Hp.
  by apply Forall_app in Hp.
Qed.

Lemma join_chars_cases a b :
  os_path.join_chars a b = b
  ∨ os_path.join_chars a b = a ++ b
  ∨ os_path.join_chars a b = a ++ os_path.sep :: b.
Proof.
  unfold os_path.join_chars.
  destruct (bool_decide _); [by left|].
  destruct (_ || _); [right; by left|right; by right].
Qed.

(** The template [__init__] stores, in characters. *)
Lemma init_filepath path mon verb n weights mode per :
  let head := (os_path.split_chars (list_ascii_of_string path)).1 in
  let tail := (os_path.split_chars (list_ascii_of_string path)).2 in
  let model_name := (os_path.splitext_chars tail).1 in
  let ext := (os_path.splitext_chars tail).2 in
  list_ascii_of_string (filepath (__init__ path mon verb n weights mode per).1)
  = os_path.join_chars head
      (model_name ++ list_ascii_of_string "_{epoch:d}" ++ ext)
  ∧ model_name ++ ext = tail.
Proof.
  intros head tail model_name ext. split; [|apply splitext_chars_app].
  unfold __init__, os_path.split, os_path.splitext, os_path.join.
  fold head tail.
  destruct (os_path.split_chars (list_ascii_of_string path)) as [h tl] eqn:Hs.
  simpl in head, tail. subst head tail.
  rewrite list_ascii_of_string_of_list_ascii. fold model_name ext.
  destruct (os_path.splitext_chars tl) as [mn ex] eqn:He.
  simpl in model_name, ext. subst model_name ext. cbn [fst filepath].
  by rewrite !list_ascii_of_string_of_list_ascii, !chars_app,
    !list_ascii_of_string_of_list_ascii.
Qed.

(** A path without braces gives a template whose only field is the
    injected [{epoch:d}]. *)
Lemma init_only_epoch_field path mon verb n weights mode per :
  brace_free path →
  ∃ pre post,
    only_epoch_field (filepath (__init__ path mon verb n weights mode per).1)
      pre post.
Proof.
  intros Hp.
  destruct (init_filepath path mon verb n weights mode per) as [Hf _].
  destruct (split_chars_Forall _ _ Hp) as [Hh Ht].
  destruct (splitext_chars_Forall _ _ Ht) as [Hm He].
  set (h := (os_path.split_chars (list_ascii_of_string path)).1) in *.
  set (mn := (os_path.splitext_chars _).1) in *.
  set (ex := (os_path.splitext_chars _).2) in *.
  assert (∀ x, brace_free_chars x →
            only_epoch_field (filepath (__init__ path mon verb n weights mode per).1)
              (x ++ mn ++ ["_"%char]) ex →
            ∃ pre post,
              only_epoch_field (filepath (__init__ path mon verb n weights mode per).1)
                pre post) as Hex by eauto.
  assert (∀ x, brace_free_chars x →
            list_ascii_of_string (filepath (__init__ path mon verb n weights mode per).1)
            = x ++ mn ++ list_ascii_of_string "_{epoch:d}" ++ ex →
            only_epoch_field (filepath (__init__ path mon verb n weights mode per).1)
              (x ++ mn ++ ["_"%char]) ex) as Hone.
  { intros x Hx Heq. exists (x ++ mn ++ ["_"%char]), ex.
    split; [by rewrite Heq, <- !app_assoc|].
    split; apply brace_free_literal; [|done].
    apply Forall_app. split; [done|]. apply Forall_app. split; [done|].
    by repeat constructor. }
  destruct (join_chars_cases h (mn ++ list_ascii_of_string "_{epoch:d}" ++ ex))
    as [Hj|[Hj|Hj]]; rewrite Hj in Hf.
  - apply (Hex []); [constructor|]. by apply Hone; [constructor|].
  - apply (Hex h); [done|]. by apply Hone.
  - apply (Hex (h ++ [os_path.sep])).
    + apply Forall_app. split; [done|]. by repeat constructor.
    + apply Hone; [|by rewrite Hf, <- app_assoc].
      apply Forall_app. split; [done|]. by repeat constructor.
Qed.

End Templates.

(** ** The retention policy *)

Section Claims.

Variable format_field : string → Z → gmap string float → option string.

Lemma persists_file_ops evs : persists (file_ops evs) = persists evs.
Proof.
  induction evs as [|e evs IH]; [done|].
  unfold persists, file_ops in *.
  destruct e; simpl; first [exact IH | f_equal; exact IH].
Qed.

Lemma deletes_file_ops evs : deletes (file_ops evs) = deletes evs.
Proof.
  induction evs as [|e evs IH]; [done|].
  unfold deletes, file_ops in *.
  destruct e; simpl; first [exact IH | f_equal; exact IH].
Qed.

Lemma persists_persist_event self path : persists [persist_event self path] = [path].
Proof. unfold persist_event. by destruct (save_weights_only self). Qed.

Lemma deletes_persist_event self path : deletes [persist_event self path] = [].
Proof. unfold persist_event. by destruct (save_weights_only self). Qed.

Lemma set_epochs_since_last_save_same self :
  set_epochs_since_last_save (epochs_since_last_save self) self = self.
Proof. by destruct self. Qed.

(** While the counter stays below [period], calls only count. *)
Lemma run_wait calls self :
  epochs_since_last_save self + Z.of_nat (length calls) < period self →
  run format_field self calls
  = (set_epochs_since_last_save
       (epochs_since_last_save self + Z.of_nat (length calls)) self,
     replicate (length calls) []).
Proof.
  revert self. induction calls as [|[epoch logs] calls IH]; intros self Hlt.
  - simpl. by rewrite Z.add_0_r, set_epochs_since_last_save_same.
  - cbn [length] in Hlt. rewrite run_cons.
    pose proof (on_epoch_end_inv format_field epoch logs self) as Hstep.
    destruct (on_epoch_end _ _ _ _) as [[self' evs] r]. simpl in Hstep |- *.
    inversion Hstep; subst; try lia.
    rewrite IH by (simpl; lia). simpl. f_equal.
    change (set_epochs_since_last_save ?a (set_epochs_since_last_save ?b self))
      with (set_epochs_since_last_save a self).
    f_equal. lia.
Qed.

(** What a call does to the tracker: nothing, a push below capacity,
    the replacement of the root at capacity, or, at capacity with a
    candidate whose score is [nan], nothing to the tracker and both
    calls on the file system with the candidate's path. *)
Lemma step_tracker self epoch logs self' evs r :
  step format_field self epoch logs self' evs r →
  (tracker self' = tracker self ∧ file_ops evs = [])
  ∨ (∃ path current,
       Z.of_nat (length (tracker self)) < n_models self
       ∧ logs !! monitor self = Some current
       ∧ tracker self' ≡ₚ candidate self epoch current path :: tracker self
       ∧ file_ops evs = [persist_event self path])
  ∨ (∃ path current top rest,
       n_models self ≤ Z.of_nat (length (tracker self))
       ∧ logs !! monitor self = Some current
       ∧ tracker self = top :: rest
       ∧ tuple_ltb top (candidate self epoch current path) = true
       ∧ tracker self' ≡ₚ candidate self epoch current path :: rest
       ∧ file_ops evs = [os_remove (item_path top); persist_event self path])
  ∨ (∃ path current,
       n_models self ≤ Z.of_nat (length (tracker self))
       ∧ logs !! monitor self = Some current
       ∧ float_mul current (coef self) = nan
       ∧ tracker self' = tracker self
       ∧ file_ops evs = [os_remove path; persist_event self path]).
Proof.
  intros []; cbn [tracker set_tracker set_epochs_since_last_save];
    [by left..| | |by left|].
  - right; left. do 2 eexists. split; [done|]. split; [done|].
    split; [|done]. apply heappush_perm.
  - right; right; left.
    match goal with
    | Ht : tracker self = _ :: _, Hlt : tuple_ltb _ _ = true,
      Hpp : heapq.heappushpop _ _ = _ |- _ =>
        rewrite Ht in Hpp;
        destruct (heappushpop_perm _ rest _ Hlt) as [Hperm _];
        rewrite Hpp in Hperm
    end.
    do 4 eexists. split; [done|]. split; [done|]. split; [done|].
    split; done.
  - match goal with
    | H : _ ∨ _ |- _ => destruct H as [[Hops ->]|(Ht & _ & -> & ->)]
    end; [|by left].
    right; right; right. do 2 eexists. done.
Qed.

(** A call whose candidate has a score is not the fourth case. *)
Lemma step_tracker_scored self epoch logs self' evs r :
  step format_field self epoch (default ∅ logs) self' evs r →
  scored_call self logs →
  (tracker self' = tracker self ∧ file_ops evs = [])
  ∨ (∃ path current,
       Z.of_nat (length (tracker self)) < n_models self
       ∧ default ∅ logs !! monitor self = Some current
       ∧ tracker self' ≡ₚ candidate self epoch current path :: tracker self
       ∧ file_ops evs = [persist_event self path])
  ∨ (∃ path current top rest,
       n_models self ≤ Z.of_nat (length (tracker self))
       ∧ default ∅ logs !! monitor self = Some current
       ∧ tracker self = top :: rest
       ∧ tuple_ltb top (candidate self epoch current path) = true
       ∧ tracker self' ≡ₚ candidate self epoch current path :: rest
       ∧ file_ops evs = [os_remove (item_path top); persist_event self path]).
Proof.
  intros [H|[H|[H|(path & current & _ & Hm & Hnan & _)]]]%step_tracker Hs;
    [by left|right; by left|right; by right|].
  by apply Hs in Hm.
Qed.

Lemma never_nan_scored self logs :
  ¬ (coef self == 0)%Q → default ∅ logs !! monitor self ≠ Some nan →
  scored_call self logs.
Proof.
  intros Hc Hn current Hm. apply float_mul_not_nan; [done|]. congruence.
Qed.

(** [__init__] sets [coef] to [1.0] or [-1.0]. *)
Lemma init_coef path mon verb n weights mode per :
  coef (__init__ path mon verb n weights mode per).1 = 1%Q
  ∨ coef (__init__ path mon verb n weights mode per).1 = (-1)%Q.
Proof.
  unfold __init__. destruct (os_path.split path) as [head tail].
  destruct (os_path.splitext tail) as [model_name ext]. cbn [fst coef].
  repeat case_bool_decide; try destruct (_ || _); auto.
Qed.

Lemma init_coef_nonzero path mon verb n weights mode per :
  ¬ (coef (__init__ path mon verb n weights mode per).1 == 0)%Q.
Proof.
  by destruct (init_coef path mon verb n weights mode per) as [-> | ->].
Qed.

(** The tuples a call adds to the tracker. *)
Lemma step_new_items self epoch logs self' evs r x :
  step format_field self epoch logs self' evs r →
  x ∈ tracker self' →
  x ∈ tracker self
  ∨ ∃ current path,
      logs !! monitor self = Some current
      ∧ str_format format_field (filepath self) (epoch + 1) logs = Some path
      ∧ x = candidate self epoch current path.
Proof.
  intros Hstep.
  inversion Hstep
    as [ | | |path current evs' _ Hf Hm _ _
       |path current top rest heap evs' _ Hf Hm _ Ht Hlt Hpp _| | ];
    subst; cbn [tracker set_tracker set_epochs_since_last_save]; try by left.
  - rewrite heappush_perm. intros [->|Hin]%elem_of_cons; [|by left].
    right. by exists current, path.
  - destruct (heappushpop_perm top rest _ Hlt) as [Hperm _].
    rewrite Ht in Hpp. rewrite Hpp in Hperm. simpl in Hperm. rewrite Hperm.
    intros [->|Hin]%elem_of_cons.
    + right. by exists current, path.
    + left. rewrite Ht. by right.
Qed.

(** Calls whose candidates have a score keep [nan] out of the tracker. *)
Lemma step_not_nan self epoch logs self' evs r :
  step format_field self epoch (default ∅ logs) self' evs r →
  scored_call self logs →
  Forall not_nan (tracker self) → Forall not_nan (tracker self').
Proof.
  intros Hstep Hs Hnan. apply Forall_forall. intros x Hx.
  destruct (step_new_items _ _ _ _ _ _ x Hstep Hx)
    as [Hin|(current & path & Hm & _ & ->)].
  - by eapply Forall_forall in Hnan.
  - by apply Hs.
Qed.

Lemma persists_app evs evs' : persists (evs ++ evs') = persists evs ++ persists evs'.
Proof. apply omap_app. Qed.

Lemma deletes_app evs evs' : deletes (evs ++ evs') = deletes evs ++ deletes evs'.
Proof. apply omap_app. Qed.

(** A full-pool call on a heap without [nan], by the minimum of the
    tracker.  All minima of the tracker are the same checkpoint as its
    root: the same score, epoch and path. *)
Lemma full_pool_call self epoch logs path current :
  is_heap (tracker self) →
  Forall not_nan (tracker self) →
  not_nan (candidate self epoch current path) →
  period self ≤ epochs_since_last_save self + 1 →
  str_format format_field (filepath self) (epoch + 1) (default ∅ logs)
    = Some path →
  default ∅ logs !! monitor self = Some current →
  n_models self ≤ Z.of_nat (length (tracker self)) →
  let cand := candidate self epoch current path in
  let res := on_epoch_end format_field epoch logs self in
  (∀ m, is_minimum m (tracker self) → tuple_ltb m cand = true →
     ∃ top rest,
       tracker self = top :: rest ∧ is_minimum top (tracker self)
       ∧ tuple_le top m ∧ tuple_le m top
       ∧ tracker res.1.1 ≡ₚ cand :: rest
       ∧ file_ops res.1.2 = [os_remove (item_path m); persist_event self path]
       ∧ res.2 = inr tt)
  ∧ (¬ (∃ m, is_minimum m (tracker self) ∧ tuple_ltb m cand = true) →
     res.1.1 = set_epochs_since_last_save 0 self ∧ file_ops res.1.2 = []).
Proof.
  intros Hh Hnan Hcand Hp Hf Hm Hn cand res.
  pose proof (on_epoch_end_inv format_field epoch logs self) as Hstep.
  fold res in Hstep. destruct res as [[self' evs] r]. simpl in Hstep |- *.
  inversion Hstep
    as [ | | | |path' current' top rest heap evs' _ Hf' Hm' _ Ht Hlt Hpp Hops
       |path' current' evs' r' _ Hf' Hm' _ Htop _ Hops
       |path' current' evs' r' _ Hf' Hm' _ Hscore _];
    subst; try lia; try congruence.
  - (* replaced *)
    assert (path' = path) as -> by congruence.
    assert (current' = current) as -> by congruence.
    fold cand in Hlt, Hpp. rewrite Ht in *.
    destruct (heappushpop_perm top rest cand) as [Hperm _]; [done|].
    rewrite Hpp in Hperm. simpl in Hperm. split.
    + intros m Hmin Hltm.
      destruct (minimum_root top rest m Hnan Hh Hmin) as [Hmt Htm].
      assert (not_nan m) as Hmn.
      { destruct Hmin as [Hin _]. by eapply Forall_forall in Hnan. }
      assert (not_nan top) as Htn by (by apply Forall_cons in Hnan as [? _]).
      destruct (tuple_le_antisym _ _ Hmn Htn Hmt Htm) as (_ & _ & Hpath).
      exists top, rest. rewrite Hpath.
      split; [done|]. split; [by apply heap_root_minimum|]. done.
    + intros Hno. exfalso. apply Hno. exists top.
      split; [by apply heap_root_minimum|done].
  - (* discarded *)
    assert (path' = path) as -> by congruence.
    assert (current' = current) as -> by congruence.
    split; [|done].
    intros m Hmin Hltm. exfalso.
    destruct (tracker self) as [|top rest] eqn:Ht.
    { destruct Hmin as [Hin _]. by apply elem_of_nil in Hin. }
    destruct (minimum_root top rest m Hnan Hh Hmin) as [Hmt Htm].
    assert (not_nan top) as Htn by (by apply Forall_cons in Hnan as [? _]).
    pose proof (tuple_ltb_le_trans _ _ _ Htn Htm Hltm) as Hlt'.
    specialize (Htop top eq_refl). fold cand in Htop. congruence.
Qed.

(** *** The files of a sequence of calls *)

(** What a call does to the paths of the tracker and to the files. *)
Lemma call_paths self epoch logs :
  let res := on_epoch_end format_field epoch logs self in
  n_models res.1.1 = n_models self
  ∧ ((paths res.1.1 = paths self ∧ file_ops res.1.2 = [])
     ∨ (∃ p, resolved_path format_field self epoch logs = Some p
             ∧ Z.of_nat (length (paths self)) < n_models self
             ∧ paths res.1.1 ≡ₚ p :: paths self
             ∧ file_ops res.1.2 = [persist_event self p])
     ∨ (∃ p q rest, resolved_path format_field self epoch logs = Some p
             ∧ paths self = q :: rest
             ∧ paths res.1.1 ≡ₚ p :: rest
             ∧ file_ops res.1.2 = [os_remove q; persist_event self p])
     ∨ (∃ p, resolved_path format_field self epoch logs = Some p
             ∧ ¬ scored_call self logs
             ∧ paths res.1.1 = paths self
             ∧ file_ops res.1.2 = [os_remove p; persist_event self p])).
Proof.
  intros res.
  pose proof (on_epoch_end_inv format_field epoch logs self) as Hstep.
  fold res in Hstep. destruct res as [[self' evs] r]. simpl in Hstep |- *.
  pose proof (step_same_config _ _ _ _ _ _ _ Hstep) as (_ & _ & _ & Hn & _).
  split; [done|]. unfold paths, resolved_path.
  inversion Hstep
    as [ | | |path current evs' Hp Hf Hm Hlt Hops
       |path current top rest heap evs' Hp Hf Hm _ Ht Hlt Hpp Hops|
       |path current evs' r' Hp Hf Hm _ Hscore Hcases];
    subst; cbn [tracker set_tracker set_epochs_since_last_save]; try by left.
  3:{ destruct Hcases as [[Hops _]|(_ & _ & -> & _)]; [|by left].
      right; right; right. exists path.
      apply Z.leb_le in Hp. rewrite Hp.
      split; [done|]. split; [|done].
      intros Hs. by apply (Hs current). }
  - right; left. exists path.
    apply Z.leb_le in Hp. rewrite Hp, length_fmap.
    split; [done|]. split; [done|]. split; [|done].
    by rewrite heappush_perm.
  - right; right; left. exists path, (item_path top), (item_path <$> rest).
    apply Z.leb_le in Hp. rewrite Hp, Ht.
    split; [done|]. split; [done|]. split; [|done].
    destruct (heappushpop_perm top rest _ Hlt) as [Hperm _].
    rewrite Ht in Hpp. rewrite Hpp in Hperm. simpl in Hperm.
    by rewrite Hperm.
Qed.

Lemma live_from_app files evs evs' :
  live_from files (evs ++ evs') = live_from (live_from files evs) evs'.
Proof. apply foldl_app. Qed.

Lemma live_from_file_ops files evs :
  live_from files (file_ops evs) = live_from files evs.
Proof.
  revert files. induction evs as [|e evs IH]; intros files; [done|].
  destruct e; simpl; apply IH.
Qed.

Lemma live_from_persist_event files self p :
  live_from files [persist_event self p] = {[p]} ∪ files.
Proof. unfold persist_event. by destruct (save_weights_only self). Qed.

Lemma prefix_app_cases {A} (t l k : list A) :
  t `prefix_of` l ++ k →
  t `prefix_of` l ∨ ∃ t', t = l ++ t' ∧ t' `prefix_of` k.
Proof.
  revert t. induction l as [|x l IH]; intros t Ht.
  - right. by exists t.
  - destruct t as [|y t]; [left; apply prefix_nil|].
    rewrite <- app_comm_cons in Ht.
    pose proof (prefix_cons_inv_1 _ _ _ _ Ht) as ->.
    apply prefix_cons_inv_2, IH in Ht as [Ht|(t' & -> & Ht)].
    + left. by apply prefix_cons.
    + right. by exists t'.
Qed.

Lemma file_ops_prefix t evs :
  t `prefix_of` evs → file_ops t `prefix_of` file_ops evs.
Proof. intros [k ->]. rewrite file_ops_app. by eexists. Qed.

Lemma prefix_of_nil_eq {A} (t : list A) : t `prefix_of` [] → t = [].
Proof. apply prefix_nil_inv. Qed.

Lemma prefix_of_one {A} (t : list A) a : t `prefix_of` [a] → t = [] ∨ t = [a].
Proof.
  intros [k Hk]. destruct t as [|x [|y t]]; simplify_eq/=; auto.
Qed.

Lemma prefix_of_two {A} (t : list A) a b :
  t `prefix_of` [a; b] → t = [] ∨ t = [a] ∨ t = [a; b].
Proof.
  intros [k Hk]. destruct t as [|x [|y [|z t]]]; simplify_eq/=; auto.
Qed.

Lemma size_paths (l : list string) :
  NoDup l → size (list_to_set l : gset string) = length l.
Proof. apply size_list_to_set. Qed.

(** One call, seen from the files: the tracker's paths stay distinct
    and stay the files that are live, and at no moment of the call are
    more than [n_models] files live. *)
Lemma call_files self epoch logs (files : gset string) :
  let res := on_epoch_end format_field epoch logs self in
  scored_call self logs →
  NoDup (paths self) →
  files = list_to_set (paths self) →
  Z.of_nat (length (paths self)) ≤ n_models self →
  (∀ p, resolved_path format_field self epoch logs = Some p → p ∉ paths self) →
  NoDup (paths res.1.1)
  ∧ live_from files res.1.2 = list_to_set (paths res.1.1)
  ∧ Z.of_nat (length (paths res.1.1)) ≤ n_models self
  ∧ (∀ t, t `prefix_of` res.1.2 →
       Z.of_nat (size (live_from files t)) ≤ n_models self)
  ∧ (∀ p, p ∈ paths res.1.1 → p ∈ paths self ∨ p ∈ persists res.1.2)
  ∧ (∀ p, p ∈ persists res.1.2 →
       resolved_path format_field self epoch logs = Some p)
  ∧ (∀ q, q ∈ deletes res.1.2 → q ∈ paths self ∧ q ∉ paths res.1.1)
  ∧ NoDup (deletes res.1.2).
Proof.
  intros res Hscored Hnd -> Hlen Hfresh.
  destruct (call_paths self epoch logs) as [_ Hcases]. fold res in Hcases.
  assert ((paths res.1.1 = paths self ∧ file_ops res.1.2 = [])
          ∨ (∃ p, resolved_path format_field self epoch logs = Some p
                  ∧ Z.of_nat (length (paths self)) < n_models self
                  ∧ paths res.1.1 ≡ₚ p :: paths self
                  ∧ file_ops res.1.2 = [persist_event self p])
          ∨ (∃ p q rest, resolved_path format_field self epoch logs = Some p
                  ∧ paths self = q :: rest
                  ∧ paths res.1.1 ≡ₚ p :: rest
                  ∧ file_ops res.1.2 = [os_remove q; persist_event self p]))
    as Hcases'.
  { destruct Hcases as [H|[H|[H|(p & _ & Hs & _)]]];
      [by left|right; by left|right; by right|done]. }
  clear Hcases. rename Hcases' into Hcases.
  assert (∀ t, t `prefix_of` res.1.2 →
            live_from (list_to_set (paths self)) t
            = live_from (list_to_set (paths self)) (file_ops t)
            ∧ file_ops t `prefix_of` file_ops res.1.2) as Hpre.
  { intros t Ht. split; [by rewrite live_from_file_ops|by apply file_ops_prefix]. }
  rewrite <- (live_from_file_ops _ res.1.2).
  setoid_rewrite <- persists_file_ops. setoid_rewrite <- deletes_file_ops.
  destruct Hcases as [[Hp Hops]|[(p & Hres & Hlt & Hp & Hops)
                                |(p & q & rest & Hres & Hq & Hp & Hops)]];
    rewrite Hops in *.
  - rewrite Hp. do 2 (split; [done|]). split; [done|]. split.
    { intros t [-> ->%prefix_of_nil_eq]%Hpre. simpl.
      rewrite size_paths by done. lia. }
    split; [by left|]. split; [by intros ? ?%elem_of_nil|].
    split; [by intros ? ?%elem_of_nil|constructor].
  - specialize (Hfresh p Hres).
    assert (NoDup (p :: paths self)) as Hnd' by (by constructor).
    rewrite live_from_persist_event, persists_persist_event, deletes_persist_event.
    split; [by rewrite Hp|]. split; [by rewrite Hp|].
    split; [rewrite Hp; simpl; lia|]. split.
    { intros t [-> [->| ->]%prefix_of_one]%Hpre.
      - simpl. rewrite size_paths by done. lia.
      - rewrite live_from_persist_event.
        change ({[p]} ∪ list_to_set (paths self))
          with (list_to_set (C:=gset string) (p :: paths self)).
        rewrite size_paths by done. simpl. lia. }
    split.
    { intros p'. rewrite Hp. intros [->|?]%elem_of_cons; [right; by left|by left]. }
    split; [by intros ? ->%list_elem_of_singleton|].
    split; [by intros ? ?%elem_of_nil|constructor].
  - specialize (Hfresh p Hres). rewrite Hq in *.
    apply NoDup_cons in Hnd as [Hqrest Hndrest].
    assert (p ∉ rest) as Hprest by (intros ?; apply Hfresh; by right).
    assert (p ≠ q) as Hpq by (intros ->; apply Hfresh; by left).
    assert (NoDup (p :: rest)) as Hnd' by (by constructor).
    assert (({[q]} ∪ list_to_set rest) ∖ {[q]} = (list_to_set rest : gset string))
      as Hdiff.
    { apply set_eq. intros x.
      rewrite elem_of_difference, elem_of_union, elem_of_singleton,
        elem_of_list_to_set.
      split; [intros [[?|?] ?]; done|]. intros Hx. split; [by right|].
      by intros ->. }
    assert (live_from (list_to_set (q :: rest)) [os_remove q; persist_event self p]
            = list_to_set (C:=gset string) (p :: rest)) as Hlive.
    { change [os_remove q; persist_event self p]
        with ([os_remove q] ++ [persist_event self p]).
      rewrite live_from_app, live_from_persist_event. simpl.
      by rewrite Hdiff. }
    change [os_remove q; persist_event self p]
      with ([os_remove q] ++ [persist_event self p]).
    rewrite persists_app, deletes_app, persists_persist_event,
      deletes_persist_event.
    change ([os_remove q] ++ [persist_event self p])
      with [os_remove q; persist_event self p].
    simpl persists. simpl deletes. simpl app.
    split; [by rewrite Hp|]. split; [by rewrite Hlive, Hp|].
    split; [rewrite Hp; simpl in *; lia|]. split.
    { pose proof (size_paths (q :: rest) ltac:(by constructor)) as Hs1.
      pose proof (size_paths rest Hndrest) as Hs2.
      pose proof (size_paths (p :: rest) Hnd') as Hs3.
      simpl in Hs1, Hs3, Hlen.
      intros t [-> [->|[->| ->]]%prefix_of_two]%Hpre.
      - simpl. rewrite Hs1. lia.
      - simpl. rewrite Hdiff, Hs2. lia.
      - rewrite Hlive. simpl. rewrite Hs3. lia. }
    split.
    { intros p'. rewrite Hp. intros [->|?]%elem_of_cons; [right; by left|].
      left. by right. }
    split; [by intros ? ->%list_elem_of_singleton|].
    split; [|apply NoDup_singleton].
    intros q' ->%list_elem_of_singleton. split; [by left|].
    rewrite Hp. intros [?|?]%elem_of_cons; done.
Qed.

(** A sequence of calls, seen from the files.  [past] holds the paths
    persisted before the sequence and [gone] the paths deleted before
    it. *)
Lemma run_files n calls :
  ∀ self (files : gset string) (past gone : list string),
    ¬ (coef self == 0)%Q →
    never_nan (monitor self) calls →
    n_models self = n →
    NoDup (paths self) →
    files = list_to_set (paths self) →
    Z.of_nat (length (paths self)) ≤ n →
    (∀ p, p ∈ paths self → p ∈ past) →
    NoDup gone →
    (∀ q, q ∈ gone → q ∈ past ∧ q ∉ paths self) →
    NoDup (resolved_paths format_field self calls) →
    (∀ p, p ∈ resolved_paths format_field self calls → p ∉ past) →
    let traces := (run format_field self calls).2 in
    (∀ i evs q, traces !! i = Some evs → q ∈ deletes evs →
       q ∈ past
       ∨ ∃ j evs', (j < i)%nat ∧ traces !! j = Some evs' ∧ q ∈ persists evs')
    ∧ NoDup (gone ++ deletes (concat traces))
    ∧ (∀ t, t `prefix_of` concat traces →
         Z.of_nat (size (live_from files t)) ≤ n)
    ∧ NoDup (paths (run format_field self calls).1)
    ∧ live_from files (concat traces)
      = list_to_set (paths (run format_field self calls).1).
Proof.
  induction calls as [|[epoch logs] calls IH];
    intros self files past gone Hcoef Hnever Hn Hnd Hfiles Hlen Hpast Hgone
      Hgone' Hres Hfresh.
  { simpl. split; [by intros i evs q ?|]. split; [by rewrite app_nil_r|].
    split; [|done].
    intros t ->%prefix_nil_inv. simpl. subst files.
    rewrite size_paths by done. lia. }
  cbn [resolved_paths] in Hres, Hfresh.
  apply NoDup_app in Hres as (Hres1 & Hres12 & Hres2).
  apply Forall_cons in Hnever as [Hnow Hnever]. cbn [snd] in Hnow.
  rewrite run_cons. cbn [snd concat].
  destruct (call_paths self epoch logs) as [Hn' _].
  pose proof (step_same_config _ _ _ _ _ _ _
                (on_epoch_end_inv format_field epoch logs self))
    as (Hmon' & _ & _ & _ & _ & _ & Hcoef').
  destruct (call_files self epoch logs files
              (never_nan_scored self logs Hcoef Hnow) Hnd Hfiles) as
    (Hnd' & Hlive & Hlen' & Hprefix & Hnew & Hpers & Hdel & Hnddel).
  { lia. }
  { intros p Hp Hin. apply (Hfresh p); [|by apply Hpast].
    apply elem_of_app. left. rewrite Hp. by left. }
  set (res := on_epoch_end format_field epoch logs self) in *.
  assert (∀ p, p ∈ persists res.1.2 → p ∉ past) as Hpers_fresh.
  { intros p Hp%Hpers. apply Hfresh, elem_of_app. left. rewrite Hp. by left. }
  destruct (IH res.1.1 (live_from files res.1.2) (past ++ persists res.1.2)
              (gone ++ deletes res.1.2)) as (IH1 & IH2 & IH3 & IH4 & IH5).
  - by rewrite Hcoef'.
  - by rewrite Hmon'.
  - lia.
  - done.
  - done.
  - lia.
  - intros p [?|?]%Hnew; apply elem_of_app; [left; by apply Hpast|by right].
  - apply NoDup_app. split; [done|]. split; [|done].
    intros q Hq [Hq' _]%Hdel. by destruct (Hgone' q Hq).
  - intros q [Hq|Hq]%elem_of_app.
    + destruct (Hgone' q Hq) as [Hqpast Hqpaths].
      split; [apply elem_of_app; by left|].
      intros [?|?%Hpers_fresh]%Hnew; done.
    + destruct (Hdel q Hq) as [Hqpaths Hqpaths'].
      split; [apply elem_of_app; left; by apply Hpast|done].
  - done.
  - intros p Hp [Hin|Hin]%elem_of_app.
    + apply (Hfresh p); [|done]. apply elem_of_app. by right.
    + apply Hpers in Hin. apply (Hres12 p); [|done]. rewrite Hin. by left.
  - split; [|split; [|split; [|split]]].
    + intros [|i] evs q Hevs Hq; simpl in Hevs.
      * injection Hevs as <-. left. by apply Hpast, Hdel.
      * destruct (IH1 i evs q Hevs Hq) as [[?|?]%elem_of_app|(j & evs' & ? & ? & ?)].
        -- by left.
        -- right. exists 0%nat, res.1.2. split; [lia|]. done.
        -- right. exists (S j), evs'. split; [lia|]. done.
    + by rewrite deletes_app, app_assoc.
    + intros t [Ht|(t' & -> & Ht)]%prefix_app_cases.
      * rewrite <- Hn. by apply Hprefix.
      * rewrite live_from_app. by apply IH3.
    + done.
    + by rewrite live_from_app.
Qed.

(** *** The claims *)

Lemma init_run_is_heap path mon verb n weights mode per calls :
  is_heap (tracker (run format_field
                      (__init__ path mon verb n weights mode per).1 calls).1).
Proof.
  apply run_is_heap.
  destruct (init_fields path mon verb n weights mode per)
    as (_ & _ & _ & _ & _ & _ & ->). apply is_heap_nil.
Qed.

(** Calls that never log [nan] keep it out of the tracker. *)
Lemma run_not_nan calls :
  ∀ self,
    ¬ (coef self == 0)%Q → never_nan (monitor self) calls →
    Forall not_nan (tracker self) →
    Forall not_nan (tracker (run format_field self calls).1).
Proof.
  induction calls as [|[epoch logs] calls IH]; intros self Hc Hnever Hnan; [done|].
  apply Forall_cons in Hnever as [Hnow Hnever]. cbn [snd] in Hnow.
  rewrite run_cons. cbn [fst].
  pose proof (on_epoch_end_inv format_field epoch logs self) as Hstep.
  pose proof (step_same_config _ _ _ _ _ _ _ Hstep)
    as (Hmon' & _ & _ & _ & _ & _ & Hcoef').
  apply IH; [by rewrite Hcoef'|by rewrite Hmon'|].
  eapply step_not_nan; [exact Hstep| |done].
  by apply never_nan_scored.
Qed.

Lemma init_run_not_nan path mon verb n weights mode per calls :
  never_nan mon calls →
  Forall not_nan (tracker (run format_field
                             (__init__ path mon verb n weights mode per).1
                             calls).1).
Proof.
  intros Hnever.
  destruct (init_fields path mon verb n weights mode per)
    as (Hmon & _ & _ & _ & _ & _ & Ht).
  apply run_not_nan; [apply init_coef_nonzero|by rewrite Hmon|].
  rewrite Ht. constructor.
Qed.

(** The cases of a call at the interval whose path resolves and whose
    metric is present. *)
Lemma call_at_interval self epoch logs path current :
  let cand := candidate self epoch current path in
  let res := on_epoch_end format_field epoch logs self in
  period self ≤ epochs_since_last_save self + 1 →
  str_format format_field (filepath self) (epoch + 1) (default ∅ logs) = Some path →
  default ∅ logs !! monitor self = Some current →
  (Z.of_nat (length (tracker self)) < n_models self
   ∧ tracker res.1.1 = heapq.heappush (tracker self) cand
   ∧ tracker res.1.1 ≡ₚ cand :: tracker self
   ∧ file_ops res.1.2 = [persist_event self path]
   ∧ res.2 = inr tt)
  ∨ (n_models self ≤ Z.of_nat (length (tracker self))
     ∧ ∃ top rest,
         tracker self = top :: rest ∧ tuple_ltb top cand = true
         ∧ tracker res.1.1 ≡ₚ cand :: rest
         ∧ file_ops res.1.2 = [os_remove (item_path top); persist_event self path]
         ∧ res.2 = inr tt)
  ∨ (n_models self ≤ Z.of_nat (length (tracker self))
     ∧ (∀ top, head (tracker self) = Some top → tuple_ltb top cand = false)
     ∧ item_score cand ≠ nan
     ∧ tracker res.1.1 = tracker self
     ∧ file_ops res.1.2 = [])
  ∨ (n_models self ≤ Z.of_nat (length (tracker self))
     ∧ item_score cand = nan
     ∧ tracker res.1.1 = tracker self
     ∧ ((file_ops res.1.2 = [os_remove path; persist_event self path]
         ∧ res.2 = inr tt)
        ∨ (tracker self = [] ∧ 0 < verbose self
           ∧ res.1.2 = [] ∧ res.2 = inl IndexError))).
Proof.
  intros cand res Hp Hf Hm.
  pose proof (on_epoch_end_inv format_field epoch logs self) as Hstep.
  fold res in Hstep. destruct res as [[self' evs] r]. simpl in Hstep |- *.
  inversion Hstep
    as [ | | |path' current' evs' _ Hf' Hm' Hlt Hops
       |path' current' top rest heap evs' _ Hf' Hm' Hn Ht Hlt Hpp Hops
       |path' current' evs' r' _ Hf' Hm' Hn Htop Hscore Hops
       |path' current' evs' r' _ Hf' Hm' Hn Hscore Hcases];
    subst; try lia; try congruence;
    assert (path' = path) as -> by congruence;
    assert (current' = current) as -> by congruence.
  - left. split; [done|]. split; [done|]. split; [apply heappush_perm|done].
  - right; left. split; [done|]. exists top, rest.
    split; [done|]. split; [done|]. split; [|done].
    destruct (heappushpop_perm top rest cand Hlt) as [Hperm _].
    rewrite Ht in Hpp. fold cand in Hpp. rewrite Hpp in Hperm. done.
  - right; right; left. done.
  - right; right; right. done.
Qed.

(** C1. The claim fails on a monitored value that is [nan]: the code
    misses this case.  The object of the sample holds two checkpoints
    (room for two, mode [min], [val_loss] 0.5 and 0.3) and the third call
    logs [val_loss = nan].  The pool is full and the candidate
    [(nan, 3, model_3.h5)] is strictly above no tuple at all, so by the
    claim it is discarded with no persist and no delete.  [heappushpop]
    does hand it back and the tracker is unchanged, but line 87 compares
    it with a tuple built anew, [!=] holds because [nan != nan], and the
    call passes the candidate's own path, never persisted, to
    [os.remove] and then saves it. *)
Theorem C1_nan_candidate :
  let self := (run format_field sample_self (take 2 sample_calls)).1 in
  let cand := candidate self 2 nan "model_3.h5" in
  let res := on_epoch_end format_field 2 (val_loss nan) self in
  (period self ≤ epochs_since_last_save self + 1
   ∧ str_format format_field (filepath self) (2 + 1) (default ∅ (val_loss nan))
     = Some "model_3.h5"%string
   ∧ default ∅ (val_loss nan) !! monitor self = Some nan
   ∧ n_models self ≤ Z.of_nat (length (tracker self)))
  ∧ tracker self = sample_top :: sample_rest
  ∧ (∀ m, tuple_ltb m cand = false)
  ∧ tracker res.1.1 = tracker self
  ∧ res.1.2 = [os_remove "model_3.h5"; model_save "model_3.h5"]
  ∧ res.2 = inr tt.
Proof.
  cbv zeta. split; [|split; [|split]].
  - split; [by vm_compute|]. split; [reflexivity|]. split; [reflexivity|].
    by vm_compute.
  - reflexivity.
  - intros m. apply not_true_is_false. intros [_ H]%tuple_ltb_not_nan.
    by apply H.
  - vm_compute. done.
Qed.

(** C2. Starting from a freshly constructed object with positive
    [n_models], the tracker holds at most [n_models] entries after every
    call of every sequence of calls. *)
Theorem C2_capacity path mon verb n weights mode per calls :
  0 < n →
  Z.of_nat (length (tracker (run format_field
                               (__init__ path mon verb n weights mode per).1
                               calls).1)) ≤ n.
Proof.
  intros Hn.
  pose proof (init_fields path mon verb n weights mode per)
    as (_ & _ & Hnm & _ & _ & _ & Ht).
  cut (n_models (run format_field (__init__ path mon verb n weights mode per).1 calls).1 = n
       ∧ Z.of_nat (length (tracker (run format_field (__init__ path mon verb n weights mode per).1 calls).1)) ≤ n).
  { by intros [_ ?]. }
  apply (run_invariant format_field
           (λ s, n_models s = n ∧ Z.of_nat (length (tracker s)) ≤ n)).
  - intros s epoch logs [Hs Hl].
    pose proof (on_epoch_end_inv format_field epoch logs s) as Hstep.
    pose proof (step_same_config _ _ _ _ _ _ _ Hstep) as (_ & _ & _ & Hn' & _).
    split; [congruence|].
    apply step_tracker in Hstep
      as [[-> _]|[(p & c & Hlt & _ & Hperm & _)
                 |[(p & c & top & rest & Hle & _ & Htr & _ & Hperm & _)
                  |(p & c & _ & _ & _ & -> & _)]]];
      [done| | |done]; rewrite Hperm; [simpl; lia|].
    rewrite Htr in Hl. simpl in *. lia.
  - rewrite Hnm, Ht. simpl. lia.
Qed.

(** C3. The claim fails on a monitored value that is [nan], by the
    defect of C1.  With room for one checkpoint and [val_loss] 0.5 and
    then [nan] the resolved paths are distinct; the second call passes
    [model_2.h5] to [os.remove], a path no earlier call persisted, and
    then saves it without tracking it, so two files are persisted and
    not deleted where [n_models] is 1. *)
Theorem C3_nan_candidate :
  let fresh := (__init__ "model.h5" "val_loss" 0 1 false "min" 1).1 in
  let calls := [(0, val_loss (finite 0.5)); (1, val_loss nan)] in
  let traces := (run format_field fresh calls).2 in
  resolved_paths format_field fresh calls = ["model_1.h5"; "model_2.h5"]%string
  ∧ traces = [[model_save "model_1.h5"];
              [os_remove "model_2.h5"; model_save "model_2.h5"]]
  ∧ persists (concat (take 1 traces)) = ["model_1.h5"%string]
  ∧ deletes (concat traces) = ["model_2.h5"%string]
  ∧ n_models fresh = 1
  ∧ size (live (concat traces)) = 2%nat.
Proof. vm_compute. repeat split. Qed.

(** C4. A call persists at most once and deletes at most once; a call
    that deletes makes exactly two calls on the file system, first
    [os.remove] and then the persist; a full-pool call whose candidate
    is above the first entry of the tracker is such a call and deletes
    the file of that entry; and on a heap without [nan] that entry is a
    minimum of the tracker, so a full-pool call whose candidate is above
    a minimum deletes the file of the minimum (with a [nan] in the heap
    it need not: [nan_hides_minimum]). *)
Theorem C4_effects_per_call :
  (∀ self epoch logs,
     let evs := (on_epoch_end format_field epoch logs self).1.2 in
     (length (persists evs) ≤ 1)%nat ∧ (length (deletes evs) ≤ 1)%nat
     ∧ (deletes evs ≠ [] →
        ∃ old new, file_ops evs = [os_remove old; persist_event self new]))
  ∧ (∀ self epoch logs path current top rest,
       let evs := (on_epoch_end format_field epoch logs self).1.2 in
       period self ≤ epochs_since_last_save self + 1 →
       str_format format_field (filepath self) (epoch + 1) (default ∅ logs)
         = Some path →
       default ∅ logs !! monitor self = Some current →
       n_models self ≤ Z.of_nat (length (tracker self)) →
       tracker self = top :: rest →
       tuple_ltb top (candidate self epoch current path) = true →
       file_ops evs = [os_remove (item_path top); persist_event self path])
  ∧ (∀ self epoch logs path current m,
       let evs := (on_epoch_end format_field epoch logs self).1.2 in
       is_heap (tracker self) →
       Forall not_nan (tracker self) →
       period self ≤ epochs_since_last_save self + 1 →
       str_format format_field (filepath self) (epoch + 1) (default ∅ logs)
         = Some path →
       default ∅ logs !! monitor self = Some current →
       n_models self ≤ Z.of_nat (length (tracker self)) →
       is_minimum m (tracker self) →
       tuple_ltb m (candidate self epoch current path) = true →
       file_ops evs = [os_remove (item_path m); persist_event self path]).
Proof.
  split; [|split].
  - intros self epoch logs evs.
    pose proof (on_epoch_end_inv format_field epoch logs self) as Hstep.
    fold evs in Hstep. clearbody evs.
    apply step_tracker in Hstep
      as [[_ Hops]|[(p & c & _ & _ & _ & Hops)
                   |[(p & c & top & rest & _ & _ & _ & _ & _ & Hops)
                    |(p & c & _ & _ & _ & _ & Hops)]]];
      rewrite <- persists_file_ops, <- deletes_file_ops, Hops.
    + simpl. split; [lia|]. split; [lia|done].
    + rewrite persists_persist_event, deletes_persist_event. simpl.
      split; [lia|]. split; [lia|done].
    + change ([os_remove (item_path top); persist_event self p])
        with ([os_remove (item_path top)] ++ [persist_event self p]).
      rewrite persists_app, deletes_app, persists_persist_event,
        deletes_persist_event. simpl.
      split; [lia|]. split; [lia|]. intros _. by do 2 eexists.
    + change ([os_remove p; persist_event self p])
        with ([os_remove p] ++ [persist_event self p]).
      rewrite persists_app, deletes_app, persists_persist_event,
        deletes_persist_event. simpl.
      split; [lia|]. split; [lia|]. intros _. by do 2 eexists.
  - intros self epoch logs path current top rest evs Hp Hf Hm Hn Ht Hlt.
    destruct (call_at_interval self epoch logs path current Hp Hf Hm)
      as [(Hn' & _)|[(_ & top' & rest' & Ht' & _ & _ & Hops & _)
                    |[(_ & Htop & _)|(_ & Hnan & _)]]].
    + lia.
    + rewrite Ht in Ht'. by injection Ht' as <- <-.
    + rewrite Ht in Htop. specialize (Htop top eq_refl). congruence.
    + by apply tuple_ltb_not_nan in Hlt as [_ Hlt].
  - intros self epoch logs path current m evs Hh Hnan Hp Hf Hm Hn Hmin Hlt.
    assert (not_nan (candidate self epoch current path)) as Hcand.
    { by apply tuple_ltb_not_nan in Hlt as [_ Hlt]. }
    destruct (full_pool_call self epoch logs path current Hh Hnan Hcand
                Hp Hf Hm Hn) as [Hyes _].
    by destruct (Hyes m Hmin Hlt) as (top & rest & _ & _ & _ & _ & _ & Hops & _).
Qed.

(** C5. [on_epoch_end] first increments the counter.  If the counter is
    still below [period], the call returns, emits nothing at all and
    changes nothing but the counter, which keeps its incremented value.
    If the counter reaches [period], it is reset to 0.  So a fresh
    instance with period [k] emits nothing during its first [k - 1]
    calls, whatever their logs, and its [k]-th call persists the
    resolved path when the metric is present, the path resolves and
    [n_models] is positive. *)
Theorem C5_interval_gate :
  (∀ self epoch logs,
     epochs_since_last_save self + 1 < period self →
     on_epoch_end format_field epoch logs self
     = (set_epochs_since_last_save (epochs_since_last_save self + 1) self,
        [], inr tt))
  ∧ (∀ self epoch logs,
       period self ≤ epochs_since_last_save self + 1 →
       epochs_since_last_save (on_epoch_end format_field epoch logs self).1.1 = 0)
  ∧ (∀ path mon verb n weights mode k calls,
       let fresh := (__init__ path mon verb n weights mode k).1 in
       Z.of_nat (length calls) < k →
       (run format_field fresh calls).2 = replicate (length calls) []
       ∧ epochs_since_last_save (run format_field fresh calls).1
         = Z.of_nat (length calls)
       ∧ tracker (run format_field fresh calls).1 = [])
  ∧ (∀ path mon verb n weights mode k calls epoch logs p current,
       let fresh := (__init__ path mon verb n weights mode k).1 in
       let self := (run format_field fresh calls).1 in
       Z.of_nat (length calls) + 1 = k →
       0 < n →
       str_format format_field (filepath self) (epoch + 1) (default ∅ logs)
         = Some p →
       default ∅ logs !! mon = Some current →
       persists (on_epoch_end format_field epoch logs self).1.2 = [p]
       ∧ deletes (on_epoch_end format_field epoch logs self).1.2 = []).
Proof.
  assert (∀ path mon verb n weights mode k calls,
    let fresh := (__init__ path mon verb n weights mode k).1 in
    Z.of_nat (length calls) < k →
    run format_field fresh calls
    = (set_epochs_since_last_save (Z.of_nat (length calls)) fresh,
       replicate (length calls) [])) as Hwait.
  { intros path mon verb n weights mode k calls fresh Hk.
    destruct (init_fields path mon verb n weights mode k)
      as (_ & _ & _ & _ & Hper & Hc & _). subst fresh.
    rewrite run_wait by (rewrite Hc, Hper; lia). by rewrite Hc. }
  split; [|split; [|split]].
  - intros self epoch logs Hlt.
    pose proof (on_epoch_end_inv format_field epoch logs self) as Hstep.
    destruct (on_epoch_end _ _ _ _) as [[self' evs] r]. simpl in Hstep.
    inversion Hstep; subst; try lia. done.
  - intros self epoch logs Hle.
    pose proof (on_epoch_end_inv format_field epoch logs self) as Hstep.
    destruct (on_epoch_end _ _ _ _) as [[self' evs] r]. simpl in Hstep |- *.
    inversion Hstep; subst; try lia; done.
  - intros path mon verb n weights mode k calls fresh Hk. subst fresh.
    rewrite (Hwait path mon verb n weights mode k calls Hk).
    destruct (init_fields path mon verb n weights mode k)
      as (_ & _ & _ & _ & _ & _ & Ht).
    by rewrite <- Ht.
  - intros path mon verb n weights mode k calls epoch logs p current fresh self
      Hk Hn Hf Hm.
    assert (Z.of_nat (length calls) < k) as Hlt by lia.
    pose proof (Hwait path mon verb n weights mode k calls Hlt) as Hrun.
    destruct (init_fields path mon verb n weights mode k)
      as (Hmon & _ & Hnm & _ & Hper & _ & Ht).
    assert (monitor self = mon ∧ n_models self = n ∧ period self = k
            ∧ epochs_since_last_save self = Z.of_nat (length calls)
            ∧ tracker self = []) as (Hmon' & Hnm' & Hper' & Hc' & Ht').
    { unfold self, fresh. rewrite Hrun. by cbn. }
    clearbody self. clear Hrun.
    pose proof (on_epoch_end_inv format_field epoch logs self) as Hstep.
    destruct (on_epoch_end _ _ _ _) as [[self' evs] r]. simpl in Hstep |- *.
    inversion Hstep; subst evs; try lia; try congruence.
    1:{ rewrite <- persists_file_ops, <- deletes_file_ops.
        match goal with H : file_ops _ = _ |- _ => rewrite H end.
        rewrite persists_persist_event, deletes_persist_event. split; congruence. }
    all: match goal with
         | H : n_models _ ≤ _ |- _ => rewrite Ht' in H; simpl in H
         end; lia.
Qed.

(** C6 (as amended). In a call that reaches the evaluation step with
    logs that lack the monitored key, nothing is persisted or deleted,
    the tracker is unchanged and the counter is reset to 0.  When the
    path template resolves against the logs, the call emits exactly the
    warning and returns; when [str.format] raises, the call raises
    before the warning and emits nothing. *)
Theorem C6_missing_metric self epoch logs :
  period self ≤ epochs_since_last_save self + 1 →
  default ∅ logs !! monitor self = None →
  let res := on_epoch_end format_field epoch logs self in
  res.1.1 = set_epochs_since_last_save 0 self
  ∧ tracker res.1.1 = tracker self
  ∧ epochs_since_last_save res.1.1 = 0
  ∧ persists res.1.2 = [] ∧ deletes res.1.2 = []
  ∧ (is_Some (str_format format_field (filepath self) (epoch + 1) (default ∅ logs)) →
     res.1.2 = [warn ("Can save best model only with " +:+ monitor self
                      +:+ " available, skipping.")]
     ∧ res.2 = inr tt)
  ∧ (str_format format_field (filepath self) (epoch + 1) (default ∅ logs) = None →
     res.1.2 = [] ∧ res.2 = inl FormatError).
Proof.
  intros Hp Hm res.
  pose proof (on_epoch_end_inv format_field epoch logs self) as Hstep.
  fold res in Hstep. destruct res as [[self' evs] r]. simpl in Hstep |- *.
  inversion Hstep; subst; try lia; try congruence.
  - do 5 (split; [done|]). split; [|done].
    intros [? ?]. congruence.
  - do 5 (split; [done|]). split; [done|]. congruence.
Qed.


(** C8. With [n_models = 2], mode [min], monitor [val_loss] and
    [period = 1], and with [val_loss] 0.5, 0.3, 0.4 and 0.6 in epochs 1
    to 4: the pool holds the raw score 0.5 after the first call, and 0.5
    and 0.3 after the second; the third call deletes the file of epoch
    1 and then saves that of epoch 3, and the pool holds 0.4 and 0.3;
    the fourth call makes no call on the file system and leaves the
    tracker as it was. *)
Theorem C8_scenario :
  let self0 := (__init__ "model.h5" "val_loss" 0 2 false "min" 1).1 in
  let r1 := on_epoch_end format_field 0 (val_loss (finite 0.5)) self0 in
  let r2 := on_epoch_end format_field 1 (val_loss (finite 0.3)) r1.1.1 in
  let r3 := on_epoch_end format_field 2 (val_loss (finite 0.4)) r2.1.1 in
  let r4 := on_epoch_end format_field 3 (val_loss (finite 0.6)) r3.1.1 in
  (raw_scores r1.1.1 = [finite 0.5] ∧ r1.1.2 = [model_save "model_1.h5"])
  ∧ (raw_scores r2.1.1 = [finite 0.5; finite 0.3]
     ∧ r2.1.2 = [model_save "model_2.h5"])
  ∧ (raw_scores r3.1.1 = [finite 0.4; finite 0.3]
     ∧ r3.1.2 = [os_remove "model_1.h5"; model_save "model_3.h5"]
     ∧ item_epoch <$> tracker r3.1.1 = [3; 2])
  ∧ (r4.1.2 = [] ∧ tracker r4.1.1 = tracker r3.1.1 ∧ r4.2 = inr tt)
  ∧ run format_field self0
      [(0, val_loss (finite 0.5)); (1, val_loss (finite 0.3));
       (2, val_loss (finite 0.4)); (3, val_loss (finite 0.6))]
    = (r4.1.1, [r1.1.2; r2.1.2; r3.1.2; r4.1.2]).
Proof. vm_compute. repeat split. Qed.

(** C9. [__init__] itself stores the path with [_{epoch:d}] inserted
    between the base name and the extension of its last component
    ([dir/model.h5] becomes [dir/model_{epoch:d}.h5]).  Every call at
    the interval formats this template with [epoch + 1] and the logs: if
    [str.format] raises, the call raises and does nothing else; if it
    gives a path, then that path is the one the call persists when it
    stores the candidate (below capacity) or replaces the first entry
    (at capacity, first entry below the candidate), it is the path of
    the tuple that enters the tracker, and no call persists any other
    path.  When [{epoch:d}] is the only replacement field of the
    template, as it is when the path given to [__init__] has no brace,
    the template resolves for all logs without the key [epoch], and
    distinct epochs resolve to distinct paths. *)
Theorem C9_path_template :
  filepath (__init__ "dir/model.h5" "val_loss" 0 5 false "auto" 1).1
    = "dir/model_{epoch:d}.h5"%string
  ∧ (∀ path mon verb n weights mode per,
       let head := (os_path.split path).1 in
       let tail := (os_path.split path).2 in
       let model_name := (os_path.splitext tail).1 in
       let ext := (os_path.splitext tail).2 in
       filepath (__init__ path mon verb n weights mode per).1
         = os_path.join head (model_name +:+ "_{epoch:d}" +:+ ext)
       ∧ model_name +:+ ext = tail)
  ∧ (∀ self epoch logs,
       let res := on_epoch_end format_field epoch logs self in
       period self ≤ epochs_since_last_save self + 1 →
       str_format format_field (filepath self) (epoch + 1) (default ∅ logs) = None →
       res.1.2 = [] ∧ res.2 = inl FormatError ∧ tracker res.1.1 = tracker self)
  ∧ (∀ self epoch logs p current,
       let res := on_epoch_end format_field epoch logs self in
       let cand := candidate self epoch current p in
       period self ≤ epochs_since_last_save self + 1 →
       str_format format_field (filepath self) (epoch + 1) (default ∅ logs)
         = Some p →
       default ∅ logs !! monitor self = Some current →
       (Z.of_nat (length (tracker self)) < n_models self
        ∨ ∃ top rest, tracker self = top :: rest ∧ tuple_ltb top cand = true) →
       persists res.1.2 = [p] ∧ item_path cand = p ∧ cand ∈ tracker res.1.1)
  ∧ (∀ self epoch logs p,
       p ∈ persists (on_epoch_end format_field epoch logs self).1.2 →
       str_format format_field (filepath self) (epoch + 1) (default ∅ logs)
         = Some p)
  ∧ (∀ path mon verb n weights mode per,
       brace_free path →
       ∃ pre post,
         only_epoch_field (filepath (__init__ path mon verb n weights mode per).1)
           pre post)
  ∧ (∀ self calls pre post,
       only_epoch_field (filepath self) pre post →
       only_epoch_field (filepath (run format_field self calls).1) pre post)
  ∧ (∀ self pre post epoch logs,
       only_epoch_field (filepath self) pre post →
       default ∅ logs !! "epoch"%string = None →
       str_format format_field (filepath self) (epoch + 1) (default ∅ logs)
       = Some (string_of_list_ascii pre +:+ str_of_int (epoch + 1)
               +:+ string_of_list_ascii post))
  ∧ (∀ self pre post e1 logs1 e2 logs2 p1 p2,
       only_epoch_field (filepath self) pre post →
       str_format format_field (filepath self) (e1 + 1) (default ∅ logs1) = Some p1 →
       str_format format_field (filepath self) (e2 + 1) (default ∅ logs2) = Some p2 →
       e1 ≠ e2 → p1 ≠ p2).
Proof.
  split; [reflexivity|].
  split; [|split; [|split; [|split; [|split; [|split; [|split]]]]]].
  - intros path mon verb n weights mode per head tail model_name ext.
    subst head tail model_name ext.
    unfold __init__, os_path.split, os_path.splitext.
    destruct (os_path.split_chars (list_ascii_of_string path)) as [h tl].
    cbn [fst snd]. rewrite list_ascii_of_string_of_list_ascii.
    pose proof (splitext_chars_app tl) as Happ.
    destruct (os_path.splitext_chars tl) as [mn ex]. cbn [fst snd filepath] in *.
    split; [done|]. by rewrite <- str_of_chars_app, Happ.
  - intros self epoch logs res Hp Hf.
    pose proof (on_epoch_end_inv format_field epoch logs self) as Hstep.
    fold res in Hstep. destruct res as [[self' evs] r]. simpl in Hstep |- *.
    inversion Hstep; subst; try lia; try congruence. done.
  - intros self epoch logs p current res cand Hp Hf Hm Hcase. subst res cand.
    split; [|split; [done|]].
    + rewrite <- persists_file_ops.
      destruct (call_at_interval self epoch logs p current Hp Hf Hm)
        as [(_ & _ & _ & Hops & _)
           |[(_ & top & rest & _ & _ & _ & Hops & _)
            |[(Hn & Htop & _)|(Hn & Hnan & _)]]].
      * by rewrite Hops, persists_persist_event.
      * rewrite Hops.
        change [os_remove (item_path top); persist_event self p]
          with ([os_remove (item_path top)] ++ [persist_event self p]).
        by rewrite persists_app, persists_persist_event.
      * destruct Hcase as [Hlt|(top & rest & Ht & Hlt)]; [lia|].
        rewrite Ht in Htop. specialize (Htop top eq_refl). congruence.
      * destruct Hcase as [Hlt|(top & rest & Ht & Hlt)]; [lia|].
        by apply tuple_ltb_not_nan in Hlt as [_ Hlt].
    + destruct (call_at_interval self epoch logs p current Hp Hf Hm)
        as [(_ & _ & Hperm & _)
           |[(_ & top & rest & _ & _ & Hperm & _)
            |[(Hn & Htop & _)|(Hn & Hnan & _)]]].
      * rewrite Hperm. by left.
      * rewrite Hperm. by left.
      * destruct Hcase as [Hlt|(top & rest & Ht & Hlt)]; [lia|].
        rewrite Ht in Htop. specialize (Htop top eq_refl). congruence.
      * destruct Hcase as [Hlt|(top & rest & Ht & Hlt)]; [lia|].
        by apply tuple_ltb_not_nan in Hlt as [_ Hlt].
  - intros self epoch logs p Hp.
    destruct (call_paths self epoch logs) as [_ Hcases].
    rewrite <- persists_file_ops in Hp.
    assert (resolved_path format_field self epoch logs = Some p) as Hres.
    { destruct Hcases as [[_ Hops]|[(p' & Hres & _ & _ & Hops)
                                   |[(p' & q & rest & Hres & _ & _ & Hops)
                                    |(p' & Hres & _ & _ & Hops)]]];
        rewrite Hops in Hp.
      - by apply elem_of_nil in Hp.
      - rewrite persists_persist_event in Hp.
        by apply list_elem_of_singleton in Hp as ->.
      - change [os_remove q; persist_event self p']
          with ([os_remove q] ++ [persist_event self p']) in Hp.
        rewrite persists_app, persists_persist_event in Hp.
        by apply list_elem_of_singleton in Hp as ->.
      - change [os_remove p'; persist_event self p']
          with ([os_remove p'] ++ [persist_event self p']) in Hp.
        rewrite persists_app, persists_persist_event in Hp.
        by apply list_elem_of_singleton in Hp as ->. }
    unfold resolved_path in Hres. by destruct (_ <=? _).
  - intros. by apply init_only_epoch_field.
  - intros self calls pre post Ht.
    destruct (run_same_config format_field self calls) as (_ & _ & -> & _). done.
  - intros self pre post epoch logs Ht Hl. by apply str_format_only_epoch.
  - intros self pre post e1 logs1 e2 logs2 p1 p2 Ht H1 H2 Hne.
    eapply str_format_only_epoch_inj; eauto. lia.
Qed.

(** C10. The claim fails on a monitored value that is [nan], by the
    defect of C1.  With [n_models = 0] the tracker does stay empty and
    [heappushpop] on the empty list does hand the candidate back, for
    every candidate; but the candidate [(nan, 1, model_1.h5)] is not
    [==] to the tuple line 87 builds anew, and the call passes its path
    to [os.remove] and then saves it. *)
Theorem C10_nan_candidate :
  let fresh := (__init__ "model.h5" "val_loss" 0 0 false "min" 1).1 in
  let cand := candidate fresh 0 nan "model_1.h5" in
  let r := run format_field fresh [(0, val_loss nan)] in
  n_models fresh = 0
  ∧ heapq.heappushpop (tracker fresh) cand = ([], cand)
  ∧ tuple_eqb cand cand = false
  ∧ tracker r.1 = []
  ∧ r.2 = [[os_remove "model_1.h5"; model_save "model_1.h5"]]
  ∧ persists (concat r.2) = ["model_1.h5"%string]
  ∧ deletes (concat r.2) = ["model_1.h5"%string].
Proof. vm_compute. repeat split. Qed.

(** *** Further properties of the retention policy *)

(** The tracker of an object made by [__init__] is a heap after every
    sequence of calls: no entry is [<] its parent.  If no call logged
    [nan] for the monitored quantity, no score of the tracker is [nan],
    and then the first entry is a minimum of the retained tuples. *)
Theorem tracker_heap_invariant path mon verb n weights mode per calls :
  let self := (run format_field (__init__ path mon verb n weights mode per).1
                 calls).1 in
  is_heap (tracker self)
  ∧ (never_nan mon calls → Forall not_nan (tracker self))
  ∧ (Forall not_nan (tracker self) →
     ∀ top rest, tracker self = top :: rest → is_minimum top (tracker self)).
Proof.
  intros self.
  pose proof (init_run_is_heap path mon verb n weights mode per calls) as Hh.
  fold self in Hh.
  split; [done|]. split; [apply init_run_not_nan|].
  intros Hnan top rest Ht. rewrite Ht in *.
  by apply heap_root_minimum.
Qed.

(** When no call logs [nan] for the monitored quantity and the resolved
    paths are pairwise distinct, the retained tuples name distinct
    files, and after every sequence of calls the files persisted and not
    deleted since are exactly the files the retained tuples name. *)
Theorem retained_files_are_live path mon verb n weights mode per calls :
  let fresh := (__init__ path mon verb n weights mode per).1 in
  let final := (run format_field fresh calls).1 in
  let traces := (run format_field fresh calls).2 in
  0 ≤ n →
  never_nan mon calls →
  NoDup (resolved_paths format_field fresh calls) →
  NoDup (item_path <$> tracker final)
  ∧ live (concat traces) = list_to_set (item_path <$> tracker final).
Proof.
  intros fresh final traces Hn Hnever Hres.
  destruct (init_fields path mon verb n weights mode per)
    as (Hmon & _ & Hnm & _ & _ & _ & Ht). fold fresh in Hmon, Hnm, Ht.
  destruct (run_files n calls fresh ∅ [] []) as (_ & _ & _ & H4 & H5);
    unfold paths; rewrite ?Ht; simpl; try done.
  - apply init_coef_nonzero.
  - by rewrite Hmon.
  - constructor.
  - constructor.
  - by intros ? ?%elem_of_nil.
  - by intros ? _ ?%elem_of_nil.
Qed.

(** With mode [min] a lower monitored value has the higher score and
    its tuple is above the other one's; with mode [max] a higher
    monitored value has. *)
Theorem direction_orders_scores path mon verb n weights per (a b : Q)
    (e1 e2 : Z) (p1 p2 : string) :
  let smin := (__init__ path mon verb n weights "min" per).1 in
  let smax := (__init__ path mon verb n weights "max" per).1 in
  (a < b)%Q →
  (b * coef smin < a * coef smin)%Q
  ∧ tuple_ltb (candidate smin e1 (finite b) p1) (candidate smin e2 (finite a) p2)
    = true
  ∧ (a * coef smax < b * coef smax)%Q
  ∧ tuple_ltb (candidate smax e1 (finite a) p1) (candidate smax e2 (finite b) p2)
    = true.
Proof.
  intros smin smax Hab.
  assert (coef smin = (-1)%Q ∧ coef smax = 1%Q) as [Hmin Hmax].
  { unfold smin, smax, __init__. destruct (os_path.split path) as [head tail].
    by destruct (os_path.splitext tail) as [model_name ext]. }
  assert ((b * coef smin < a * coef smin)%Q) as H1.
  { rewrite Hmin. unfold Qlt in *. simpl. rewrite !Pos.mul_1_r. lia. }
  assert ((a * coef smax < b * coef smax)%Q) as H2.
  { rewrite Hmax. unfold Qlt in *. simpl. rewrite !Pos.mul_1_r. lia. }
  split; [done|]. split; [apply tuple_ltb_spec; left; by apply finite_ltb|].
  split; [done|]. apply tuple_ltb_spec; left; by apply finite_ltb.
Qed.

(** A call at the interval, with the path resolved and the metric
    present, does exactly one of four things.  Below capacity it stores
    the candidate and persists its path.  At capacity with the first
    entry of the tracker below the candidate it replaces that entry by
    the candidate, deletes the entry's file and persists the
    candidate's.  At capacity otherwise [heappushpop] hands the
    candidate back and the tracker is unchanged; if the candidate's
    score is not [nan] the call touches no file, and if it is [nan] the
    call passes the candidate's own path to [os.remove] and then
    persists it (or, with [verbose > 0] and an empty tracker, raises
    [IndexError] before either). *)
Theorem eligible_call_cases self epoch logs path current :
  let cand := candidate self epoch current path in
  let res := on_epoch_end format_field epoch logs self in
  period self ≤ epochs_since_last_save self + 1 →
  str_format format_field (filepath self) (epoch + 1) (default ∅ logs) = Some path →
  default ∅ logs !! monitor self = Some current →
  (Z.of_nat (length (tracker self)) < n_models self
   ∧ tracker res.1.1 = heapq.heappush (tracker self) cand
   ∧ tracker res.1.1 ≡ₚ cand :: tracker self
   ∧ file_ops res.1.2 = [persist_event self path]
   ∧ res.2 = inr tt)
  ∨ (n_models self ≤ Z.of_nat (length (tracker self))
     ∧ ∃ top rest,
         tracker self = top :: rest ∧ tuple_ltb top cand = true
         ∧ tracker res.1.1 ≡ₚ cand :: rest
         ∧ file_ops res.1.2 = [os_remove (item_path top); persist_event self path]
         ∧ res.2 = inr tt)
  ∨ (n_models self ≤ Z.of_nat (length (tracker self))
     ∧ (∀ top, head (tracker self) = Some top → tuple_ltb top cand = false)
     ∧ item_score cand ≠ nan
     ∧ tracker res.1.1 = tracker self
     ∧ file_ops res.1.2 = [])
  ∨ (n_models self ≤ Z.of_nat (length (tracker self))
     ∧ item_score cand = nan
     ∧ tracker res.1.1 = tracker self
     ∧ ((file_ops res.1.2 = [os_remove path; persist_event self path]
         ∧ res.2 = inr tt)
        ∨ (tracker self = [] ∧ 0 < verbose self
           ∧ res.1.2 = [] ∧ res.2 = inl IndexError))).
Proof. apply call_at_interval. Qed.

(** In a call that reaches the full-pool branch (interval reached, path
    resolved, metric present, [n_models <= len(tracker)]) on an object
    made by [__init__] and called any number of times, with no [nan]
    logged for the monitored quantity in those calls or in this one: the
    candidate [(current * coef, epoch + 1, path)] replaces a minimum of
    the tracker exactly when that minimum is strictly below the
    candidate in the order of tuples (score, then epoch, then path).  On
    replacement the tracker loses its root, which is that minimum, and
    gains the candidate, and the call deletes the minimum's file and
    then persists the candidate's.  Otherwise the tracker is unchanged
    and the call neither persists nor deletes. *)
Theorem full_pool_replacement path0 mon verb n weights mode per calls
    epoch logs path current :
  let self := (run format_field (__init__ path0 mon verb n weights mode per).1
                 calls).1 in
  let cand : item := (float_mul current (coef self), epoch + 1, path) in
  let res := on_epoch_end format_field epoch logs self in
  never_nan mon calls →
  current ≠ nan →
  period self ≤ epochs_since_last_save self + 1 →
  str_format format_field (filepath self) (epoch + 1) (default ∅ logs)
    = Some path →
  default ∅ logs !! monitor self = Some current →
  n_models self ≤ Z.of_nat (length (tracker self)) →
  (∀ a b : item,
     tuple_ltb a b = true ↔
     float_lt (item_score a) (item_score b)
     ∨ (float_eq (item_score a) (item_score b)
        ∧ (item_epoch a < item_epoch b
           ∨ (item_epoch a = item_epoch b
              ∧ String.ltb (item_path a) (item_path b) = true))))
  ∧ (∀ m, is_minimum m (tracker self) → tuple_ltb m cand = true →
     ∃ top rest,
       tracker self = top :: rest ∧ is_minimum top (tracker self)
       ∧ tuple_le top m ∧ tuple_le m top
       ∧ tracker res.1.1 ≡ₚ cand :: rest
       ∧ file_ops res.1.2 = [os_remove (item_path m); persist_event self path]
       ∧ res.2 = inr tt)
  ∧ (¬ (∃ m, is_minimum m (tracker self) ∧ tuple_ltb m cand = true) →
     tracker res.1.1 = tracker self
     ∧ persists res.1.2 = [] ∧ deletes res.1.2 = []).
Proof.
  intros self cand res Hnever Hcur Hp Hf Hm Hn.
  pose proof (init_run_is_heap path0 mon verb n weights mode per calls) as Hh.
  pose proof (init_run_not_nan path0 mon verb n weights mode per calls Hnever)
    as Hnan.
  fold self in Hh, Hnan.
  assert (not_nan (candidate self epoch current path)) as Hcand.
  { apply float_mul_not_nan; [|done].
    destruct (run_same_config format_field
                (__init__ path0 mon verb n weights mode per).1 calls)
      as (_ & _ & _ & _ & _ & _ & Hc).
    fold self in Hc. rewrite Hc. apply init_coef_nonzero. }
  destruct (full_pool_call self epoch logs path current Hh Hnan Hcand Hp Hf Hm Hn)
    as [Hyes Hno].
  split; [apply tuple_ltb_spec|].
  split; [exact Hyes|].
  intros Hnone. destruct (Hno Hnone) as [Hself Hops]. fold res in Hself, Hops.
  rewrite Hself, <- persists_file_ops, <- deletes_file_ops, Hops. done.
Qed.

(** For an object made by [__init__] with [n_models >= 0] and any
    sequence of calls that never logs [nan] for the monitored quantity
    and whose resolved paths are pairwise distinct: a path passed to
    [os.remove] in a call was persisted in an earlier call, no path is
    passed to [os.remove] twice, and at every moment (after every event
    of the trace) at most [n_models] files are persisted and not yet
    deleted. *)
Theorem file_lifecycle path mon verb n weights mode per calls :
  let fresh := (__init__ path mon verb n weights mode per).1 in
  let traces := (run format_field fresh calls).2 in
  0 ≤ n →
  never_nan mon calls →
  NoDup (resolved_paths format_field fresh calls) →
  (∀ i evs q, traces !! i = Some evs → q ∈ deletes evs →
     ∃ j evs', (j < i)%nat ∧ traces !! j = Some evs' ∧ q ∈ persists evs')
  ∧ NoDup (deletes (concat traces))
  ∧ (∀ t, t `prefix_of` concat traces → Z.of_nat (size (live t)) ≤ n).
Proof.
  intros fresh traces Hn Hnever Hres.
  destruct (init_fields path mon verb n weights mode per)
    as (Hmon & _ & Hnm & _ & _ & _ & Ht). fold fresh in Hmon, Hnm, Ht.
  destruct (run_files n calls fresh ∅ [] []) as (H1 & H2 & H3 & _);
    unfold paths; rewrite ?Ht; simpl; try done.
  - apply init_coef_nonzero.
  - by rewrite Hmon.
  - constructor.
  - constructor.
  - by intros ? ?%elem_of_nil.
  - by intros ? _ ?%elem_of_nil.
  - split; [|split; [done|done]].
    intros i evs q Hevs Hq.
    destruct (H1 i evs q Hevs Hq) as [?%elem_of_nil|?]; done.
Qed.

End Claims.

(** * Further properties of the code *)

(** ** A call of [on_epoch_end], event by event *)

Section CallCases.

Variable format_field : string → Z → gmap string float → option string.

Lemma show_tracked_run self :
  tracker self ≠ [] →
  __show_tracked self = (self, [], inr (show_tracked_value self)).
Proof.
  intros Ht. unfold __show_tracked, show_tracked_value. rewrite bind_get.
  destruct (tracker self) eqn:Hts; [congruence|done].
Qed.

Lemma show_tracked_empty self :
  tracker self = [] → __show_tracked self = (self, [], inl IndexError).
Proof.
  intros Ht. unfold __show_tracked. rewrite bind_get. by rewrite Ht.
Qed.

Lemma when_print_value b (f : list float → message) self :
  tracker self ≠ [] →
  when b (__show_tracked ≫= λ tracked, emit (print (f tracked))) self
  = (self, if b then [print (f (show_tracked_value self))] else [], inr tt).
Proof.
  intros Ht. destruct b; [|done].
  simpl. unfold mbind at 1. unfold M_bind at 1.
  by rewrite show_tracked_run.
Qed.

Lemma when_print_empty b (f : list float → message) self :
  tracker self = [] →
  when b (__show_tracked ≫= λ tracked, emit (print (f tracked))) self
  = (self, [], if b then inl IndexError else inr tt).
Proof.
  intros Ht. destruct b; [|done].
  simpl. unfold mbind at 1. unfold M_bind at 1.
  by rewrite show_tracked_empty.
Qed.

(** A call at the interval, case by case, with its events in program
    order. *)
Lemma call_eligible epoch logs self :
  period self ≤ epochs_since_last_save self + 1 →
  on_epoch_end format_field epoch logs self
  = match str_format format_field (filepath self) (epoch + 1) (default ∅ logs) with
    | None => (set_epochs_since_last_save 0 self, [], inl FormatError)
    | Some path =>
        match default ∅ logs !! monitor self with
        | None =>
            (set_epochs_since_last_save 0 self,
             [warn ("Can save best model only with " +:+ monitor self
                    +:+ " available, skipping.")], inr tt)
        | Some current =>
            let self0 := set_epochs_since_last_save 0 self in
            let cand := candidate self epoch current path in
            if n_models self <=? Z.of_nat (length (tracker self)) then
              match tracker self with
              | [] => handed_back self epoch current path
              | top :: _ =>
                  if tuple_ltb top cand then
                    let self' :=
                      set_tracker (heapq.heappushpop (tracker self) cand).1 self0 in
                    (self',
                     printed self
                       (msg_discarded (epoch + 1) (item_epoch top) (monitor self)
                          (float_mul (item_score top) (coef self)) current path
                          (item_path top) (show_tracked_value self'))
                     ++ [os_remove (item_path top); persist_event self path],
                     inr tt)
                  else handed_back self epoch current path
              end
            else
              let self' := set_tracker (heapq.heappush (tracker self) cand) self0 in
              (self',
               printed self
                 (msg_saving (epoch + 1) (monitor self) current path
                    (show_tracked_value self'))
               ++ [persist_event self path],
               inr tt)
        end
    end.
Proof.
  intros Hp. unfold on_epoch_end. rewrite bind_modify, bind_get.
  cbn [epochs_since_last_save set_epochs_since_last_save period].
  destruct (Z.leb_spec (period self) (epochs_since_last_save self + 1)) as [_|?];
    [|lia].
  rewrite bind_modify.
  change (set_epochs_since_last_save 0 (set_epochs_since_last_save _ self))
    with (set_epochs_since_last_save 0 self).
  cbn [filepath monitor n_models tracker coef verbose set_epochs_since_last_save].
  destruct (str_format _ _ _ _) as [path|] eqn:Hf; [|done].
  destruct (default ∅ logs !! monitor self) as [current|] eqn:Hm; [|done].
  fold (candidate self epoch current path).
  set (self0 := set_epochs_since_last_save 0 self).
  set (cand := candidate self epoch current path).
  cbv zeta.
  assert (∀ heap, tracker self = heap →
    (modify (set_tracker heap);;
     if negb (tuple_eqb cand cand)
     then
       when (0 <? verbose self)
         (tracked ← __show_tracked;
          emit (print (msg_discarded (epoch + 1) (item_epoch cand)
                         (monitor self) (float_mul (item_score cand) (coef self))
                         current path (item_path cand) tracked)));;
       emit (os_remove (item_path cand));;
       model_persist path
     else
       when (0 <? verbose self)
         (tracked ← __show_tracked;
          emit (print (msg_not_improved (epoch + 1) (monitor self)
                         current tracked)))) self0
    = handed_back self epoch current path) as Hback.
  { intros heap Hheap. rewrite bind_modify.
    rewrite (set_tracker_same self0 heap) by done.
    unfold handed_back. fold self0 cand.
    destruct (tracker self) as [|top rest] eqn:Ht.
    - destruct (tuple_eqb cand cand); cbn [negb].
      + rewrite when_print_empty by done. by destruct (0 <? verbose self).
      + unfold mbind at 1. unfold M_bind at 1.
        rewrite when_print_empty by done.
        destruct (0 <? verbose self); [done|].
        rewrite bind_emit, model_persist_run. done.
    - assert (tracker self0 ≠ []) as Hne.
      { cbn [tracker set_epochs_since_last_save self0]. by rewrite Ht. }
      destruct (tuple_eqb cand cand); cbn [negb].
      + by rewrite when_print_value.
      + rewrite (bind_run _ _ _ _ _ _ (when_print_value _ _ _ Hne)).
        rewrite bind_emit, model_persist_run. done. }
  destruct (Z.leb_spec (n_models self) (Z.of_nat (length (tracker self))))
    as [Hn|Hn].
  - destruct (heapq.heappushpop (tracker self) cand) as [heap discard] eqn:Hpp.
    destruct (tracker self) as [|top rest] eqn:Ht.
    { unfold heapq.heappushpop in Hpp. injection Hpp as <- <-.
      by apply Hback. }
    pose proof Hpp as Hpp'. unfold heapq.heappushpop in Hpp'.
    destruct (tuple_ltb top cand) eqn:Hlt; injection Hpp' as <- <-.
    + rewrite bind_modify.
      rewrite (tuple_ltb_eqb _ _ Hlt). cbn [negb fst].
      set (heap := heapq._siftup _ _) in *.
      assert (tracker (set_tracker heap self0) ≠ []) as Hne.
      { cbn [tracker set_tracker].
        intros Hnil%(f_equal length). unfold heap in Hnil.
        by rewrite siftup_length in Hnil. }
      rewrite (bind_run _ _ _ _ _ _ (when_print_value _ _ _ Hne)).
      rewrite bind_emit, model_persist_run.
      change (persist_event (set_tracker heap self0) path)
        with (persist_event self path).
      done.
    + by apply Hback.
  - rewrite bind_modify.
    set (heap := heapq.heappush _ _).
    assert (tracker (set_tracker heap self0) ≠ []) as Hne.
    { cbn [tracker set_tracker].
      intros Hnil%(f_equal length). unfold heap in Hnil.
      by rewrite heappush_length in Hnil. }
    rewrite (bind_run _ _ _ _ _ _ (when_print_value _ _ _ Hne)).
    by rewrite model_persist_run.
Qed.

End CallCases.

(** ** What a call prints, raises and persists *)

Section Calls.

Variable format_field : string → Z → gmap string float → option string.

(** A call below the interval only counts. *)
Lemma call_wait epoch logs self :
  epochs_since_last_save self + 1 < period self →
  on_epoch_end format_field epoch logs self
  = (set_epochs_since_last_save (epochs_since_last_save self + 1) self, [], inr tt).
Proof.
  intros Hlt. unfold on_epoch_end. rewrite bind_modify, bind_get.
  cbn [epochs_since_last_save set_epochs_since_last_save period].
  by destruct (Z.leb_spec (period self) (epochs_since_last_save self + 1)); [lia|].
Qed.

Lemma handed_back_state self epoch current path :
  (handed_back self epoch current path).1.1 = set_epochs_since_last_save 0 self.
Proof.
  unfold handed_back. by repeat case_match.
Qed.

Lemma handed_back_raises self epoch current path :
  let res := handed_back self epoch current path in
  res.2 ≠ inl FormatError
  ∧ (res.2 = inl IndexError ↔ 0 < verbose self ∧ tracker self = [])
  ∧ (res.2 ≠ inr tt → res.1.2 = []).
Proof.
  unfold handed_back. destruct (tracker self) as [|top rest].
  - destruct (Z.ltb_spec 0 (verbose self)) as [Hv|Hv].
    + cbn [fst snd]. by repeat split.
    + destruct (tuple_eqb _ _); cbn [fst snd];
        (split; [done|]; split; [|done]; split; [done|]; intros [? _]; lia).
  - destruct (tuple_eqb _ _); cbn [fst snd];
      (split; [done|]; split; [|done]; split; [done|]; by intros [_ ?]).
Qed.

(** When [on_epoch_end] raises, apart from what the calls on the outside
    world may raise, which is not modelled.  It raises what [str.format]
    raises exactly when the interval is reached and the template does
    not resolve against the logs.  It raises [IndexError], from
    [__show_tracked], exactly when the interval is reached, the template
    resolves, the metric is present, [verbose > 0], the tracker is empty
    and [n_models <= 0].  A call that raises one of the two has reset
    the counter, has changed nothing else and has emitted nothing.  Logs
    with a key [epoch] make [str.format] raise. *)
Theorem call_raises self epoch logs :
  let res := on_epoch_end format_field epoch logs self in
  let resolved :=
    str_format format_field (filepath self) (epoch + 1) (default ∅ logs) in
  (res.2 = inl FormatError ↔
     period self ≤ epochs_since_last_save self + 1 ∧ resolved = None)
  ∧ (res.2 = inl IndexError ↔
       period self ≤ epochs_since_last_save self + 1
       ∧ is_Some resolved
       ∧ is_Some (default ∅ logs !! monitor self)
       ∧ 0 < verbose self ∧ tracker self = [] ∧ n_models self ≤ 0)
  ∧ (res.2 = inl FormatError ∨ res.2 = inl IndexError →
     res.1.1 = set_epochs_since_last_save 0 self ∧ res.1.2 = [])
  ∧ (period self ≤ epochs_since_last_save self + 1 →
     is_Some (default ∅ logs !! "epoch"%string) →
     res.2 = inl FormatError).
Proof.
  intros res resolved.
  assert (∀ r : exception + unit,
            r = inl FormatError ∨ r = inl IndexError → r ≠ inr tt) as Hexc.
  { intros r [-> | ->]; done. }
  destruct (Z.lt_ge_cases (epochs_since_last_save self + 1) (period self)) as [Hw|Hp].
  { subst res. rewrite call_wait by done. cbn [fst snd].
    split; [split; [done|lia]|]. split; [split; [done|lia]|].
    split; [by intros [?|?]|lia]. }
  assert (is_Some (default ∅ logs !! "epoch"%string) → resolved = None) as Hepoch.
  { intros He. unfold resolved, str_format. by rewrite bool_decide_eq_true_2. }
  subst res. rewrite call_eligible by done. fold resolved.
  destruct resolved as [path|] eqn:Hf.
  2:{ cbn [fst snd]. split; [done|]. split; [|done].
      split; [done|]. by intros (_ & [? ?] & _). }
  assert (¬ is_Some (default ∅ logs !! "epoch"%string)) as Hne.
  { intros He. by specialize (Hepoch He). }
  destruct (default ∅ logs !! monitor self) as [current|] eqn:Hm.
  2:{ cbn [fst snd]. split; [split; [done|by intros [_ ?]]|].
      split; [|split; [by intros [?|?]|done]].
      split; [done|]. by intros (_ & _ & [? ?] & _). }
  cbv zeta.
  assert (n_models self ≤ Z.of_nat (length (tracker self)) →
          let back := handed_back self epoch current path in
          (back.2 = inl FormatError ↔ period self ≤ epochs_since_last_save self + 1
                                       ∧ Some path = None)
          ∧ (back.2 = inl IndexError ↔
               period self ≤ epochs_since_last_save self + 1
               ∧ is_Some (Some path) ∧ is_Some (Some current)
               ∧ 0 < verbose self ∧ tracker self = [] ∧ n_models self ≤ 0)
          ∧ (back.2 = inl FormatError ∨ back.2 = inl IndexError →
             back.1.1 = set_epochs_since_last_save 0 self ∧ back.1.2 = [])
          ∧ (period self ≤ epochs_since_last_save self + 1 →
             is_Some (default ∅ logs !! "epoch"%string) →
             back.2 = inl FormatError)) as Hback.
  { intros Hn back.
    destruct (handed_back_raises self epoch current path) as (Hnf & Hidx & Hevs).
    fold back in Hnf, Hidx, Hevs.
    split; [split; [done|by intros [_ ?]]|]. split.
    - rewrite Hidx. split.
      + intros [Hv Ht]. rewrite Ht in Hn. simpl in Hn.
        repeat split; try done; by eexists.
      + by intros (_ & _ & _ & ? & ? & _).
    - split; [|done]. intros Hr%Hexc.
      split; [apply handed_back_state|by apply Hevs]. }
  destruct (Z.leb_spec (n_models self) (Z.of_nat (length (tracker self))))
    as [Hn|Hn].
  - destruct (tracker self) as [|top rest] eqn:Ht; [by apply Hback|].
    destruct (tuple_ltb top _); [|by apply Hback]. cbn [fst snd].
    split; [split; [done|by intros [_ ?]]|].
    split; [|split; [by intros [?|?]|done]].
    split; [done|]. by intros (_ & _ & _ & _ & ? & _).
  - cbn [fst snd]. split; [split; [done|by intros [_ ?]]|].
    split; [|split; [by intros [?|?]|done]]. split; [done|].
    intros (_ & _ & _ & _ & Ht & ?). rewrite Ht in Hn. simpl in Hn. lia.
Qed.

Lemma file_ops_remove_persist self q p :
  file_ops [os_remove q; persist_event self p] = [os_remove q; persist_event self p].
Proof. unfold persist_event. by destruct (save_weights_only self). Qed.

Lemma printed_file_ops self m : file_ops (printed self m) = [].
Proof. unfold printed. by destruct (0 <? verbose self). Qed.


Lemma handed_back_Forall (P : event → Prop) self epoch current path :
  (∀ m, Forall P (printed self m)) →
  P (os_remove path) → P (persist_event self path) →
  Forall P (handed_back self epoch current path).1.2.
Proof.
  intros Hprint Hrm Hpers. unfold handed_back.
  destruct (tracker self) as [|top rest].
  - destruct (0 <? verbose self); [done|].
    destruct (tuple_eqb _ _); cbn [fst snd]; [done|by repeat constructor].
  - destruct (tuple_eqb _ _); cbn [fst snd]; [done|].
    apply Forall_app. split; [done|]. by repeat constructor.
Qed.

Lemma call_quiet self epoch logs :
  verbose self ≤ 0 →
  Forall (λ e, ∀ m, e ≠ print m) (on_epoch_end format_field epoch logs self).1.2.
Proof.
  intros Hv.
  destruct (Z.lt_ge_cases (epochs_since_last_save self + 1) (period self)) as [Hw|Hp].
  { by rewrite call_wait. }
  rewrite call_eligible by done.
  assert (∀ m, Forall (λ e, ∀ m', e ≠ print m') (printed self m)) as Hprint.
  { intros m. unfold printed.
    destruct (Z.ltb_spec 0 (verbose self)) as [?|_]; [lia|done]. }
  assert (∀ path, ∀ m, persist_event self path ≠ print m) as Hpers.
  { intros path m. unfold persist_event. by destruct (save_weights_only self). }
  destruct (str_format _ _ _ _) as [path|]; [|done].
  destruct (default ∅ logs !! monitor self) as [current|];
    [|by repeat constructor].
  cbv zeta. destruct (_ <=? _).
  - destruct (tracker self) as [|top rest] eqn:Ht;
      [by apply handed_back_Forall|].
    destruct (tuple_ltb top _); cbn [fst snd app];
      [|by apply handed_back_Forall].
    apply Forall_app. split; [done|]. by repeat constructor.
  - cbn [fst snd app]. apply Forall_app. split; [done|]. by repeat constructor.
Qed.

Lemma call_persist_kind self epoch logs :
  Forall (λ e, ∀ p, persisted_path e = Some p → e = persist_event self p)
    (on_epoch_end format_field epoch logs self).1.2.
Proof.
  destruct (Z.lt_ge_cases (epochs_since_last_save self + 1) (period self)) as [Hw|Hp].
  { by rewrite call_wait. }
  rewrite call_eligible by done.
  assert (∀ m, Forall (λ e, ∀ p, persisted_path e = Some p → e = persist_event self p)
                 (printed self m)) as Hprint.
  { intros m. unfold printed. destruct (0 <? verbose self); by repeat constructor. }
  assert (∀ path, ∀ p, persisted_path (persist_event self path) = Some p →
            persist_event self path = persist_event self p) as Hpers.
  { intros path p. unfold persist_event.
    destruct (save_weights_only self); simpl; congruence. }
  destruct (str_format _ _ _ _) as [path|]; [|done].
  destruct (default ∅ logs !! monitor self) as [current|];
    [|by repeat constructor].
  cbv zeta. destruct (_ <=? _).
  - destruct (tracker self) as [|top rest] eqn:Ht;
      [apply handed_back_Forall; [done|done|apply Hpers]|].
    destruct (tuple_ltb top _); cbn [fst snd];
      [|apply handed_back_Forall; [done|done|apply Hpers]].
    apply Forall_app. split; [done|].
    apply Forall_cons. split; [done|]. apply Forall_cons. split; [apply Hpers|constructor].
  - cbn [fst snd]. apply Forall_app. split; [done|].
    apply Forall_cons. split; [apply Hpers|constructor].
Qed.

(** The events of the calls of a sequence, from what every call keeps
    and does. *)
Lemma run_traces_Forall (I : ModelCheckpointTopN → Prop) (P : event → Prop) :
  (∀ self epoch logs, I self →
     I (on_epoch_end format_field epoch logs self).1.1
     ∧ Forall P (on_epoch_end format_field epoch logs self).1.2) →
  ∀ calls self, I self → Forall P (concat (run format_field self calls).2).
Proof.
  intros Hstep calls. induction calls as [|[epoch logs] calls IH]; intros self HI.
  { constructor. }
  rewrite run_cons. cbn [snd concat].
  destruct (Hstep self epoch logs HI) as [HI' HP].
  apply Forall_app. split; [done|]. by apply IH.
Qed.

(** With [verbose <= 0] no call of any sequence of calls prints. *)
Theorem quiet_without_verbose path mon verb n weights mode per calls :
  verb ≤ 0 →
  Forall (λ e, ∀ m, e ≠ print m)
    (concat (run format_field (__init__ path mon verb n weights mode per).1 calls).2).
Proof.
  intros Hv.
  apply (run_traces_Forall (λ s, verbose s ≤ 0)).
  - intros self epoch logs Hs. split; [|by apply call_quiet].
    pose proof (step_same_config _ _ _ _ _ _ _
                  (on_epoch_end_inv format_field epoch logs self))
      as (_ & -> & _). done.
  - by destruct (init_fields path mon verb n weights mode per) as (_ & -> & _).
Qed.

(** Every checkpoint is persisted the way [save_weights_only] says: by
    [model.save_weights] when it is set, by [model.save] otherwise, in
    every call of every sequence of calls. *)
Theorem persist_kind path mon verb n (weights : bool) mode per calls :
  Forall (λ e, ∀ p, persisted_path e = Some p →
               e = if weights then model_save_weights p else model_save p)
    (concat (run format_field (__init__ path mon verb n weights mode per).1 calls).2).
Proof.
  apply (run_traces_Forall (λ s, save_weights_only s = weights)).
  - intros self epoch logs Hs. split.
    + pose proof (step_same_config _ _ _ _ _ _ _
                    (on_epoch_end_inv format_field epoch logs self))
        as (_ & _ & _ & _ & -> & _). done.
    + eapply Forall_impl; [apply call_persist_kind|].
      intros e He p Hp. rewrite (He p Hp). unfold persist_event. by rewrite Hs.
  - by destruct (init_fields path mon verb n weights mode per)
      as (_ & _ & _ & -> & _).
Qed.

(** On a tie with the worst retained score the newer checkpoint wins:
    at capacity, a candidate whose score equals that of [tracker[0]] and
    whose epoch is later replaces it, and the file of [tracker[0]] is
    deleted. *)
Theorem tie_newer_replaces self epoch logs path current top rest :
  let res := on_epoch_end format_field epoch logs self in
  period self ≤ epochs_since_last_save self + 1 →
  str_format format_field (filepath self) (epoch + 1) (default ∅ logs) = Some path →
  default ∅ logs !! monitor self = Some current →
  n_models self ≤ Z.of_nat (length (tracker self)) →
  tracker self = top :: rest →
  float_eq (item_score top) (float_mul current (coef self)) →
  item_epoch top < epoch + 1 →
  file_ops res.1.2 = [os_remove (item_path top); persist_event self path]
  ∧ tracker res.1.1 ≡ₚ candidate self epoch current path :: rest.
Proof.
  intros res Hp Hf Hm Hn Ht Hs He. subst res.
  assert (tuple_ltb top (candidate self epoch current path) = true) as Hlt.
  { apply tuple_ltb_spec. right. split; [done|]. by left. }
  rewrite call_eligible by done. rewrite Hf, Hm. cbv zeta.
  destruct (Z.leb_spec (n_models self) (Z.of_nat (length (tracker self))))
    as [_|?]; [|lia].
  rewrite Ht, Hlt. cbn [fst snd tracker set_tracker].
  split; [|by apply heappushpop_perm].
  rewrite file_ops_app, printed_file_ops. apply (file_ops_remove_persist self).
Qed.

(** At capacity a call leaves the first entry of the tracker or puts
    above it one that is not below it. *)
Lemma call_root_monotone self epoch logs top rest :
  is_heap (tracker self) →
  tracker self = top :: rest →
  n_models self ≤ Z.of_nat (length (tracker self)) →
  ∃ top' rest',
    tracker (on_epoch_end format_field epoch logs self).1.1 = top' :: rest'
    ∧ (top' = top ∨ (not_nan top ∧ tuple_le top top')).
Proof.
  intros Hh Ht Hn.
  pose proof (on_epoch_end_inv format_field epoch logs self) as Hstep.
  destruct (on_epoch_end _ _ _ _) as [[self' evs] r]. simpl in Hstep |- *.
  inversion Hstep
    as [ | | | |path current top0 rest0 heap evs' _ _ _ _ Ht0 Hlt Hpp _| | ];
    subst; cbn [tracker set_tracker set_epochs_since_last_save]; try lia;
    try (exists top, rest; split; [done|by left]).
  rewrite Ht in Ht0. injection Ht0 as <- <-.
  destruct (heappushpop_perm top rest _ Hlt) as [Hperm _].
  rewrite Ht in Hh, Hpp.
  pose proof (heappushpop_root top rest _ Hlt Hh) as Hroot.
  rewrite Hpp in Hperm, Hroot. simpl in Hperm, Hroot.
  destruct heap as [|top' rest'].
  { by apply Permutation_nil_cons in Hperm. }
  exists top', rest'. split; [done|]. right.
  split; [by apply tuple_ltb_not_nan in Hlt as [? _]|done].
Qed.

(** Once the pool is full, the worst retained checkpoint never gets
    worse: after any further calls the tracker has the same length and
    its first entry is not below the former one. *)
Theorem worst_never_worsens path mon verb n weights mode per calls calls' top rest :
  let self := (run format_field (__init__ path mon verb n weights mode per).1
                 calls).1 in
  let self' := (run format_field self calls').1 in
  tracker self = top :: rest →
  n ≤ Z.of_nat (length (tracker self)) →
  ∃ top' rest',
    tracker self' = top' :: rest' ∧ tuple_le top top'
    ∧ length (tracker self') = length (tracker self).
Proof.
  intros self self' Ht Hn.
  assert (is_heap (tracker self)) as Hh.
  { apply run_is_heap.
    destruct (init_fields path mon verb n weights mode per)
      as (_ & _ & _ & _ & _ & _ & ->). apply is_heap_nil. }
  assert (n_models self = n) as Hnm.
  { destruct (run_same_config format_field
                (__init__ path mon verb n weights mode per).1 calls)
      as (_ & _ & _ & Hrun & _).
    destruct (init_fields path mon verb n weights mode per) as (_ & _ & Hi & _).
    unfold self. congruence. }
  subst self'. clearbody self.
  apply (run_invariant format_field
           (λ s, is_heap (tracker s) ∧ n_models s = n
                 ∧ ∃ top' rest', tracker s = top' :: rest' ∧ tuple_le top top'
                                 ∧ length (tracker s) = length (tracker self)));
    [|split; [done|split; [done|]]; exists top, rest;
      split; [done|split; [apply tuple_le_refl|done]]].
  intros s epoch logs (Hs & Hns & top1 & rest1 & Ht1 & Hle & Hlen).
  pose proof (on_epoch_end_inv format_field epoch logs s) as Hstep.
  split; [by eapply step_is_heap|].
  pose proof (step_same_config _ _ _ _ _ _ _ Hstep) as (_ & _ & _ & Hn' & _).
  split; [congruence|].
  destruct (call_root_monotone s epoch logs top1 rest1)
    as (top2 & rest2 & Ht2 & Hle2); [done|done|lia|].
  exists top2, rest2. split; [done|]. split.
  { destruct Hle2 as [->|[Hnn Hle2]]; [done|]. by eapply tuple_le_trans. }
  apply step_tracker in Hstep
    as [[-> _]|[(p & c & Hlt & _)
               |[(p & c & t & r & _ & _ & Htr & _ & Hperm & _)
                |(p & c & _ & _ & _ & -> & _)]]];
    [done|lia| |done].
  rewrite Hperm, <- Hlen, Htr. done.
Qed.

End Calls.

(** ** What a sequence of calls retains *)

Section RunFacts.

Variable format_field : string → Z → gmap string float → option string.

(** *** The tracker holds the best candidates *)

(** A call keeps the tracker the best of the candidates seen. *)
Lemma call_top_n self epoch logs seen dropped :
  is_heap (tracker self) →
  Forall not_nan (tracker self) →
  scored_call self logs →
  seen ≡ₚ tracker self ++ dropped →
  (∀ d t, d ∈ dropped → t ∈ tracker self → tuple_le d t) →
  Z.of_nat (length (tracker self))
    = Z.min (Z.max 0 (n_models self)) (Z.of_nat (length seen)) →
  let self' := (on_epoch_end format_field epoch logs self).1.1 in
  let seen' := seen ++ option_list (offered_call format_field self epoch logs) in
  ∃ dropped',
    seen' ≡ₚ tracker self' ++ dropped'
    ∧ (∀ d t, d ∈ dropped' → t ∈ tracker self' → tuple_le d t)
    ∧ Z.of_nat (length (tracker self'))
      = Z.min (Z.max 0 (n_models self)) (Z.of_nat (length seen')).
Proof.
  intros Hh Hnan Hscored Hseen Hdom Hlen self' seen'. subst self' seen'.
  pose proof (Permutation_length Hseen) as Hlseen. rewrite length_app in Hlseen.
  pose proof (on_epoch_end_inv format_field epoch logs self) as Hstep.
  destruct (on_epoch_end _ _ _ _) as [[self' evs] r]. simpl in Hstep |- *.
  unfold offered_call.
  inversion Hstep
    as [Hw|Hp Hf|path Hp Hf Hm|path current evs' Hp Hf Hm Hlt Hops
       |path current top rest heap evs' Hp Hf Hm Hn Ht Hlt Hpp Hops
       |path current evs' r' Hp Hf Hm Hn Htop Hscore Hops
       |path current evs' r' Hp Hf Hm Hn Hscore Hcases];
    subst; cbn [tracker set_tracker set_epochs_since_last_save];
    [| | | | | |by apply Hscored in Hm].
  - destruct (Z.leb_spec (period self) (epochs_since_last_save self + 1)); [lia|].
    simpl. rewrite app_nil_r. by exists dropped.
  - destruct (Z.leb_spec (period self) (epochs_since_last_save self + 1)); [|lia].
    rewrite Hf. simpl. rewrite app_nil_r. by exists dropped.
  - destruct (Z.leb_spec (period self) (epochs_since_last_save self + 1)); [|lia].
    rewrite Hf. simpl. rewrite Hm. simpl. rewrite app_nil_r. by exists dropped.
  - destruct (Z.leb_spec (period self) (epochs_since_last_save self + 1)); [|lia].
    rewrite Hf. simpl. rewrite Hm. simpl.
    assert (dropped = []) as -> by (apply length_zero_iff_nil; lia).
    exists []. rewrite !app_nil_r in *. split; [|split].
    + rewrite heappush_perm, Hseen. by rewrite Permutation_app_comm.
    + by intros d t ?%elem_of_nil.
    + rewrite heappush_length, length_app. simpl. lia.
  - destruct (Z.leb_spec (period self) (epochs_since_last_save self + 1)); [|lia].
    rewrite Hf. simpl. rewrite Hm. simpl.
    destruct (heappushpop_perm top rest _ Hlt) as [Hperm _].
    rewrite Ht in Hpp, Hh, Hnan, Hseen, Hdom, Hlen, Hn, Hlseen.
    rewrite Hpp in Hperm. simpl in Hperm.
    pose proof (heap_root_minimum top rest Hnan Hh) as [_ Hmin].
    assert (not_nan top) as Htn by (by apply Forall_cons in Hnan as [? _]).
    exists (top :: dropped). split; [|split].
    + rewrite Hperm, Hseen. simpl.
      rewrite <- !Permutation_middle, app_nil_r. apply perm_swap.
    + intros d t Hd Ht'. rewrite Hperm in Ht'.
      assert (tuple_le top t) as Htop.
      { apply elem_of_cons in Ht' as [->|Hin]; [by apply tuple_ltb_le|].
        apply Hmin. by right. }
      apply elem_of_cons in Hd as [->|Hd]; [done|].
      eapply tuple_le_trans; [exact Htn| |exact Htop]. apply Hdom; [done|by left].
    + rewrite Hperm, length_app. simpl in *. lia.
  - destruct (Z.leb_spec (period self) (epochs_since_last_save self + 1)); [|lia].
    rewrite Hf. simpl. rewrite Hm. simpl.
    exists (candidate self epoch current path :: dropped). split; [|split].
    + rewrite Hseen, <- app_assoc. apply Permutation_app_head.
      by rewrite Permutation_app_comm.
    + intros d t Hd Ht'.
      apply elem_of_cons in Hd as [->|Hd]; [|by apply Hdom].
      destruct (tracker self) as [|top rest] eqn:Ht; [by apply elem_of_nil in Ht'|].
      eapply (tuple_le_trans _ top);
        [by apply Forall_cons in Hnan as [? _]|exact (Htop top eq_refl)|].
      by apply (heap_root_minimum top rest Hnan Hh).
    + rewrite length_app. simpl. lia.
Qed.

Lemma run_top_n calls :
  ∀ self seen dropped,
    is_heap (tracker self) →
    Forall not_nan (tracker self) →
    ¬ (coef self == 0)%Q →
    never_nan (monitor self) calls →
    seen ≡ₚ tracker self ++ dropped →
    (∀ d t, d ∈ dropped → t ∈ tracker self → tuple_le d t) →
    Z.of_nat (length (tracker self))
      = Z.min (Z.max 0 (n_models self)) (Z.of_nat (length seen)) →
    let self' := (run format_field self calls).1 in
    let seen' := seen ++ offered format_field self calls in
    ∃ dropped',
      seen' ≡ₚ tracker self' ++ dropped'
      ∧ (∀ d t, d ∈ dropped' → t ∈ tracker self' → tuple_le d t)
      ∧ Z.of_nat (length (tracker self'))
        = Z.min (Z.max 0 (n_models self)) (Z.of_nat (length seen')).
Proof.
  induction calls as [|[epoch logs] calls IH];
    intros self seen dropped Hh Hnan Hcoef Hnever Hseen Hdom Hlen; cbv zeta.
  { simpl. rewrite app_nil_r. by exists dropped. }
  apply Forall_cons in Hnever as [Hnow Hnever]. cbn [snd] in Hnow.
  pose proof (never_nan_scored self logs Hcoef Hnow) as Hscored.
  rewrite run_cons. cbn [fst offered]. rewrite app_assoc.
  destruct (call_top_n self epoch logs seen dropped Hh Hnan Hscored Hseen Hdom Hlen)
    as (dropped1 & Hseen1 & Hdom1 & Hlen1).
  pose proof (on_epoch_end_inv format_field epoch logs self) as Hstep.
  pose proof (step_same_config _ _ _ _ _ _ _ Hstep)
    as (Hmon' & _ & _ & Hn' & _ & _ & Hcoef').
  rewrite <- Hn' in Hlen1 |- *.
  apply (IH _ _ dropped1);
    [by eapply step_is_heap|by eapply step_not_nan|by rewrite Hcoef'
    |by rewrite Hmon'|done..].
Qed.

(** When no call logs [nan] for the monitored quantity, the tracker
    holds the best of the candidates seen so far: the candidates of the
    calls are the retained tuples and the dropped ones, every dropped
    tuple is below or equal to every retained one, and the tracker
    holds [min(max(0, n_models), number of candidates)] tuples. *)
Theorem top_n_retained path mon verb n weights mode per calls :
  let fresh := (__init__ path mon verb n weights mode per).1 in
  let final := (run format_field fresh calls).1 in
  let seen := offered format_field fresh calls in
  never_nan mon calls →
  ∃ dropped,
    seen ≡ₚ tracker final ++ dropped
    ∧ (∀ d t, d ∈ dropped → t ∈ tracker final → tuple_le d t)
    ∧ Z.of_nat (length (tracker final))
      = Z.min (Z.max 0 n) (Z.of_nat (length seen)).
Proof.
  intros fresh final seen Hnever.
  destruct (init_fields path mon verb n weights mode per)
    as (Hmon & _ & Hnm & _ & _ & _ & Ht). fold fresh in Hmon, Hnm, Ht.
  destruct (run_top_n calls fresh [] []) as (dropped & H1 & H2 & H3).
  - rewrite Ht. apply is_heap_nil.
  - rewrite Ht. constructor.
  - apply init_coef_nonzero.
  - by rewrite Hmon.
  - by rewrite Ht.
  - by intros d t ?%elem_of_nil.
  - rewrite Ht, Hnm. simpl. lia.
  - exists dropped. rewrite Hnm in H3. done.
Qed.

(** *** Files persisted, deleted and retained *)

Lemma call_accounting self epoch logs :
  let res := on_epoch_end format_field epoch logs self in
  (length (persists res.1.2) + length (tracker self)
   = length (deletes res.1.2) + length (tracker res.1.1))%nat.
Proof.
  intros res. subst res.
  pose proof (on_epoch_end_inv format_field epoch logs self) as Hstep.
  apply step_tracker in Hstep
    as [[Htr Hops]|[(p & c & _ & _ & Hperm & Hops)
                   |[(p & c & top & rest & _ & _ & Htr & _ & Hperm & Hops)
                    |(p & c & _ & _ & _ & Htr & Hops)]]];
    rewrite <- persists_file_ops, <- deletes_file_ops, Hops.
  - by rewrite Htr.
  - rewrite persists_persist_event, deletes_persist_event, Hperm. simpl. lia.
  - change ([os_remove (item_path top); persist_event self p])
      with ([os_remove (item_path top)] ++ [persist_event self p]).
    rewrite persists_app, deletes_app, persists_persist_event,
      deletes_persist_event, Hperm, Htr. simpl. lia.
  - change ([os_remove p; persist_event self p])
      with ([os_remove p] ++ [persist_event self p]).
    rewrite persists_app, deletes_app, persists_persist_event,
      deletes_persist_event, Htr. simpl. lia.
Qed.

Lemma run_accounting calls :
  ∀ self,
    let r := run format_field self calls in
    (length (persists (concat r.2)) + length (tracker self)
     = length (deletes (concat r.2)) + length (tracker r.1))%nat.
Proof.
  induction calls as [|[epoch logs] calls IH]; intros self; cbv zeta; [done|].
  rewrite run_cons. cbn [fst snd concat].
  rewrite persists_app, deletes_app, !length_app.
  pose proof (call_accounting self epoch logs) as H1. cbv zeta in H1.
  pose proof (IH (on_epoch_end format_field epoch logs self).1.1) as H2.
  cbv zeta in H2. lia.
Qed.

(** Over a sequence of calls in which every [os.remove] names a file
    that is there, so that none fails for a missing file, the number of
    checkpoints persisted is the number deleted plus the number still
    tracked.  (What a call does after a call on the outside world has
    raised is not modelled.) *)
Theorem file_accounting path mon verb n weights mode per calls :
  let r := run format_field (__init__ path mon verb n weights mode per).1 calls in
  accepted ∅ (concat r.2) = true →
  length (persists (concat r.2))
  = (length (deletes (concat r.2)) + length (tracker r.1))%nat.
Proof.
  intros r _.
  pose proof (run_accounting calls (__init__ path mon verb n weights mode per).1) as H.
  cbv zeta in H. fold r in H.
  destruct (init_fields path mon verb n weights mode per)
    as (_ & _ & _ & _ & _ & _ & Ht).
  rewrite Ht in H. simpl in H. lia.
Qed.

(** *** The counter *)

Lemma call_counter self epoch logs :
  epochs_since_last_save (on_epoch_end format_field epoch logs self).1.1
  = if period self <=? epochs_since_last_save self + 1 then 0
    else epochs_since_last_save self + 1.
Proof.
  pose proof (on_epoch_end_inv format_field epoch logs self) as Hstep.
  destruct (on_epoch_end _ _ _ _) as [[self' evs] r]. simpl in Hstep |- *.
  destruct (Z.leb_spec (period self) (epochs_since_last_save self + 1));
    inversion Hstep; subst; try lia; done.
Qed.

Lemma run_counter calls :
  ∀ self,
    0 ≤ epochs_since_last_save self < period self →
    let r := run format_field self calls in
    epochs_since_last_save r.1
    = (epochs_since_last_save self + Z.of_nat (length calls)) mod period self
    ∧ ∀ i evs,
        r.2 !! i = Some evs →
        (epochs_since_last_save self + Z.of_nat i + 1) mod period self ≠ 0 →
        evs = [].
Proof.
  induction calls as [|[epoch logs] calls IH]; intros self Hc; cbv zeta.
  { simpl. rewrite Z.add_0_r, Z.mod_small by lia. done. }
  rewrite run_cons. cbn [fst snd].
  pose proof (on_epoch_end_inv format_field epoch logs self) as Hstep.
  pose proof (step_same_config _ _ _ _ _ _ _ Hstep)
    as (_ & _ & _ & _ & _ & Hper & _).
  pose proof (call_counter self epoch logs) as Hc'.
  set (self' := (on_epoch_end format_field epoch logs self).1.1) in *.
  assert (epochs_since_last_save self'
          = (epochs_since_last_save self + 1) mod period self) as Hmod.
  { rewrite Hc'.
    destruct (Z.leb_spec (period self) (epochs_since_last_save self + 1)).
    - assert (epochs_since_last_save self + 1 = period self) as -> by lia.
      by rewrite Z.mod_same by lia.
    - by rewrite Z.mod_small by lia. }
  destruct (IH self') as [IH1 IH2].
  { rewrite Hmod, Hper. apply Z.mod_pos_bound. lia. }
  rewrite Hper, Hmod in IH1, IH2. split.
  - rewrite IH1, Z.add_mod_idemp_l by lia. f_equal. cbn [length]. lia.
  - intros [|i] evs Hi Hne.
    + injection Hi as <-. rewrite Z.add_0_r in Hne.
      rewrite call_wait; [done|].
      destruct (Z.lt_ge_cases (epochs_since_last_save self + 1) (period self));
        [done|].
      assert (epochs_since_last_save self + 1 = period self) as Heq by lia.
      rewrite Heq, Z.mod_same in Hne by lia. done.
    + apply (IH2 i evs Hi).
      rewrite <- Z.add_assoc, Z.add_mod_idemp_l by lia.
      intros H0. apply Hne. rewrite <- H0. f_equal. lia.
Qed.

(** The calls are counted modulo [period]: after [m] calls on a fresh
    object with [period = k >= 1] the counter is [m mod k], and the
    [i]-th call (from 1) does nothing at all unless [k] divides [i]. *)
Theorem counter_periodic path mon verb n weights mode k calls :
  1 ≤ k →
  let r := run format_field (__init__ path mon verb n weights mode k).1 calls in
  epochs_since_last_save r.1 = Z.of_nat (length calls) mod k
  ∧ ∀ i evs, r.2 !! i = Some evs → (Z.of_nat i + 1) mod k ≠ 0 → evs = [].
Proof.
  intros Hk r.
  destruct (init_fields path mon verb n weights mode k)
    as (_ & _ & _ & _ & Hper & Hc & _).
  destruct (run_counter calls (__init__ path mon verb n weights mode k).1)
    as [H1 H2]; [lia|].
  fold r in H1, H2. rewrite Hper, Hc in H1, H2. done.
Qed.

End RunFacts.

(** ** No capacity *)

Section NoCapacity.

Variable format_field : string → Z → gmap string float → option string.

Lemma file_ops_nil_Forall evs :
  file_ops evs = [] → Forall (λ e, is_file_op e = false) evs.
Proof.
  induction evs as [|e evs IH]; [constructor|].
  unfold file_ops in *. simpl. destruct (is_file_op e) eqn:He; [done|].
  intros H. constructor; [done|by apply IH].
Qed.

Lemma call_nonpositive self epoch logs :
  n_models self ≤ 0 → tracker self = [] →
  let res := on_epoch_end format_field epoch logs self in
  (n_models res.1.1 ≤ 0 ∧ tracker res.1.1 = [])
  ∧ (file_ops res.1.2 = []
     ∨ ∃ p current,
         default ∅ logs !! monitor self = Some current
         ∧ float_mul current (coef self) = nan
         ∧ file_ops res.1.2 = [os_remove p; persist_event self p]).
Proof.
  intros Hn Ht res. subst res.
  pose proof (on_epoch_end_inv format_field epoch logs self) as Hstep.
  pose proof (step_same_config _ _ _ _ _ _ _ Hstep) as (_ & _ & _ & Hn' & _).
  apply step_tracker in Hstep
    as [[Htr Hops]|[(p & c & Hlt & _)
                   |[(p & c & top & rest & _ & _ & Htr & _)
                    |(p & c & _ & Hm & Hnan & Htr & Hops)]]].
  - split; [split; [lia|congruence]|by left].
  - rewrite Ht in Hlt. simpl in Hlt. lia.
  - congruence.
  - split; [split; [lia|congruence]|]. right. by exists p, c.
Qed.

Lemma run_nonpositive calls :
  ∀ self,
    n_models self ≤ 0 → tracker self = [] →
    let r := run format_field self calls in
    (n_models r.1 ≤ 0 ∧ tracker r.1 = [])
    ∧ Forall (λ evs, file_ops evs = []
                     ∨ ∃ p, file_ops evs = [os_remove p; persist_event self p]) r.2
    ∧ (¬ (coef self == 0)%Q → never_nan (monitor self) calls →
       Forall (λ evs, file_ops evs = []) r.2).
Proof.
  induction calls as [|[epoch logs] calls IH]; intros self Hn Ht; cbv zeta.
  { split; [done|]. split; [constructor|]. intros _ _. constructor. }
  rewrite run_cons. cbn [fst snd].
  destruct (call_nonpositive self epoch logs Hn Ht) as [[Hn1 Ht1] Hops].
  pose proof (step_same_config _ _ _ _ _ _ _
                (on_epoch_end_inv format_field epoch logs self))
    as (Hmon' & _ & _ & _ & Hw' & _ & Hcoef').
  destruct (IH _ Hn1 Ht1) as (Htail & Hall & Hnone).
  split; [done|]. split.
  - constructor.
    + destruct Hops as [?|(p & _ & _ & _ & ?)]; [by left|right; by exists p].
    + eapply Forall_impl; [exact Hall|]. intros evs [?|[p Hp]]; [by left|].
      right. exists p. rewrite Hp. unfold persist_event. by rewrite Hw'.
  - intros Hcoef Hnever. apply Forall_cons in Hnever as [Hnow Hnever].
    cbn [snd] in Hnow. constructor.
    + destruct Hops as [?|(p & c & Hm & Hnan & _)]; [done|].
      exfalso. by apply (never_nan_scored self logs Hcoef Hnow c).
    + apply Hnone; [by rewrite Hcoef'|by rewrite Hmon'].
Qed.

(** With [n_models <= 0] nothing is ever kept: the tracker stays
    empty.  A call then touches no file, unless its monitored value is
    [nan]: every call makes no call on the file system or passes one
    path to [os.remove] and then persists it, and when no call logs
    [nan] for the monitored quantity no call touches a file.  With
    [verbose > 0], every call that evaluates a candidate raises
    [IndexError] before it touches a file. *)
Theorem nonpositive_capacity path mon verb n weights mode per calls :
  n ≤ 0 →
  let fresh := (__init__ path mon verb n weights mode per).1 in
  let r := run format_field fresh calls in
  tracker r.1 = []
  ∧ Forall (λ evs, file_ops evs = []
                   ∨ ∃ p, file_ops evs = [os_remove p; persist_event fresh p]) r.2
  ∧ (never_nan mon calls → Forall (λ evs, file_ops evs = []) r.2)
  ∧ (0 < verb →
     ∀ epoch logs,
       period r.1 ≤ epochs_since_last_save r.1 + 1 →
       is_Some (str_format format_field (filepath r.1) (epoch + 1) (default ∅ logs)) →
       is_Some (default ∅ logs !! monitor r.1) →
       on_epoch_end format_field epoch logs r.1
       = (set_epochs_since_last_save 0 r.1, [], inl IndexError)).
Proof.
  intros Hn fresh r.
  destruct (init_fields path mon verb n weights mode per)
    as (Hmon & Hv & Hnm & _ & _ & _ & Ht). fold fresh in Hmon, Hv, Hnm, Ht.
  destruct (run_nonpositive calls fresh) as ((Hn' & Ht') & Hall & Hnone);
    [lia|done|]. fold r in Hn', Ht', Hall, Hnone.
  split; [done|]. split; [done|]. split.
  - intros Hnever. apply Hnone; [apply init_coef_nonzero|by rewrite Hmon].
  - intros Hverb epoch logs Hp [p Hf] [c Hm].
    assert (verbose r.1 = verb) as Hv'.
    { destruct (run_same_config format_field fresh calls) as (_ & Hrv & _).
      fold r in Hrv. congruence. }
    rewrite call_eligible by done. rewrite Hf, Hm. cbv zeta.
    rewrite Ht'. simpl length.
    destruct (Z.leb_spec (n_models r.1) (Z.of_nat 0)) as [_|?]; [|lia].
    unfold handed_back. rewrite Ht', Hv'.
    by destruct (Z.ltb_spec 0 verb) as [_|?]; [|lia].
Qed.

End NoCapacity.

(** ** The contract of [heapq] *)

(** [heappush] on a heap, a list where no item is [<] its parent,
    gives a heap that holds the new item and the old ones; when no
    score is [nan], the first item of a heap is a minimum of its items. *)
Theorem heappush_contract h x :
  is_heap h →
  let h' := heapq.heappush h x in
  is_heap h' ∧ h' ≡ₚ x :: h ∧ length h' = S (length h)
  ∧ (Forall not_nan (x :: h) →
     ∃ top rest, h' = top :: rest ∧ is_minimum top (x :: h)).
Proof.
  intros Hh h'.
  pose proof (heappush_heap h x Hh) as Hh'.
  pose proof (heappush_perm h x) as Hperm. fold h' in Hh', Hperm.
  split; [done|]. split; [done|]. split; [apply heappush_length|].
  intros Hnan. rewrite <- Hperm in Hnan.
  destruct h' as [|top rest] eqn:Heq.
  { by apply Permutation_nil_cons in Hperm. }
  exists top, rest. split; [done|].
  destruct (heap_root_minimum top rest Hnan Hh') as [Hin Hmin].
  split; [by rewrite <- Hperm|].
  intros y Hy. apply Hmin. by rewrite Hperm.
Qed.

(** [heappushpop] on a heap returns the new item and leaves the heap as
    it was, or, when the first item of the heap is [<] the new item,
    returns that first item and leaves a heap that holds the new item
    in its place.  When no score is [nan], the item returned is a
    minimum of the heap's items and the new item. *)
Theorem heappushpop_contract h x :
  is_heap h →
  let r := heapq.heappushpop h x in
  is_heap r.1 ∧ r.2 :: r.1 ≡ₚ x :: h
  ∧ ((r = (h, x) ∧ ∀ top, head h = Some top → tuple_ltb top x = false)
     ∨ (∃ top rest, h = top :: rest ∧ tuple_ltb top x = true ∧ r.2 = top))
  ∧ (Forall not_nan (x :: h) → ∀ y, y ∈ x :: h → tuple_le r.2 y).
Proof.
  intros Hh r. subst r. destruct h as [|top rest].
  { unfold heapq.heappushpop. cbn [fst snd]. split; [done|]. split; [done|].
    split; [by left|].
    intros _ y [->|[]%elem_of_nil]%elem_of_cons. apply tuple_le_refl. }
  destruct (tuple_ltb top x) eqn:Hlt.
  - destruct (heappushpop_replace top rest x Hlt Hh) as (h' & -> & Hh' & Hperm).
    cbn [fst snd]. split; [done|]. split; [rewrite Hperm; apply perm_swap|].
    split; [right; by exists top, rest|].
    intros Hnan. apply Forall_cons in Hnan as [_ Hnan].
    pose proof (heap_root_minimum top rest Hnan Hh) as [_ Hmin].
    intros y [->|Hy]%elem_of_cons; [by apply tuple_ltb_le|by apply Hmin].
  - unfold heapq.heappushpop. rewrite Hlt. cbn [fst snd].
    split; [done|]. split; [done|].
    split; [left; split; [done|by intros ? [= <-]]|].
    intros Hnan. apply Forall_cons in Hnan as [_ Hnan].
    pose proof (heap_root_minimum top rest Hnan Hh) as [_ Hmin].
    assert (not_nan top) as Htn by (by apply Forall_cons in Hnan as [? _]).
    intros y [->|Hy]%elem_of_cons; [apply tuple_le_refl|].
    eapply tuple_le_trans; [exact Htn|exact Hlt|by apply Hmin].
Qed.

(** ** [os.path] on the characters of a path *)

Section PathFacts.

Import os_path.

Implicit Types (p l a b : list ascii) (c x : ascii).

(** [rfind] finds the last occurrence. *)
Lemma rfind_spec p c :
  (rfind p c = -1 ∧ c ∉ p)
  ∨ ∃ l1 l2, p = l1 ++ c :: l2 ∧ (c ∉ l2) ∧ rfind p c = Z.of_nat (length l1).
Proof.
  induction p as [|x p IH]; simpl.
  - left. split; [done|]. apply not_elem_of_nil.
  - destruct IH as [[Hr Hnin]|(l1 & l2 & -> & Hnin & Hr)]; rewrite Hr.
    + simpl (0 <=? -1). cbv iota. destruct (Ascii.eqb_spec x c) as [->|Hne].
      * right. by exists [], p.
      * left. split; [done|]. by apply not_elem_of_cons.
    + right. destruct (Z.leb_spec 0 (Z.of_nat (length l1))); [|lia].
      exists (x :: l1), l2. split; [done|]. split; [done|]. simpl length. lia.
Qed.

Lemma rstrip_app_sep l c : rstrip (l ++ [c]) c = rstrip l c.
Proof.
  induction l as [|x l IH]; simpl; [by rewrite Ascii.eqb_refl|by rewrite IH].
Qed.

Lemma rstrip_id l c : last l ≠ Some c → rstrip l c = l.
Proof.
  induction l as [|x l IH]; [done|]. intros Hl. simpl.
  destruct l as [|y l].
  - simpl in *. destruct (Ascii.eqb_spec x c) as [->|]; [done|done].
  - rewrite IH by done. done.
Qed.

Lemma last_Forall_sep l : l ≠ [] → Forall (λ x, x = sep) l → last l = Some sep.
Proof.
  intros Hne Hl. destruct (last l) as [y|] eqn:Hy.
  - apply last_Some in Hy as [l' ->].
    apply Forall_app in Hl as [_ Hl]. by inversion Hl; subst.
  - by apply last_None in Hy.
Qed.

Lemma replicate_Forall l c : l = replicate (length l) c ↔ Forall (λ x, x = c) l.
Proof.
  split.
  - intros ->. apply Forall_replicate. done.
  - intros Hl. induction Hl as [|x l -> _ IH]; [done|]. simpl. by rewrite <- IH.
Qed.

(** [split] cuts a path after its last separator. *)
Lemma split_chars_cases p :
  ((sep ∉ p) ∧ split_chars p = ([], p))
  ∨ ∃ l1 l2,
      p = l1 ++ sep :: l2 ∧ (sep ∉ l2)
      ∧ (split_chars p).2 = l2
      ∧ ((Forall (λ x, x = sep) l1 ∧ (split_chars p).1 = l1 ++ [sep])
         ∨ (¬ Forall (λ x, x = sep) l1
            ∧ (split_chars p).1 = rstrip (l1 ++ [sep]) sep)).
Proof.
  unfold split_chars.
  destruct (rfind_spec p sep) as [[Hr Hnin]|(l1 & l2 & Hp & Hnin & Hr)]; rewrite Hr.
  - left. split; [done|]. simpl. by rewrite drop_0.
  - right. exists l1, l2. split; [done|]. split; [done|].
    assert (Z.to_nat (Z.of_nat (length l1) + 1) = length (l1 ++ [sep])) as ->
      by (rewrite length_app; simpl; lia).
    rewrite Hp. rewrite (cons_middle sep l1 l2), app_assoc.
    rewrite take_app_length, drop_app_length. cbn [fst snd]. split; [done|].
    rewrite (bool_decide_eq_false_2 (l1 ++ [sep] = [])) by (by destruct l1).
    cbn [negb andb].
    destruct (decide (Forall (λ x, x = sep) l1)) as [Hall|Hnall].
    + left. split; [done|].
      rewrite bool_decide_eq_true_2; [done|].
      apply replicate_Forall, Forall_app. split; [done|by repeat constructor].
    + right. split; [done|].
      rewrite bool_decide_eq_false_2; [done|].
      intros Hrep%replicate_Forall. by apply Forall_app in Hrep as [? _].
Qed.

(** A path with two separators in a row contains [//]. *)
Lemma str_contains_double_sep l1 l2 :
  str_contains "//" (string_of_list_ascii (l1 ++ sep :: sep :: l2)) = true.
Proof.
  induction l1 as [|x l1 IH]; simpl.
  - unfold sep. simpl. by destruct (string_of_list_ascii l2).
  - rewrite IH. apply orb_true_r.
Qed.

(** The directory part of a path without [//], and what [join] makes of
    the head [split] returns. *)
Lemma split_chars_dir p :
  str_contains "//" (string_of_list_ascii p) = false →
  ∃ dir,
    p = dir ++ (split_chars p).2
    ∧ (sep ∉ (split_chars p).2)
    ∧ (dir = [] ∨ last dir = Some sep)
    ∧ ∀ b, head b ≠ Some sep → join_chars (split_chars p).1 b = dir ++ b.
Proof.
  intros Hdouble.
  destruct (split_chars_cases p) as [[Hnin ->]|(l1 & l2 & Hp & Hnin & -> & Hhead)].
  { exists []. split; [done|]. split; [done|]. split; [by left|].
    intros b Hb. unfold join_chars.
    rewrite bool_decide_eq_false_2 by done.
    by rewrite bool_decide_eq_true_2. }
  exists (l1 ++ [sep]). split; [by rewrite <- app_assoc|]. split; [done|].
  split; [right; apply last_snoc|].
  intros b Hb. unfold join_chars.
  rewrite bool_decide_eq_false_2 by done.
  assert (l1 = [] ∨ (l1 ≠ [] ∧ last l1 ≠ Some sep)) as [->|[Hne Hlast]].
  { destruct (decide (l1 = [])) as [|Hne]; [by left|]. right. split; [done|].
    intros Hl. apply last_Some in Hl as [l1' ->].
    rewrite Hp, <- !app_assoc in Hdouble. simpl in Hdouble.
    by rewrite str_contains_double_sep in Hdouble. }
  - destruct Hhead as [[_ ->]|[Hnall _]]; [|by destruct Hnall].
    rewrite (bool_decide_eq_true_2 (last _ = Some sep)) by done.
    by rewrite orb_true_r.
  - destruct Hhead as [[Hall _]|[_ ->]].
    { by rewrite (last_Forall_sep l1) in Hlast. }
    rewrite rstrip_app_sep, rstrip_id by done.
    rewrite (bool_decide_eq_false_2 (l1 = [])) by done.
    rewrite (bool_decide_eq_false_2 (last l1 = Some sep)) by done.
    simpl. by rewrite <- app_assoc.
Qed.

(** *** [splitext] *)

Lemma splitext_loop_found n p i d j :
  (i ≤ j < d)%nat → p !! j ≠ Some extsep → (d - i ≤ n)%nat →
  _splitext_loop n p i d = Some (take d p, drop d p).
Proof.
  revert i. induction n as [|n IH]; intros i Hij Hj Hn; [lia|].
  simpl. destruct (Nat.ltb_spec i d); [|lia].
  destruct (decide (p !! i = Some extsep)) as [Hi|Hi].
  - rewrite bool_decide_eq_true_2 by done. simpl.
    apply IH; [|done|lia].
    assert (i ≠ j) by (intros ->; done). lia.
  - by rewrite bool_decide_eq_false_2.
Qed.

Lemma splitext_loop_none n p i d :
  (∀ k, (i ≤ k < d)%nat → p !! k = Some extsep) →
  _splitext_loop n p i d = None.
Proof.
  revert i. induction n as [|n IH]; intros i Hk; [done|].
  simpl. destruct (Nat.ltb_spec i d); [|done].
  rewrite bool_decide_eq_true_2 by (apply Hk; lia). simpl.
  apply IH. intros k ?. apply Hk. lia.
Qed.

(** [splitext] on a file name: the extension starts at the last dot,
    unless only dots come before it. *)
Lemma splitext_chars_name t :
  sep ∉ t →
  (splitext_chars t = (t, [])
   ∧ ∃ k l2, t = replicate k extsep ++ l2 ∧ (extsep ∉ l2))
  ∨ ∃ root e,
      splitext_chars t = (root, extsep :: e)
      ∧ t = root ++ extsep :: e ∧ (extsep ∉ e)
      ∧ ¬ Forall (λ x, x = extsep) root.
Proof.
  intros Hsep. unfold splitext_chars.
  destruct (rfind_spec t sep) as [[-> _]|(l1 & l2 & -> & _)].
  2:{ exfalso. apply Hsep. apply elem_of_app. right. by left. }
  destruct (rfind_spec t extsep) as [[-> Hdot]|(l1 & l2 & Ht & Hdot & ->)].
  { left. split; [done|]. by exists 0%nat, t. }
  destruct (Z.ltb_spec (-1) (Z.of_nat (length l1))); [|lia].
  rewrite Nat2Z.id. simpl (Z.to_nat (-1 + 1)).
  destruct (decide (Forall (λ x, x = extsep) l1)) as [Hall|Hnall].
  - left. rewrite splitext_loop_none.
    + split; [done|]. exists (S (length l1)), l2. split; [|done].
      apply replicate_Forall in Hall. rewrite Ht. rewrite Hall at 1.
      by rewrite (cons_middle extsep), app_assoc, <- replicate_S_end.
    + intros k Hk. rewrite Ht, lookup_app_l by lia.
      destruct (lookup_lt_is_Some_2 l1 k) as [y Hy]; [lia|].
      rewrite Hy. f_equal. by apply (Forall_lookup_1 _ _ _ _ Hall Hy).
  - right. exists l1, l2.
    apply not_Forall_Exists in Hnall; [|apply _].
    apply Exists_exists in Hnall as (y & [j Hj]%list_elem_of_lookup & Hy).
    pose proof (lookup_lt_Some _ _ _ Hj) as Hlt.
    rewrite (splitext_loop_found _ _ _ _ j); [| lia | | lia].
    + rewrite Ht. rewrite take_app_length, drop_app_length.
      split; [done|]. split; [done|]. split; [done|].
      intros Hall. apply Hy. by apply (Forall_lookup_1 _ _ _ _ Hall Hj).
    + rewrite Ht, lookup_app_l, Hj by done. intros [= ->]. by apply Hy.
Qed.

End PathFacts.

(** ** The path template of [__init__] *)

Section PathTheorems.

Variable format_field : string → Z → gmap string float → option string.

Lemma head_not_sep_of_notin (b : list ascii) :
  os_path.sep ∉ b → head b ≠ Some os_path.sep.
Proof. destruct b as [|x b]; [done|]. intros Hn [= ->]. apply Hn. by left. Qed.

(** [join] undoes [split] on a path without [//], and the tail [split]
    returns holds no separator. *)
Theorem split_join_round_trip path :
  str_contains "//" path = false →
  os_path.join (os_path.split path).1 (os_path.split path).2 = path
  ∧ os_path.sep ∉ list_ascii_of_string (os_path.split path).2.
Proof.
  intros Hd. unfold os_path.join, os_path.split.
  rewrite <- (string_of_list_ascii_of_string path) in Hd.
  destruct (split_chars_dir _ Hd) as (dir & Hp & Hsep & _ & Hjoin).
  destruct (os_path.split_chars (list_ascii_of_string path)) as [h tl].
  cbn [fst snd] in *. rewrite !list_ascii_of_string_of_list_ascii.
  split; [|done].
  rewrite Hjoin by (by apply head_not_sep_of_notin).
  by rewrite <- Hp, string_of_list_ascii_of_string.
Qed.

(** The extension [splitext] cuts off a file name: none, when the name
    has no dot or only dots before its last dot; the text from the last
    dot on, when a character other than a dot comes before it.  Root and
    extension make up the name. *)
Theorem splitext_extension name :
  os_path.sep ∉ list_ascii_of_string name →
  let root := list_ascii_of_string (os_path.splitext name).1 in
  let ext := list_ascii_of_string (os_path.splitext name).2 in
  root ++ ext = list_ascii_of_string name
  ∧ ((ext = []
      ∧ ∃ k rest, list_ascii_of_string name = replicate k os_path.extsep ++ rest
                  ∧ (os_path.extsep ∉ rest))
     ∨ (∃ e, ext = os_path.extsep :: e ∧ (os_path.extsep ∉ e)
             ∧ ¬ Forall (λ x, x = os_path.extsep) root)).
Proof.
  intros Hsep root ext. subst root ext. unfold os_path.splitext.
  pose proof (splitext_chars_app (list_ascii_of_string name)) as Happ.
  destruct (splitext_chars_name _ Hsep) as [[Hs Hdots]|(r & e & Hs & Ht & He & Hr)];
    rewrite Hs in Happ |- *; cbn [fst snd] in *;
    rewrite !list_ascii_of_string_of_list_ascii.
  - split; [done|]. by left.
  - split; [done|]. right. by exists e.
Qed.

(** The template of a path without [//]: the path with the suffix before
    the extension of its last component. *)
Lemma init_filepath_dir path mon verb n weights mode per :
  str_contains "//" path = false →
  let tl := (os_path.split_chars (list_ascii_of_string path)).2 in
  let name := (os_path.splitext_chars tl).1 in
  let ext := (os_path.splitext_chars tl).2 in
  ∃ dir,
    list_ascii_of_string path = dir ++ name ++ ext
    ∧ list_ascii_of_string (filepath (__init__ path mon verb n weights mode per).1)
      = dir ++ name ++ list_ascii_of_string "_{epoch:d}" ++ ext
    ∧ (dir = [] ∨ last dir = Some os_path.sep)
    ∧ (os_path.sep ∉ tl) ∧ name ++ ext = tl
    ∧ os_path.join_chars (os_path.split_chars (list_ascii_of_string path)).1 name
      = dir ++ name.
Proof.
  intros Hd tl name ext.
  rewrite <- (string_of_list_ascii_of_string path) in Hd.
  destruct (split_chars_dir _ Hd) as (dir & Hp & Hsep & Hdir & Hjoin).
  destruct (init_filepath path mon verb n weights mode per) as [Hf Happ].
  cbv zeta in Hf, Happ. fold tl in Hp, Hsep, Hf, Happ. fold name ext in Hf, Happ.
  assert (head name ≠ Some os_path.sep) as Hname.
  { destruct name as [|x name']; [done|].
    intros [= ->]. apply Hsep. rewrite <- Happ. by left. }
  exists dir. split; [by rewrite Happ|].
  split; [|split; [done|split; [done|split; [done|by apply Hjoin]]]].
  rewrite Hf. apply Hjoin. by destruct name.
Qed.

(** Where [__init__] puts the suffix in a path without [//]: between
    the name and the extension of the last component, the directory
    part, the name and the extension staying as they are. *)
Theorem init_inserts_suffix path mon verb n weights mode per :
  str_contains "//" path = false →
  ∃ dir name ext,
    list_ascii_of_string path = dir ++ name ++ ext
    ∧ list_ascii_of_string (filepath (__init__ path mon verb n weights mode per).1)
      = dir ++ name ++ list_ascii_of_string "_{epoch:d}" ++ ext
    ∧ (dir = [] ∨ last dir = Some os_path.sep)
    ∧ (os_path.sep ∉ name ++ ext)
    ∧ ((ext = []
        ∧ ∃ k rest, name = replicate k os_path.extsep ++ rest
                    ∧ (os_path.extsep ∉ rest))
       ∨ (∃ e, ext = os_path.extsep :: e ∧ (os_path.extsep ∉ e)
               ∧ ¬ Forall (λ x, x = os_path.extsep) name)).
Proof.
  intros Hd.
  destruct (init_filepath_dir path mon verb n weights mode per Hd)
    as (dir & Hp & Hf & Hdir & Hsep & Happ & _).
  set (tl := (os_path.split_chars (list_ascii_of_string path)).2) in *.
  exists dir, (os_path.splitext_chars tl).1, (os_path.splitext_chars tl).2.
  split; [done|]. split; [done|]. split; [done|]. split; [by rewrite Happ|].
  destruct (splitext_chars_name tl Hsep) as [[Hs Hdots]|(r & e & Hs & Ht & He & Hr)];
    rewrite Hs; cbn [fst snd].
  - by left.
  - right. by exists e.
Qed.

Lemma join_chars_same_branch a m c x1 x2 e :
  ∃ pre,
    (pre = [] ∨ pre = a ∨ pre = a ++ [os_path.sep])
    ∧ os_path.join_chars a (m ++ (c :: x1) ++ e) = pre ++ m ++ (c :: x1) ++ e
    ∧ os_path.join_chars a (m ++ (c :: x2) ++ e) = pre ++ m ++ (c :: x2) ++ e.
Proof.
  unfold os_path.join_chars.
  assert (head (m ++ (c :: x1) ++ e) = head (m ++ (c :: x2) ++ e)) as <-.
  { by destruct m. }
  destruct (bool_decide (head _ = Some os_path.sep)).
  - exists []. split; [by left|done].
  - destruct (_ || _).
    + exists a. split; [right; by left|done].
    + exists (a ++ [os_path.sep]). split; [right; by right|].
      by rewrite <- !app_assoc.
Qed.

(** The file name of a checkpoint, for a path without braces: every
    call resolves [join(head, model_name + '_' + str(epoch + 1) + ext)],
    whatever the logs hold besides a key [epoch]. *)
Theorem brace_free_checkpoint_name path mon verb n weights mode per calls epoch logs :
  let self := (run format_field (__init__ path mon verb n weights mode per).1
                 calls).1 in
  let head := (os_path.split path).1 in
  let tail := (os_path.split path).2 in
  let model_name := (os_path.splitext tail).1 in
  let ext := (os_path.splitext tail).2 in
  brace_free path →
  default ∅ logs !! "epoch"%string = None →
  str_format format_field (filepath self) (epoch + 1) (default ∅ logs)
  = Some (os_path.join head
            (model_name +:+ "_" +:+ str_of_int (epoch + 1) +:+ ext)).
Proof.
  intros self head tail model_name ext Hb Hl.
  assert (filepath self = filepath (__init__ path mon verb n weights mode per).1)
    as ->.
  { unfold self.
    by destruct (run_same_config format_field
                   (__init__ path mon verb n weights mode per).1 calls)
      as (_ & _ & -> & _). }
  destruct (init_filepath path mon verb n weights mode per) as [Hf _].
  cbv zeta in Hf.
  destruct (split_chars_Forall _ _ Hb) as [Hh Ht].
  destruct (splitext_chars_Forall _ _ Ht) as [Hm He].
  set (h := (os_path.split_chars (list_ascii_of_string path)).1) in *.
  set (tl := (os_path.split_chars (list_ascii_of_string path)).2) in *.
  set (mn := (os_path.splitext_chars tl).1) in *.
  set (ex := (os_path.splitext_chars tl).2) in *.
  assert (head = string_of_list_ascii h ∧ tail = string_of_list_ascii tl)
    as [-> Htl].
  { unfold head, tail, h, tl, os_path.split.
    by destruct (os_path.split_chars (list_ascii_of_string path)). }
  assert (model_name = string_of_list_ascii mn ∧ ext = string_of_list_ascii ex)
    as (-> & ->).
  { unfold model_name, ext, mn, ex, os_path.splitext.
    rewrite Htl, list_ascii_of_string_of_list_ascii.
    by destruct (os_path.splitext_chars tl). }
  destruct (join_chars_same_branch h mn "_"%char
              (list_ascii_of_string "{epoch:d}")
              (list_ascii_of_string (str_of_int (epoch + 1))) ex)
    as (pre & Hpre & Hj1 & Hj2).
  assert (list_ascii_of_string
            (filepath (__init__ path mon verb n weights mode per).1)
          = (pre ++ mn ++ ["_"%char]) ++ list_ascii_of_string "{epoch:d}" ++ ex)
    as Hf'.
  { rewrite Hf. etrans; [exact Hj1|]. by rewrite <- !app_assoc. }
  assert (brace_free_chars pre) as Hpre'.
  { destruct Hpre as [-> | [-> | ->]]; [constructor|done|].
    apply Forall_app. split; [done|]. by repeat constructor. }
  rewrite (str_format_only_epoch format_field _ (pre ++ mn ++ ["_"%char]) ex).
  - f_equal. unfold os_path.join.
    rewrite list_ascii_of_string_of_list_ascii, !chars_app,
      !list_ascii_of_string_of_list_ascii.
    rewrite <- (string_of_list_ascii_of_string (str_of_int (epoch + 1))) at 1.
    rewrite <- !str_of_chars_app. f_equal.
    etrans; [|symmetry; exact Hj2]. by rewrite <- !app_assoc.
  - exists (pre ++ mn ++ ["_"%char]), ex.
    split; [done|].
    split; apply brace_free_literal; [|done].
    apply Forall_app. split; [done|]. apply Forall_app. split; [done|].
    by repeat constructor.
  - done.
Qed.

End PathTheorems.

(** ** [str.format] on concatenated templates *)

Section FormatFacts.

Variable format_field : string → Z → gmap string float → option string.

(** One step of the scanner. *)
Lemma format_chars_cons c t st epoch logs :
  format_chars format_field (c :: t) st epoch logs
  = match st with
    | Some (depth, acc) =>
        if bool_decide (c = "}"%char) then
          match depth with
          | O =>
              r ← render_field format_field (rev acc) epoch logs;
              rest ← format_chars format_field t None epoch logs;
              Some (r ++ rest)
          | S depth' => format_chars format_field t (Some (depth', c :: acc)) epoch logs
          end
        else if bool_decide (c = "{"%char)
        then format_chars format_field t (Some (S depth, c :: acc)) epoch logs
        else format_chars format_field t (Some (depth, c :: acc)) epoch logs
    | None =>
        if bool_decide (c = "{"%char) then
          match t with
          | [] => None
          | c' :: t'' =>
              if bool_decide (c' = "{"%char)
              then (c ::.) <$> format_chars format_field t'' None epoch logs
              else format_chars format_field t (Some (O, [])) epoch logs
          end
        else if bool_decide (c = "}"%char) then
          match t with
          | [] => None
          | c' :: t'' =>
              if bool_decide (c' = "}"%char)
              then (c ::.) <$> format_chars format_field t'' None epoch logs
              else None
          end
        else (c ::.) <$> format_chars format_field t None epoch logs
    end.
Proof. by destruct st as [[depth acc]|]. Qed.

(** A template that formats is scanned to its end outside a field, so
    what follows it is formatted on its own. *)
Lemma format_chars_app t1 t2 epoch logs :
  ∀ st r1,
    format_chars format_field t1 st epoch logs = Some r1 →
    format_chars format_field (t1 ++ t2) st epoch logs
    = (r1 ++.) <$> format_chars format_field t2 None epoch logs.
Proof.
  remember (length t1) as k eqn:Hk. revert t1 Hk.
  induction k as [k IH] using lt_wf_ind. intros t1 -> st r1.
  assert (∀ t st r, (length t < length t1)%nat →
            format_chars format_field t st epoch logs = Some r →
            format_chars format_field (t ++ t2) st epoch logs
            = (r ++.) <$> format_chars format_field t2 None epoch logs) as IH'.
  { intros t st' r Hlt. by apply (IH (length t)). }
  clear IH.
  assert (∀ c t r, (length t < length t1)%nat →
            (c ::.) <$> format_chars format_field t None epoch logs = Some r →
            (c ::.) <$> format_chars format_field (t ++ t2) None epoch logs
            = (r ++.) <$> format_chars format_field t2 None epoch logs) as Hcons.
  { intros c t r Hlt Hr.
    destruct (format_chars format_field t None epoch logs) as [rest|] eqn:Hrest;
      [|done].
    injection Hr as <-. rewrite (IH' t None rest Hlt Hrest).
    by destruct (format_chars format_field t2 None epoch logs). }
  destruct t1 as [|c t1].
  { destruct st as [[depth acc]|]; [done|]. intros [= <-]. simpl.
    by destruct (format_chars format_field t2 None epoch logs). }
  rewrite <- app_comm_cons, !format_chars_cons.
  destruct st as [[depth acc]|].
  - destruct (bool_decide (c = "}"%char)).
    + destruct depth as [|depth]; [|apply IH'; simpl; lia].
      destruct (render_field format_field (rev acc) epoch logs) as [r|];
        simpl; [|done].
      destruct (format_chars format_field t1 None epoch logs) as [rest|] eqn:Hrest;
        simpl; [|done].
      intros [= <-]. rewrite (IH' t1 None rest ltac:(simpl; lia) Hrest).
      destruct (format_chars format_field t2 None epoch logs); simpl; [|done].
      by rewrite app_assoc.
    + destruct (bool_decide (c = "{"%char)); apply IH'; simpl; lia.
  - destruct (bool_decide (c = "{"%char)).
    + destruct t1 as [|c' t1]; [done|]. rewrite <- app_comm_cons.
      destruct (bool_decide (c' = "{"%char)).
      * apply Hcons. simpl. lia.
      * rewrite app_comm_cons. apply IH'. simpl. lia.
    + destruct (bool_decide (c = "}"%char)).
      * destruct t1 as [|c' t1]; [done|]. rewrite <- app_comm_cons.
        destruct (bool_decide (c' = "}"%char)); [|done].
        apply Hcons. simpl. lia.
      * apply Hcons. simpl. lia.
Qed.

Lemma str_format_Some template epoch logs r :
  str_format format_field template epoch logs = Some r ↔
  logs !! "epoch"%string = None
  ∧ ∃ l, format_chars format_field (list_ascii_of_string template) None epoch logs
         = Some l
         ∧ r = string_of_list_ascii l.
Proof.
  unfold str_format. destruct (logs !! "epoch"%string) as [v|] eqn:He.
  - rewrite bool_decide_eq_true_2 by (by eexists). split; [done|by intros [? _]].
  - rewrite bool_decide_eq_false_2 by (by intros [? ?]).
    destruct (format_chars _ _ _ _ _) as [l|]; simpl.
    + split; [intros [= <-]; split; [done|by exists l]|].
      by intros (_ & l' & [= <-] & ->).
    + split; [done|]. by intros (_ & l' & ? & _).
Qed.

Lemma str_format_app t1 t2 epoch logs r1 r2 :
  str_format format_field t1 epoch logs = Some r1 →
  str_format format_field t2 epoch logs = Some r2 →
  str_format format_field (t1 +:+ t2) epoch logs = Some (r1 +:+ r2).
Proof.
  intros (He & l1 & H1 & ->)%str_format_Some (_ & l2 & H2 & ->)%str_format_Some.
  apply str_format_Some. split; [done|]. exists (l1 ++ l2).
  rewrite chars_app, (format_chars_app _ _ _ _ _ _ H1), H2.
  split; [done|]. by rewrite str_of_chars_app.
Qed.

(** [str.format] reads a template from left to right: when a template
    [t1] formats, [t1 + t2] formats exactly when [t2] does, and to the
    two results one after the other. *)
Theorem format_concat t1 t2 epoch logs r1 :
  str_format format_field t1 epoch logs = Some r1 →
  str_format format_field (t1 +:+ t2) epoch logs
  = String.append r1 <$> str_format format_field t2 epoch logs.
Proof.
  intros (He & l1 & H1 & ->)%str_format_Some. unfold str_format.
  rewrite bool_decide_eq_false_2 by (rewrite He; by intros [? ?]).
  rewrite chars_app, (format_chars_app _ _ _ _ _ _ H1).
  destruct (format_chars format_field (list_ascii_of_string t2) None epoch logs)
    as [l2|]; simpl; [|done].
  by rewrite str_of_chars_app.
Qed.

Lemma format_epoch_field epoch logs :
  logs !! "epoch"%string = None →
  str_format format_field "_{epoch:d}" epoch logs = Some ("_" +:+ str_of_int epoch).
Proof.
  intros He. apply str_format_Some. split; [done|].
  exists ("_"%char :: list_ascii_of_string (str_of_int epoch)).
  split; [|by rewrite <- (string_of_list_ascii_of_string (str_of_int epoch)) at 1].
  simpl. by rewrite app_nil_r.
Qed.

Lemma format_chars_field f rest depth acc epoch logs :
  brace_free_chars f →
  format_chars format_field (f ++ rest) (Some (depth, acc)) epoch logs
  = format_chars format_field rest (Some (depth, rev f ++ acc)) epoch logs.
Proof.
  intros Hf. revert acc. induction Hf as [|c f [Ho Hc] _ IH]; intros acc; [done|].
  simpl. rewrite (bool_decide_eq_false_2 (c = "}"%char)),
    (bool_decide_eq_false_2 (c = "{"%char)) by done.
  rewrite IH. by rewrite <- app_assoc.
Qed.

(** A replacement field whose key the logs lack makes [str.format]
    raise, whatever follows it: so does the docstring's
    [{val_loss:.2f}] on logs without [val_loss]. *)
Theorem missing_key_raises t1 field t2 epoch logs :
  let name := string_of_list_ascii (arg_name (list_ascii_of_string field)) in
  is_Some (str_format format_field t1 epoch logs) →
  brace_free field →
  name ≠ "epoch"%string →
  logs !! name = None →
  str_format format_field (t1 +:+ "{" +:+ field +:+ "}" +:+ t2) epoch logs = None.
Proof.
  intros name [r1 (He & l1 & H1 & _)%str_format_Some] Hb Hname Hl.
  unfold str_format. rewrite bool_decide_eq_false_2 by (rewrite He; by intros [? ?]).
  rewrite !chars_app, (format_chars_app _ _ _ _ _ _ H1).
  assert (format_chars format_field
            (list_ascii_of_string "{" ++ list_ascii_of_string field
             ++ list_ascii_of_string "}" ++ list_ascii_of_string t2)
            None epoch logs = None) as ->; [|done].
  change (list_ascii_of_string "{") with ["{"%char].
  change (list_ascii_of_string "}") with ["}"%char].
  assert (format_chars format_field
            (list_ascii_of_string field ++ ["}"%char] ++ list_ascii_of_string t2)
            (Some (O, [])) epoch logs = None) as Hfield.
  { rewrite format_chars_field by done. simpl.
    rewrite app_nil_r, rev_involutive.
    unfold render_field. fold name.
    rewrite string_of_list_ascii_of_string.
    rewrite bool_decide_eq_false_2.
    - rewrite (bool_decide_eq_false_2 (name = "epoch"%string)) by done.
      by rewrite bool_decide_eq_false_2 by (rewrite Hl; by intros [? ?]).
    - intros Heq. apply Hname. unfold name. by rewrite Heq. }
  unfold brace_free in Hb.
  destruct (list_ascii_of_string field) as [|c f] eqn:Hf; [done|].
  inversion Hb as [|? ? [Ho Hc] Hb']; subst.
  cbn [app]. rewrite format_chars_cons.
  rewrite (bool_decide_eq_true_2 ("{"%char = "{"%char)) by done.
  rewrite (bool_decide_eq_false_2 (c = "{"%char)) by done.
  exact Hfield.
Qed.

(** The file name of a checkpoint, for a template of the user's (a path
    without [//]): the stored template is the path with [_{epoch:d}]
    before the extension, and when the part before the extension and
    the extension format on their own, the checkpoint's path is the
    formatted path with [_<epoch + 1>] before the extension. *)
Theorem user_template_checkpoint_name path mon verb n weights mode per calls
    epoch logs r1 r2 :
  let self := (run format_field (__init__ path mon verb n weights mode per).1
                 calls).1 in
  let head := (os_path.split path).1 in
  let tail := (os_path.split path).2 in
  let stem := os_path.join head (os_path.splitext tail).1 in
  let ext := (os_path.splitext tail).2 in
  str_contains "//" path = false →
  path = stem +:+ ext
  ∧ filepath self = stem +:+ "_{epoch:d}" +:+ ext
  ∧ (str_format format_field stem (epoch + 1) logs = Some r1 →
     str_format format_field ext (epoch + 1) logs = Some r2 →
     str_format format_field (filepath self) (epoch + 1) logs
     = Some (r1 +:+ "_" +:+ str_of_int (epoch + 1) +:+ r2)).
Proof.
  intros self head tail stem ext Hd.
  assert (filepath self = filepath (__init__ path mon verb n weights mode per).1)
    as ->.
  { unfold self.
    by destruct (run_same_config format_field
                   (__init__ path mon verb n weights mode per).1 calls)
      as (_ & _ & -> & _). }
  destruct (init_filepath_dir path mon verb n weights mode per Hd)
    as (dir & Hp & Hf & _ & _ & _ & Hjoin).
  set (h := (os_path.split_chars (list_ascii_of_string path)).1) in *.
  set (tl := (os_path.split_chars (list_ascii_of_string path)).2) in *.
  set (mn := (os_path.splitext_chars tl).1) in *.
  set (ex := (os_path.splitext_chars tl).2) in *.
  assert (stem = string_of_list_ascii (dir ++ mn) ∧ ext = string_of_list_ascii ex)
    as (-> & ->).
  { assert (head = string_of_list_ascii h ∧ tail = string_of_list_ascii tl)
      as [Hhead Htail].
    { unfold head, tail, h, tl, os_path.split.
      by destruct (os_path.split_chars (list_ascii_of_string path)). }
    assert ((os_path.splitext tail).1 = string_of_list_ascii mn
            ∧ (os_path.splitext tail).2 = string_of_list_ascii ex) as [Hmn Hex].
    { rewrite Htail. unfold os_path.splitext, mn, ex.
      rewrite list_ascii_of_string_of_list_ascii.
      by destruct (os_path.splitext_chars tl). }
    unfold stem, ext. rewrite Hmn, Hex, Hhead. split; [|done].
    unfold os_path.join. by rewrite !list_ascii_of_string_of_list_ascii, Hjoin. }
  assert (filepath (__init__ path mon verb n weights mode per).1
          = string_of_list_ascii (dir ++ mn) +:+ "_{epoch:d}"
            +:+ string_of_list_ascii ex) as Hfs.
  { rewrite <- (string_of_list_ascii_of_string (filepath _)), Hf.
    rewrite app_assoc, !str_of_chars_app.
    by rewrite string_of_list_ascii_of_string. }
  split; [|split; [done|]].
  { rewrite <- (string_of_list_ascii_of_string path), Hp.
    by rewrite app_assoc, str_of_chars_app. }
  intros H1 H2. rewrite Hfs.
  pose proof H1 as (He & _)%str_format_Some.
  apply (str_format_app _ _ _ _ r1 ("_" +:+ str_of_int (epoch + 1) +:+ r2) H1).
  by apply (str_format_app "_{epoch:d}" _ _ _ ("_" +:+ str_of_int (epoch + 1)) r2
              (format_epoch_field _ _ He)).
Qed.

End FormatFacts.

(** ** The direction of [auto] *)

(** The direction [auto] picks: [coef] is [1.0] exactly when the name
    of the monitor contains [acc] or starts with [fmeasure], and [-1.0]
    exactly when it does neither. *)
Theorem auto_mode_direction path mon verb n weights per :
  let self := (__init__ path mon verb n weights "auto" per).1 in
  (coef self = 1%Q ↔
   (∃ a b, mon = a +:+ "acc" +:+ b) ∨ (∃ b, mon = "fmeasure" +:+ b))
  ∧ (coef self = (-1)%Q ↔
     ¬ ((∃ a b, mon = a +:+ "acc" +:+ b) ∨ (∃ b, mon = "fmeasure" +:+ b))).
Proof.
  intros self.
  set (by_name := (∃ a b, mon = a +:+ "acc" +:+ b) ∨ (∃ b, mon = "fmeasure" +:+ b)).
  assert (coef self = if str_contains "acc" mon || startswith mon "fmeasure"
                      then 1%Q else (-1)%Q) as ->.
  { unfold self, __init__. destruct (os_path.split path) as [head tail].
    by destruct (os_path.splitext tail) as [model_name ext]. }
  assert (str_contains "acc" mon || startswith mon "fmeasure" = true ↔ by_name)
    as Hiff.
  { unfold by_name. by rewrite orb_true_iff, str_contains_spec, startswith_spec. }
  destruct (str_contains "acc" mon || startswith mon "fmeasure").
  - split; [by rewrite <- Hiff|]. split; [done|].
    intros Hn. exfalso. by apply Hn, Hiff.
  - split; [split; [done|by intros ?%Hiff]|]. split; [|done].
    by intros _ ?%Hiff.
Qed.

(** ** The claims at concrete inputs *)

Lemma sample_calls_never_nan : never_nan "val_loss" sample_calls.
Proof. repeat constructor; by vm_compute. Qed.

Lemma sample_calls_2_never_nan : never_nan "val_loss" (take 2 sample_calls).
Proof. repeat constructor; by vm_compute. Qed.

Lemma sample_resolved_paths :
  NoDup (resolved_paths format_field_sample
           (__init__ "model.h5" "val_loss" 0 2 false "min" 1).1 sample_calls).
Proof. apply (bool_decide_unpack _). by vm_compute. Qed.

Lemma sample_tracker :
  tracker (run format_field_sample sample_self (take 2 sample_calls)).1
  = sample_top :: sample_rest.
Proof. by vm_compute. Qed.

Lemma sample_is_heap : is_heap (sample_top :: sample_rest).
Proof.
  intros i Hi. assert (i = 1%nat) as -> by (simpl in Hi; lia). reflexivity.
Qed.

Lemma sample_not_nan : Forall not_nan (sample_top :: sample_rest).
Proof. by repeat constructor. Qed.

Lemma sample_top_minimum : is_minimum sample_top (sample_top :: sample_rest).
Proof.
  split; [by left|].
  intros y [->|[->|[]%elem_of_nil]%elem_of_cons]%elem_of_cons; reflexivity.
Qed.

Lemma C2_witness :
  0 < 2
  ∧ Z.of_nat (length (tracker (run format_field_sample
                                 (__init__ "model.h5" "val_loss" 0 2 false "min" 1).1
                                 sample_calls).1)) ≤ 2.
Proof.
  split; [lia|].
  apply (C2_capacity format_field_sample "model.h5" "val_loss" 0 2 false "min" 1
           sample_calls).
  lia.
Defined.

Lemma C4_witness :
  let self := (run format_field_sample sample_self (take 2 sample_calls)).1 in
  let evs := (on_epoch_end format_field_sample 2 (val_loss (finite 0.4)) self).1.2 in
  (length (persists evs) ≤ 1)%nat ∧ (length (deletes evs) ≤ 1)%nat
  ∧ tracker self = sample_top :: sample_rest
  ∧ tuple_ltb sample_top (candidate self 2 (finite 0.4) "model_3.h5") = true
  ∧ is_minimum sample_top (tracker self)
  ∧ file_ops evs = [os_remove "model_1.h5"; model_save "model_3.h5"]
  ∧ file_ops evs = [os_remove (item_path sample_top);
                    persist_event self "model_3.h5"].
Proof.
  cbv zeta.
  destruct (C4_effects_per_call format_field_sample) as (Hcount & Hroot & Hmin).
  destruct (Hcount (run format_field_sample sample_self (take 2 sample_calls)).1
              2 (val_loss (finite 0.4))) as (Hp & Hd & _).
  split; [exact Hp|]. split; [exact Hd|].
  split; [exact sample_tracker|]. split; [reflexivity|].
  split; [rewrite sample_tracker; exact sample_top_minimum|]. split.
  - apply (Hroot (run format_field_sample sample_self (take 2 sample_calls)).1
             2 (val_loss (finite 0.4)) "model_3.h5"%string (finite 0.4)
             sample_top sample_rest).
    + by vm_compute.
    + reflexivity.
    + reflexivity.
    + by vm_compute.
    + exact sample_tracker.
    + reflexivity.
  - apply (Hmin (run format_field_sample sample_self (take 2 sample_calls)).1
             2 (val_loss (finite 0.4)) "model_3.h5"%string (finite 0.4) sample_top).
    + rewrite sample_tracker. exact sample_is_heap.
    + rewrite sample_tracker. exact sample_not_nan.
    + by vm_compute.
    + reflexivity.
    + reflexivity.
    + by vm_compute.
    + rewrite sample_tracker. exact sample_top_minimum.
    + reflexivity.
Defined.

Lemma C5_witness :
  let fresh := (__init__ "model.h5" "val_loss" 0 2 false "min" 3).1 in
  let calls := [(0, val_loss (finite 0.5)); (1, val_loss (finite 0.3))] in
  (run format_field_sample fresh calls).2 = [[]; []]
  ∧ epochs_since_last_save (run format_field_sample fresh calls).1 = 2
  ∧ persists (on_epoch_end format_field_sample 2 (val_loss (finite 0.4))
                (run format_field_sample fresh calls).1).1.2
    = ["model_3.h5"%string].
Proof.
  cbv zeta.
  destruct (C5_interval_gate format_field_sample) as (_ & _ & Hwait & Hkth).
  destruct (Hwait "model.h5"%string "val_loss"%string 0 2 false "min"%string 3
              [(0, val_loss (finite 0.5)); (1, val_loss (finite 0.3))])
    as (Hevs & Hc & _); [by vm_compute|].
  split; [exact Hevs|]. split; [exact Hc|].
  apply (Hkth "model.h5"%string "val_loss"%string 0 2 false "min"%string 3
           [(0, val_loss (finite 0.5)); (1, val_loss (finite 0.3))] 2
           (val_loss (finite 0.4)) "model_3.h5"%string (finite 0.4)).
  - reflexivity.
  - lia.
  - reflexivity.
  - reflexivity.
Defined.

(** The docstring's template with logs that hold the training loss only:
    [str.format] raises [KeyError] for [val_loss] before the check of the
    metric, so the call emits no warning. *)
Lemma C6_counterexample :
  let self := (__init__ "weights.{epoch:02d}-{val_loss:.2f}.hdf5" "val_loss"
                 0 5 false "auto" 1).1 in
  let logs : option (gmap string float) := Some {[ "loss"%string := finite 0.7 ]} in
  let res := on_epoch_end format_field_sample 0 logs self in
  filepath self = "weights.{epoch:02d}-{val_loss:.2f}_{epoch:d}.hdf5"%string
  ∧ (period self <=? epochs_since_last_save self + 1) = true
  ∧ default ∅ logs !! monitor self = None
  ∧ res.1.2 = []
  ∧ res.2 = inl FormatError.
Proof. vm_compute. repeat split. Qed.

Lemma C6_witness :
  let self := sample_self in
  let logs : option (gmap string float) := Some {[ "loss"%string := finite 0.7 ]} in
  let res := on_epoch_end format_field_sample 0 logs self in
  (period self ≤ epochs_since_last_save self + 1
   ∧ default ∅ logs !! monitor self = None)
  ∧ res.1.2 = [warn "Can save best model only with val_loss available, skipping."]
  ∧ res.2 = inr tt
  ∧ tracker res.1.1 = [] ∧ epochs_since_last_save res.1.1 = 0.
Proof.
  cbv zeta.
  assert (period sample_self ≤ epochs_since_last_save sample_self + 1) as H1
    by (by vm_compute).
  assert (default ∅ (Some ({[ "loss"%string := finite 0.7 ]} : gmap string float))
            !! monitor sample_self = None) as H2 by reflexivity.
  split; [split; [exact H1|exact H2]|].
  destruct (C6_missing_metric format_field_sample sample_self 0
              (Some {[ "loss"%string := finite 0.7 ]}) H1 H2)
    as (_ & Ht & Hc & _ & _ & Hwarn & _).
  destruct Hwarn as [Hevs Hr]; [by eexists|].
  split; [exact Hevs|]. split; [exact Hr|]. split; [exact Ht|exact Hc].
Defined.


Lemma C9_witness :
  let self := (__init__ "dir/model.h5" "val_loss" 0 5 false "auto" 1).1 in
  let res := on_epoch_end format_field_sample 0 (val_loss (finite 0.5)) self in
  brace_free "dir/model.h5"
  ∧ str_format format_field_sample (filepath self) (0 + 1)
      (default ∅ (val_loss (finite 0.5)))
    = Some "dir/model_1.h5"%string
  ∧ persists res.1.2 = ["dir/model_1.h5"%string]
  ∧ candidate self 0 (finite 0.5) "dir/model_1.h5" ∈ tracker res.1.1
  ∧ str_format format_field_sample (filepath self) (9 + 1) ∅
    = Some "dir/model_10.h5"%string
  ∧ "dir/model_1.h5"%string ≠ "dir/model_10.h5"%string.
Proof.
  cbv zeta.
  assert (brace_free "dir/model.h5") as Hb.
  { unfold brace_free, brace_free_chars. simpl. by repeat constructor. }
  destruct (C9_path_template format_field_sample)
    as (_ & _ & _ & Hcall & _ & Hinit & _ & _ & Hinj).
  destruct (Hcall (__init__ "dir/model.h5" "val_loss" 0 5 false "auto" 1).1 0
              (val_loss (finite 0.5)) "dir/model_1.h5"%string (finite 0.5))
    as (Hpers & _ & Hin).
  { by vm_compute. }
  { reflexivity. }
  { reflexivity. }
  { left. by vm_compute. }
  split; [exact Hb|]. split; [reflexivity|]. split; [exact Hpers|].
  split; [exact Hin|]. split; [reflexivity|].
  destruct (Hinit "dir/model.h5"%string "val_loss"%string 0 5 false "auto"%string 1 Hb)
    as (pre & post & Ht).
  apply (Hinj _ pre post 0 None 9 None _ _ Ht); [reflexivity|reflexivity|lia].
Defined.

(** ** The further properties at concrete inputs *)

Lemma retained_files_are_live_witness :
  let fresh := (__init__ "model.h5" "val_loss" 0 2 false "min" 1).1 in
  let final := (run format_field_sample fresh sample_calls).1 in
  let traces := (run format_field_sample fresh sample_calls).2 in
  (0 ≤ 2 ∧ never_nan "val_loss" sample_calls
   ∧ NoDup (resolved_paths format_field_sample fresh sample_calls))
  ∧ NoDup (item_path <$> tracker final)
  ∧ live (concat traces) = list_to_set (item_path <$> tracker final).
Proof.
  cbv zeta.
  split; [split; [lia|split; [exact sample_calls_never_nan
                             |exact sample_resolved_paths]]|].
  apply (retained_files_are_live format_field_sample "model.h5" "val_loss" 0 2
           false "min" 1 sample_calls);
    [lia|exact sample_calls_never_nan|exact sample_resolved_paths].
Defined.

Lemma direction_orders_scores_witness :
  let smin := (__init__ "model.h5" "val_loss" 0 2 false "min" 1).1 in
  (0.3 < 0.5)%Q
  ∧ (0.5 * coef smin < 0.3 * coef smin)%Q
  ∧ tuple_ltb (candidate smin 0 (finite 0.5) "model_1.h5")
      (candidate smin 1 (finite 0.3) "model_2.h5")
    = true.
Proof.
  cbv zeta.
  assert ((0.3 < 0.5)%Q) as Hlt by reflexivity.
  split; [exact Hlt|].
  destruct (direction_orders_scores "model.h5" "val_loss" 0 2 false 1 0.3 0.5
              0 1 "model_1.h5" "model_2.h5" Hlt) as (H1 & H2 & _).
  split; [exact H1|exact H2].
Defined.

Lemma eligible_call_cases_witness :
  let self := sample_self in
  let res := on_epoch_end format_field_sample 0 (val_loss (finite 0.5)) self in
  (period self ≤ epochs_since_last_save self + 1
   ∧ str_format format_field_sample (filepath self) (0 + 1)
       (default ∅ (val_loss (finite 0.5)))
     = Some "model_1.h5"%string
   ∧ default ∅ (val_loss (finite 0.5)) !! monitor self = Some (finite 0.5))
  ∧ file_ops res.1.2 = [model_save "model_1.h5"].
Proof.
  cbv zeta.
  assert (period sample_self ≤ epochs_since_last_save sample_self + 1) as H1
    by (by vm_compute).
  split; [split; [exact H1|split; reflexivity]|].
  destruct (eligible_call_cases format_field_sample sample_self 0
              (val_loss (finite 0.5)) "model_1.h5" (finite 0.5) H1 eq_refl eq_refl)
    as [(_ & _ & _ & Hops & _)|[(Hn & _)|[(Hn & _)|(Hn & _)]]].
  - exact Hops.
  - by vm_compute in Hn.
  - by vm_compute in Hn.
  - by vm_compute in Hn.
Defined.

Lemma full_pool_replacement_witness :
  let self := (run format_field_sample sample_self (take 2 sample_calls)).1 in
  let res := on_epoch_end format_field_sample 2 (val_loss (finite 0.4)) self in
  (never_nan "val_loss" (take 2 sample_calls)
   ∧ finite 0.4 ≠ nan
   ∧ period self ≤ epochs_since_last_save self + 1
   ∧ str_format format_field_sample (filepath self) (2 + 1)
       (default ∅ (val_loss (finite 0.4)))
     = Some "model_3.h5"%string
   ∧ default ∅ (val_loss (finite 0.4)) !! monitor self = Some (finite 0.4)
   ∧ n_models self ≤ Z.of_nat (length (tracker self)))
  ∧ ∃ top rest,
      tracker self = top :: rest
      ∧ tracker res.1.1
        ≡ₚ (float_mul (finite 0.4) (coef self), 3, "model_3.h5"%string) :: rest
      ∧ file_ops res.1.2 = [os_remove "model_1.h5"; model_save "model_3.h5"].
Proof.
  cbv zeta.
  assert (period (run format_field_sample sample_self (take 2 sample_calls)).1
          ≤ epochs_since_last_save
              (run format_field_sample sample_self (take 2 sample_calls)).1 + 1) as H1
    by (by vm_compute).
  assert (n_models (run format_field_sample sample_self (take 2 sample_calls)).1
          ≤ Z.of_nat (length (tracker
              (run format_field_sample sample_self (take 2 sample_calls)).1))) as H4
    by (by vm_compute).
  assert (finite 0.4 ≠ nan) as H0 by discriminate.
  split.
  { split; [exact sample_calls_2_never_nan|]. split; [exact H0|].
    split; [exact H1|]. split; [reflexivity|]. split; [reflexivity|exact H4]. }
  destruct (full_pool_replacement format_field_sample
              "model.h5" "val_loss" 0 2 false "min" 1 (take 2 sample_calls)
              2 (val_loss (finite 0.4)) "model_3.h5" (finite 0.4)
              sample_calls_2_never_nan H0 H1 eq_refl eq_refl H4)
    as (_ & Hyes & _).
  destruct (Hyes sample_top)
    as (top & rest & Ht & _ & _ & _ & Hperm & Hops & _).
  - change (run format_field_sample
              (__init__ "model.h5" "val_loss" 0 2 false "min" 1).1
              (take 2 sample_calls))
      with (run format_field_sample sample_self (take 2 sample_calls)).
    rewrite sample_tracker. exact sample_top_minimum.
  - reflexivity.
  - exists top, rest. split; [exact Ht|]. split; [exact Hperm|exact Hops].
Defined.

Lemma file_lifecycle_witness :
  let fresh := (__init__ "model.h5" "val_loss" 0 2 false "min" 1).1 in
  let traces := (run format_field_sample fresh sample_calls).2 in
  (0 ≤ 2 ∧ never_nan "val_loss" sample_calls
   ∧ NoDup (resolved_paths format_field_sample fresh sample_calls))
  ∧ (∀ i evs q, traces !! i = Some evs → q ∈ deletes evs →
       ∃ j evs', (j < i)%nat ∧ traces !! j = Some evs' ∧ q ∈ persists evs')
  ∧ NoDup (deletes (concat traces))
  ∧ (∀ t, t `prefix_of` concat traces → Z.of_nat (size (live t)) ≤ 2).
Proof.
  cbv zeta.
  split; [split; [lia|split; [exact sample_calls_never_nan
                             |exact sample_resolved_paths]]|].
  apply (file_lifecycle format_field_sample "model.h5" "val_loss" 0 2 false
           "min" 1 sample_calls);
    [lia|exact sample_calls_never_nan|exact sample_resolved_paths].
Defined.


Lemma quiet_without_verbose_witness :
  0 ≤ 0
  ∧ Forall (λ e, ∀ m, e ≠ print m)
      (concat (run format_field_sample
                 (__init__ "model.h5" "val_loss" 0 2 false "min" 1).1
                 sample_calls).2).
Proof.
  split; [lia|].
  apply (quiet_without_verbose format_field_sample "model.h5" "val_loss" 0 2 false
           "min" 1 sample_calls).
  lia.
Defined.

Lemma tie_newer_replaces_witness :
  let self := (run format_field_sample sample_self (take 2 sample_calls)).1 in
  let res := on_epoch_end format_field_sample 2 (val_loss (finite 0.5)) self in
  (period self ≤ epochs_since_last_save self + 1
   ∧ str_format format_field_sample (filepath self) (2 + 1)
       (default ∅ (val_loss (finite 0.5)))
     = Some "model_3.h5"%string
   ∧ default ∅ (val_loss (finite 0.5)) !! monitor self = Some (finite 0.5)
   ∧ n_models self ≤ Z.of_nat (length (tracker self))
   ∧ tracker self = sample_top :: sample_rest
   ∧ float_eq (item_score sample_top) (float_mul (finite 0.5) (coef self))
   ∧ item_epoch sample_top < 2 + 1)
  ∧ file_ops res.1.2 = [os_remove "model_1.h5"; model_save "model_3.h5"].
Proof.
  cbv zeta.
  assert (period (run format_field_sample sample_self (take 2 sample_calls)).1
          ≤ epochs_since_last_save
              (run format_field_sample sample_self (take 2 sample_calls)).1 + 1) as H1
    by (by vm_compute).
  assert (n_models (run format_field_sample sample_self (take 2 sample_calls)).1
          ≤ Z.of_nat (length (tracker
              (run format_field_sample sample_self (take 2 sample_calls)).1))) as H4
    by (by vm_compute).
  assert (float_eq (item_score sample_top)
            (float_mul (finite 0.5)
               (coef (run format_field_sample sample_self
                        (take 2 sample_calls)).1))) as H6 by reflexivity.
  assert (item_epoch sample_top < 2 + 1) as H7 by (by vm_compute).
  split.
  { split; [exact H1|]. split; [reflexivity|]. split; [reflexivity|].
    split; [exact H4|]. split; [exact sample_tracker|]. split; [exact H6|exact H7]. }
  exact (proj1 (tie_newer_replaces format_field_sample _ 2 (val_loss (finite 0.5))
                  "model_3.h5" (finite 0.5) sample_top sample_rest
                  H1 eq_refl eq_refl H4 sample_tracker H6 H7)).
Defined.

Lemma worst_never_worsens_witness :
  let self := (run format_field_sample
                 (__init__ "model.h5" "val_loss" 0 2 false "min" 1).1
                 (take 2 sample_calls)).1 in
  let self' := (run format_field_sample self (drop 2 sample_calls)).1 in
  (tracker self = sample_top :: sample_rest
   ∧ 2 ≤ Z.of_nat (length (tracker self)))
  ∧ ∃ top' rest', tracker self' = top' :: rest' ∧ tuple_le sample_top top'.
Proof.
  cbv zeta.
  assert (tracker (run format_field_sample
                     (__init__ "model.h5" "val_loss" 0 2 false "min" 1).1
                     (take 2 sample_calls)).1
          = sample_top :: sample_rest) as H1 by (by vm_compute).
  assert (2 ≤ Z.of_nat (length (tracker
            (run format_field_sample
               (__init__ "model.h5" "val_loss" 0 2 false "min" 1).1
               (take 2 sample_calls)).1))) as H2 by (by vm_compute).
  split; [by split|].
  destruct (worst_never_worsens format_field_sample "model.h5" "val_loss" 0 2 false
              "min" 1 (take 2 sample_calls) (drop 2 sample_calls)
              sample_top sample_rest H1 H2) as (top' & rest' & Ht & Hle & _).
  exists top', rest'. split; [exact Ht|exact Hle].
Defined.

Lemma top_n_retained_witness :
  let fresh := (__init__ "model.h5" "val_loss" 0 2 false "min" 1).1 in
  let final := (run format_field_sample fresh sample_calls).1 in
  never_nan "val_loss" sample_calls
  ∧ ∃ dropped,
      offered format_field_sample fresh sample_calls ≡ₚ tracker final ++ dropped
      ∧ (∀ d t, d ∈ dropped → t ∈ tracker final → tuple_le d t)
      ∧ Z.of_nat (length (tracker final)) = 2.
Proof.
  cbv zeta. split; [exact sample_calls_never_nan|].
  destruct (top_n_retained format_field_sample "model.h5" "val_loss" 0 2 false
              "min" 1 sample_calls sample_calls_never_nan)
    as (dropped & H1 & H2 & H3).
  exists dropped. split; [exact H1|]. split; [exact H2|].
  rewrite H3. reflexivity.
Defined.

Lemma file_accounting_witness :
  let r := run format_field_sample
             (__init__ "model.h5" "val_loss" 0 2 false "min" 1).1 sample_calls in
  accepted ∅ (concat r.2) = true
  ∧ length (persists (concat r.2))
    = (length (deletes (concat r.2)) + length (tracker r.1))%nat.
Proof.
  cbv zeta.
  assert (accepted ∅ (concat (run format_field_sample
                                (__init__ "model.h5" "val_loss" 0 2 false "min" 1).1
                                sample_calls).2) = true) as H by (by vm_compute).
  split; [exact H|].
  exact (file_accounting format_field_sample "model.h5" "val_loss" 0 2 false "min" 1
           sample_calls H).
Defined.

Lemma counter_periodic_witness :
  1 ≤ 3
  ∧ epochs_since_last_save
      (run format_field_sample (__init__ "model.h5" "val_loss" 0 2 false "min" 3).1
         sample_calls).1 = 1.
Proof.
  assert (1 ≤ 3) as H by lia.
  split; [exact H|].
  exact (proj1 (counter_periodic format_field_sample "model.h5" "val_loss" 0 2 false
                  "min" 3 sample_calls H)).
Defined.

Lemma nonpositive_capacity_witness :
  let r := run format_field_sample
             (__init__ "model.h5" "val_loss" 0 (-1) false "min" 1).1 sample_calls in
  (-1 ≤ 0 ∧ never_nan "val_loss" sample_calls)
  ∧ tracker r.1 = []
  ∧ Forall (λ evs, file_ops evs = []) r.2.
Proof.
  cbv zeta.
  assert (-1 ≤ 0) as H by lia.
  split; [split; [exact H|exact sample_calls_never_nan]|].
  destruct (nonpositive_capacity format_field_sample "model.h5" "val_loss" 0 (-1)
              false "min" 1 sample_calls H) as (Ht & _ & Hnone & _).
  split; [exact Ht|exact (Hnone sample_calls_never_nan)].
Defined.

Lemma heappush_contract_witness :
  let x : item := (finite (0.4 * -1), 3, "model_3.h5"%string) in
  is_heap (sample_top :: sample_rest)
  ∧ Forall not_nan (x :: sample_top :: sample_rest)
  ∧ is_heap (heapq.heappush (sample_top :: sample_rest) x)
  ∧ ∃ top rest, heapq.heappush (sample_top :: sample_rest) x = top :: rest
                ∧ is_minimum top (x :: sample_top :: sample_rest).
Proof.
  cbv zeta.
  assert (Forall not_nan ((finite (0.4 * -1), 3, "model_3.h5"%string)
                          :: sample_top :: sample_rest)) as Hn
    by (by repeat constructor).
  split; [exact sample_is_heap|]. split; [exact Hn|].
  destruct (heappush_contract _ (finite (0.4 * -1), 3, "model_3.h5"%string)
              sample_is_heap) as (H1 & _ & _ & H4).
  split; [exact H1|exact (H4 Hn)].
Defined.

Lemma heappushpop_contract_witness :
  let x : item := (finite (0.4 * -1), 3, "model_3.h5"%string) in
  let r := heapq.heappushpop (sample_top :: sample_rest) x in
  is_heap (sample_top :: sample_rest)
  ∧ Forall not_nan (x :: sample_top :: sample_rest)
  ∧ is_heap r.1
  ∧ r.2 :: r.1 ≡ₚ x :: sample_top :: sample_rest
  ∧ ∀ y, y ∈ x :: sample_top :: sample_rest → tuple_le r.2 y.
Proof.
  cbv zeta.
  assert (Forall not_nan ((finite (0.4 * -1), 3, "model_3.h5"%string)
                          :: sample_top :: sample_rest)) as Hn
    by (by repeat constructor).
  split; [exact sample_is_heap|]. split; [exact Hn|].
  destruct (heappushpop_contract _ (finite (0.4 * -1), 3, "model_3.h5"%string)
              sample_is_heap) as (H1 & H2 & _ & H4).
  split; [exact H1|]. split; [exact H2|exact (H4 Hn)].
Defined.

Lemma split_join_round_trip_witness :
  str_contains "//" "dir/model.h5" = false
  ∧ os_path.join (os_path.split "dir/model.h5").1 (os_path.split "dir/model.h5").2
    = "dir/model.h5"%string.
Proof.
  split; [reflexivity|].
  exact (proj1 (split_join_round_trip "dir/model.h5" eq_refl)).
Defined.

Lemma splitext_extension_witness :
  (os_path.sep ∉ list_ascii_of_string "model.h5")
  ∧ list_ascii_of_string (os_path.splitext "model.h5").1
    ++ list_ascii_of_string (os_path.splitext "model.h5").2
    = list_ascii_of_string "model.h5".
Proof.
  assert (os_path.sep ∉ list_ascii_of_string "model.h5") as H.
  { apply (bool_decide_unpack _). by vm_compute. }
  split; [exact H|].
  exact (proj1 (splitext_extension "model.h5" H)).
Defined.

Lemma init_inserts_suffix_witness :
  str_contains "//" "dir/model.h5" = false
  ∧ ∃ dir name ext,
      list_ascii_of_string "dir/model.h5" = dir ++ name ++ ext
      ∧ list_ascii_of_string
          (filepath (__init__ "dir/model.h5" "val_loss" 0 5 false "auto" 1).1)
        = dir ++ name ++ list_ascii_of_string "_{epoch:d}" ++ ext.
Proof.
  split; [reflexivity|].
  destruct (init_inserts_suffix "dir/model.h5" "val_loss" 0 5 false "auto" 1 eq_refl)
    as (dir & name & ext & H1 & H2 & _).
  by exists dir, name, ext.
Defined.

Lemma brace_free_checkpoint_name_witness :
  let self := (__init__ "dir/model.h5" "val_loss" 0 5 false "auto" 1).1 in
  (brace_free "dir/model.h5"
   ∧ default ∅ (val_loss (finite 0.5)) !! "epoch"%string = None)
  ∧ str_format format_field_sample (filepath self) (6 + 1) (default ∅ (val_loss (finite 0.5)))
    = Some "dir/model_7.h5"%string.
Proof.
  cbv zeta.
  assert (brace_free "dir/model.h5") as Hb.
  { unfold brace_free, brace_free_chars. simpl. by repeat constructor. }
  assert (default ∅ (val_loss (finite 0.5)) !! "epoch"%string = None) as Hl by reflexivity.
  split; [by split|].
  exact (brace_free_checkpoint_name format_field_sample "dir/model.h5" "val_loss" 0 5
           false "auto" 1 [] 6 (val_loss (finite 0.5)) Hb Hl).
Defined.

Lemma format_concat_witness :
  str_format format_field_sample "weights.{epoch:02d}" 7 ∅ = Some "weights.07"%string
  ∧ str_format format_field_sample "weights.{epoch:02d}_{epoch:d}.hdf5" 7 ∅
    = Some "weights.07_7.hdf5"%string.
Proof.
  split; [reflexivity|].
  exact (format_concat format_field_sample "weights.{epoch:02d}" "_{epoch:d}.hdf5"
           7 ∅ "weights.07" eq_refl).
Defined.

Lemma missing_key_raises_witness :
  let logs : gmap string float := {[ "loss"%string := finite 0.7 ]} in
  (is_Some (str_format format_field_sample "weights.{epoch:02d}-" 1 logs)
   ∧ brace_free "val_loss:.2f"
   ∧ string_of_list_ascii (arg_name (list_ascii_of_string "val_loss:.2f"))
     ≠ "epoch"%string
   ∧ logs !! string_of_list_ascii (arg_name (list_ascii_of_string "val_loss:.2f"))
     = None)
  ∧ str_format format_field_sample
      "weights.{epoch:02d}-{val_loss:.2f}_{epoch:d}.hdf5" 1 logs = None.
Proof.
  cbv zeta.
  assert (is_Some (str_format format_field_sample "weights.{epoch:02d}-" 1
                     ({[ "loss"%string := finite 0.7 ]} : gmap string float))) as H1
    by (by eexists).
  assert (brace_free "val_loss:.2f") as H2.
  { unfold brace_free, brace_free_chars. simpl. by repeat constructor. }
  assert (string_of_list_ascii (arg_name (list_ascii_of_string "val_loss:.2f"))
          ≠ "epoch"%string) as H3 by (by vm_compute).
  assert (({[ "loss"%string := finite 0.7 ]} : gmap string float)
            !! string_of_list_ascii (arg_name (list_ascii_of_string "val_loss:.2f"))
          = None) as H4 by reflexivity.
  split; [by repeat split|].
  exact (missing_key_raises format_field_sample "weights.{epoch:02d}-" "val_loss:.2f"
           "_{epoch:d}.hdf5" 1 _ H1 H2 H3 H4).
Defined.

Lemma user_template_checkpoint_name_witness :
  let self := (__init__ "out/weights.{epoch:02d}.hdf5" "val_loss" 0 5 false "auto" 1).1 in
  str_contains "//" "out/weights.{epoch:02d}.hdf5" = false
  ∧ filepath self = "out/weights.{epoch:02d}_{epoch:d}.hdf5"%string
  ∧ str_format format_field_sample (filepath self) (6 + 1) ∅
    = Some "out/weights.07_7.hdf5"%string.
Proof.
  cbv zeta. split; [reflexivity|].
  destruct (user_template_checkpoint_name format_field_sample
              "out/weights.{epoch:02d}.hdf5" "val_loss" 0 5 false "auto" 1 [] 6 ∅
              "out/weights.07" ".hdf5" eq_refl) as (_ & Hf & Hr).
  split; [exact Hf|]. exact (Hr eq_refl eq_refl).
Defined.
